(** * Retention engine of the backup agent: [internal/command/delete.go]

    A shallow embedding of [DeleteCommand.Execute] and
    [DeleteCommand.deleteFiles] (the per-database-folder version of the
    command) together with the properties of the retention policy that the
    specification states about them.

    Go values are modelled as follows.
    - [time.Time] is an instant on the integer line, counted in nanoseconds
      from the zero value [time.Time{}]; [IsZero], [Before] and [After]
      compare instants. [AddDate] works on the calendar of a time zone and
      is taken from the [World].
    - [int] and [int64] are 64-bit two's-complement integers: values are in
      [Z] and every [+=] of the source wraps with [wrap64].
    - [map[string]T] is a [gmap string T]; the order in which [range]
      visits a map is not fixed by Go and is supplied by the [World].
    - [sort.Slice], [path.Dir], [time.Now], [Time.AddDate] and the S3
      client belong to libraries outside the repository; what the command relies on is
      collected in the record [World] and the predicate [WorldOK]. *)

From stdpp Require Import base gmap sets list strings sorting pretty.
From Stdlib Require Import ZArith Lia.
From Stdlib Require SpecFloat.

Local Open Scope Z_scope.

(** ** Machine integers *)

Definition wrap64 (z : Z) : Z := (z + 2 ^ 63) mod 2 ^ 64 - 2 ^ 63.

(** [a += b] on [int] and [int64]. *)
Definition add64 (a b : Z) : Z := wrap64 (a + b).

(** [len(s)] as an [int]. *)
Definition len {A} (s : list A) : Z := Z.of_nat (length s).

(** ** [time.Time] *)

Module Time.
Definition t := Z.

(** [time.Time{}] *)
Definition zero : t := 0.

Definition IsZero (a : t) : bool := bool_decide (a = zero).
Definition Before (a b : t) : bool := bool_decide (a < b).
Definition After (a b : t) : bool := bool_decide (b < a).

Definition nanosPerDay : Z := 86400 * 1000000000.

(** What [a.AddDate(0, 0, days)] is in a location whose offset never
    changes, such as UTC: there every calendar day lasts 24 hours. This is
    the [AddDate] of the concrete world of the examples only; the command
    is modelled with the [AddDate] of its [World]. *)
Definition AddDays (a : t) (days : Z) : t := a + days * nanosPerDay.
End Time.

(** ** [s3.FileInfo], [config.DeletionRules], errors *)

Record FileInfo := mkFile {
  Key : string;
  CreatedAt : Time.t;
  Size : Z
}.

Record DeletionRules := mkRules {
  MaxAgeDays : Z;
  MaxCount : Z;
  Enabled : bool
}.

(** Go [error] values: what the S3 adapter returns, and the two wrappers
    built with [fmt.Errorf(... %w ...)] in the command. *)
Inductive error :=
| S3Error (msg : string)
| FailedToListFiles (cause : error)
| FailedToDeleteFile (key : string) (cause : error).

(** ** Statistics *)

Module DatabaseStats.
Record t := mk {
  TotalFiles : Z;
  DeletedFiles : Z;
  RetainedFiles : Z;
  DeletedSize : Z;
  RetainedSize : Z;
  OldestRetained : Time.t;
  NewestRetained : Time.t
}.

(** [&DatabaseStats{}] *)
Definition empty : t := mk 0 0 0 0 0 Time.zero Time.zero.
End DatabaseStats.

Module DeleteStats.
Record t := mk {
  TotalFiles : Z;
  DeletedFiles : Z;
  RetainedFiles : Z;
  DeletedSize : Z;
  RetainedSize : Z;
  OldestRetained : Time.t;
  NewestRetained : Time.t;
  DatabaseStats : gmap string DatabaseStats.t
}.

(** [&DeleteStats{DatabaseStats: make(map[string]*DatabaseStats)}] *)
Definition empty : t := mk 0 0 0 0 0 Time.zero Time.zero ∅.
End DeleteStats.

(** ** The object store *)

(** The bucket as the command sees it: the objects it holds, and the calls
    of [Delete] made on it so far, oldest first, each with the key and the
    error it returned ([None] for [nil]). *)
Record Bucket := mkBucket {
  objects : list FileInfo;
  deleteCalls : list (string * option error)
}.

(** ** What the command takes from outside the repository *)

Record World := mkWorld {
  (** [path.Dir] *)
  Dir : string → string;
  (** [sort.Slice(s, func(i, j) bool { return s[i].CreatedAt.After(s[j].CreatedAt) })] *)
  sortNewestFirst : list FileInfo → list FileInfo;
  (** the order in which [range dbFiles] yields the folders *)
  rangeFolders : gmap string (list FileInfo) → list (string * list FileInfo);
  (** the order in which [range filesToDelete] yields the files, in the
      iteration for the given folder *)
  rangeDelete : string → gmap string FileInfo → list FileInfo;
  (** the same for [range filesToRetain] *)
  rangeRetain : string → gmap string FileInfo → list FileInfo;
  (** the reading of [time.Now()] in the iteration for the given folder *)
  Now : string → Time.t;
  (** [t.AddDate(0, 0, days)] for a reading [t] of [time.Now()]: the instant
      with the same wall-clock reading [days] calendar days later in
      [time.Local]. Where the offset of the zone changes in between, the
      two instants are not a multiple of 24 hours apart. *)
  AddDate : Time.t → Z → Time.t;
  (** whether [s3Client.List] fails on the bucket *)
  listFails : Bucket → option error;
  (** whether [s3Client.Delete] of a key fails on the bucket *)
  deleteFails : Bucket → string → option error
}.

(** Newest first: no later element is strictly newer. *)
Definition newestFirst (a b : FileInfo) : Prop := CreatedAt b ≤ CreatedAt a.

(** The contracts of [sort.Slice] (a sorted rearrangement, not necessarily a
    stable one) and of [range] over a map (every entry once, in some
    order). *)
Record WorldOK (w : World) : Prop := mkWorldOK {
  sort_perm : ∀ l, sortNewestFirst w l ≡ₚ l;
  sort_sorted : ∀ l, StronglySorted newestFirst (sortNewestFirst w l);
  rangeFolders_perm : ∀ m, rangeFolders w m ≡ₚ map_to_list m;
  rangeDelete_perm : ∀ g m, rangeDelete w g m ≡ₚ (map_to_list m).*2;
  rangeRetain_perm : ∀ g m, rangeRetain w g m ≡ₚ (map_to_list m).*2
}.

(** ** The S3 adapter, as far as the command uses it *)

Definition S3_List (w : World) (b : Bucket) : error + list FileInfo :=
  match listFails w b with
  | Some e => inl e
  | None => inr (objects b)
  end.

Definition S3_Delete (w : World) (b : Bucket) (key : string) : Bucket * option error :=
  match deleteFails w b key with
  | Some e => (mkBucket (objects b) (deleteCalls b ++ [(key, Some e)]), Some e)
  | None =>
      (mkBucket (filter (λ f, Key f ≠ key) (objects b)) (deleteCalls b ++ [(key, None)]),
       None)
  end.

(** ** [DeleteCommand.deleteFiles] *)

Fixpoint deleteFiles (w : World) (b : Bucket) (files : list FileInfo)
  : Bucket * option error :=
  match files with
  | [] => (b, None)
  | file :: rest =>
      match S3_Delete w b (Key file) with
      | (b', Some err) => (b', Some (FailedToDeleteFile (Key file) err))
      | (b', None) => deleteFiles w b' rest
      end
  end.

(** ** [DeleteCommand.Execute] *)

(** The two sets of one folder, [filesToDelete] and [filesToRetain]. *)
Record Marks := mkMarks {
  filesToDelete : gmap string FileInfo;
  filesToRetain : gmap string FileInfo
}.

(** Grouping loop: [dbFiles[dbFolder] = append(dbFiles[dbFolder], file)]. *)
Fixpoint groupLoop (w : World) (files : list FileInfo)
    (dbFiles : gmap string (list FileInfo)) : gmap string (list FileInfo) :=
  match files with
  | [] => dbFiles
  | file :: rest =>
      let dbFolder := Dir w (Key file) in
      groupLoop w rest (<[dbFolder := default [] (dbFiles !! dbFolder) ++ [file]]> dbFiles)
  end.

Definition groupByFolder (w : World) (files : list FileInfo) : gmap string (list FileInfo) :=
  groupLoop w files ∅.

(** Time-based rule: the loop over [files]. *)
Fixpoint ageLoop (cutoffTime : Time.t) (files : list FileInfo) (m : Marks) : Marks :=
  match files with
  | [] => m
  | file :: rest =>
      if Time.Before (CreatedAt file) cutoffTime
      then ageLoop cutoffTime rest
             (mkMarks (<[Key file := file]> (filesToDelete m)) (filesToRetain m))
      else ageLoop cutoffTime rest
             (mkMarks (filesToDelete m) (<[Key file := file]> (filesToRetain m)))
  end.

(** Count-based rule, more files than [max_count]: the loop over
    [i, file := range files], entered at index [i]. *)
Fixpoint countLoop (maxCount : Z) (i : Z) (files : list FileInfo) (m : Marks) : Marks :=
  match files with
  | [] => m
  | file :: rest =>
      if maxCount <=? i
      then countLoop maxCount (i + 1) rest
             (mkMarks (<[Key file := file]> (filesToDelete m))
                      (delete (Key file) (filesToRetain m)))
      else countLoop maxCount (i + 1) rest
             (mkMarks (delete (Key file) (filesToDelete m))
                      (<[Key file := file]> (filesToRetain m)))
  end.

(** Count-based rule, at most [max_count] files: keep all of them. *)
Fixpoint keepAllLoop (files : list FileInfo) (m : Marks) : Marks :=
  match files with
  | [] => m
  | file :: rest =>
      keepAllLoop rest
        (mkMarks (delete (Key file) (filesToDelete m))
                 (<[Key file := file]> (filesToRetain m)))
  end.

(** The marks of one folder, from its files sorted newest first; [now] is
    the reading of [time.Now()]. *)
Definition classify (rules : DeletionRules) (w : World) (now : Time.t)
    (files : list FileInfo) : Marks :=
  let m0 := mkMarks ∅ ∅ in
  let m1 :=
    if 0 <? MaxAgeDays rules
    then ageLoop (AddDate w now (- MaxAgeDays rules)) files m0
    else m0 in
  if 0 <? MaxCount rules
  then if MaxCount rules <? len files
       then countLoop (MaxCount rules) 0 files m1
       else keepAllLoop files m1
  else m1.

(** [for _, file := range s { total += file.Size }] *)
Definition sumSizes (s : list FileInfo) : Z :=
  foldl (λ acc file, add64 acc (Size file)) 0 s.

(** The slices of one folder: [filesToDeleteSlice], and
    [filesToRetainSlice] after it is sorted. *)
Definition deleteSlice (w : World) (dbFolder : string) (m : Marks) : list FileInfo :=
  rangeDelete w dbFolder (filesToDelete m).

Definition retainSlice (w : World) (dbFolder : string) (m : Marks) : list FileInfo :=
  sortNewestFirst w (rangeRetain w dbFolder (filesToRetain m)).

(** "Calculate database statistics". *)
Definition databaseStats (files toDelete toRetain : list FileInfo) : DatabaseStats.t :=
  DatabaseStats.mk
    (len files)
    (len toDelete)
    (len toRetain)
    (sumSizes toDelete)
    (sumSizes toRetain)
    (match last toRetain with Some f => CreatedAt f | None => Time.zero end)
    (match head toRetain with Some f => CreatedAt f | None => Time.zero end).

(** "Update overall statistics" and "Update overall oldest/newest retained
    times", together with [stats.TotalFiles += len(files)] and the entry of
    [stats.DatabaseStats]. *)
Definition updateOverall (stats : DeleteStats.t) (dbFolder : string)
    (dbStats : DatabaseStats.t) (toRetain : list FileInfo) : DeleteStats.t :=
  DeleteStats.mk
    (add64 (DeleteStats.TotalFiles stats) (DatabaseStats.TotalFiles dbStats))
    (add64 (DeleteStats.DeletedFiles stats) (DatabaseStats.DeletedFiles dbStats))
    (add64 (DeleteStats.RetainedFiles stats) (DatabaseStats.RetainedFiles dbStats))
    (add64 (DeleteStats.DeletedSize stats) (DatabaseStats.DeletedSize dbStats))
    (add64 (DeleteStats.RetainedSize stats) (DatabaseStats.RetainedSize dbStats))
    (match last toRetain with
     | Some f =>
         if Time.IsZero (DeleteStats.OldestRetained stats)
            || Time.Before (CreatedAt f) (DeleteStats.OldestRetained stats)
         then CreatedAt f else DeleteStats.OldestRetained stats
     | None => DeleteStats.OldestRetained stats
     end)
    (match head toRetain with
     | Some f =>
         if Time.IsZero (DeleteStats.NewestRetained stats)
            || Time.After (CreatedAt f) (DeleteStats.NewestRetained stats)
         then CreatedAt f else DeleteStats.NewestRetained stats
     | None => DeleteStats.NewestRetained stats
     end)
    (<[dbFolder := dbStats]> (DeleteStats.DatabaseStats stats)).

(** The marks of the folder [dbFolder] holding [files]. *)
Definition folderMarks (rules : DeletionRules) (w : World)
    (dbFolder : string) (files : list FileInfo) : Marks :=
  classify rules w (Now w dbFolder) (sortNewestFirst w files).

(** [dbStats] at the end of the iteration for [dbFolder]. *)
Definition folderStats (rules : DeletionRules) (w : World)
    (dbFolder : string) (files : list FileInfo) : DatabaseStats.t :=
  let m := folderMarks rules w dbFolder files in
  databaseStats files (deleteSlice w dbFolder m) (retainSlice w dbFolder m).

(** One iteration of "Process each database folder", up to the dry-run test:
    the statistics after it. *)
Definition folderStep (rules : DeletionRules) (w : World) (stats : DeleteStats.t)
    (dbFolder : string) (files : list FileInfo) : DeleteStats.t :=
  updateOverall stats dbFolder (folderStats rules w dbFolder files)
    (retainSlice w dbFolder (folderMarks rules w dbFolder files)).

(** The loop over the folders in the order [range dbFiles] yields them. *)
Fixpoint folderLoop (rules : DeletionRules) (dryRun : bool) (w : World)
    (folders : list (string * list FileInfo)) (stats : DeleteStats.t) (b : Bucket)
  : DeleteStats.t * option error * Bucket :=
  match folders with
  | [] => (stats, None, b)
  | (dbFolder, files) :: rest =>
      let stats' := folderStep rules w stats dbFolder files in
      if dryRun then folderLoop rules dryRun w rest stats' b
      else
        match deleteFiles w b (deleteSlice w dbFolder (folderMarks rules w dbFolder files)) with
        | (b', Some err) => (stats', Some err, b')
        | (b', None) => folderLoop rules dryRun w rest stats' b'
        end
  end.

(** [Execute]: the returned statistics and error, and the bucket it leaves
    behind. A [nil] statistics pointer is [None]. *)
Definition Execute (rules : DeletionRules) (dryRun : bool) (w : World) (b : Bucket)
  : option DeleteStats.t * option error * Bucket :=
  let stats := DeleteStats.empty in
  if negb (Enabled rules) then (Some stats, None, b)
  else
    match S3_List w b with
    | inl err => (None, Some (FailedToListFiles err), b)
    | inr files =>
        if len files =? 0 then (Some stats, None, b)
        else
          let dbFiles := groupByFolder w files in
          let '(stats', err, b') :=
            folderLoop rules dryRun w (rangeFolders w dbFiles) stats b in
          (Some stats', err, b')
    end.

(** ** Vocabulary of the statements *)

Definition keys (l : list FileInfo) : list string := Key <$> l.

(** The set, indexed by key, that holds exactly the files of [l]. *)
Definition toMap (l : list FileInfo) : gmap string FileInfo :=
  list_to_map ((λ f, (Key f, f)) <$> l).

(** The files held by a set. *)
Definition filesOf (m : gmap string FileInfo) : list FileInfo := (map_to_list m).*2.

(** A file is in the Delete set, or in the Keep set, of a folder when the
    set holds it under its key. *)
Definition markedDelete (m : Marks) (f : FileInfo) : Prop :=
  filesToDelete m !! Key f = Some f.

Definition markedKeep (m : Marks) (f : FileInfo) : Prop :=
  filesToRetain m !! Key f = Some f.

(** The files of a listing that lie in folder [g], in listing order. *)
Definition inFolder (w : World) (g : string) (l : list FileInfo) : list FileInfo :=
  filter (λ f, Dir w (Key f) = g) l.

(** The files of [fs] created before [c], and the others. *)
Definition olderThan (c : Time.t) (fs : list FileInfo) : list FileInfo :=
  filter (λ f, CreatedAt f < c) fs.

Definition notOlderThan (c : Time.t) (fs : list FileInfo) : list FileInfo :=
  filter (λ f, ¬ CreatedAt f < c) fs.

(** Every key of the sets is the key of one of the files [fs]. *)
Definition withinKeys (m : Marks) (fs : list FileInfo) : Prop :=
  ∀ k, k ∉ keys fs → filesToDelete m !! k = None ∧ filesToRetain m !! k = None.

(** The mathematical sum of the sizes. *)
Definition totalSize (l : list FileInfo) : Z := foldr (λ f acc, Size f + acc) 0 l.

Definition sumZ (l : list Z) : Z := foldr Z.add 0 l.

(** The sum of 64-bit integers, as [+=] computes it. *)
Definition sum64 (l : list Z) : Z := wrap64 (sumZ l).

(** [t] is the least (greatest) of the instants [ts], and the zero time when
    there is none. *)
Definition earliest (t : Time.t) (ts : list Time.t) : Prop :=
  (ts = [] → t = Time.zero) ∧ (ts ≠ [] → t ∈ ts ∧ ∀ u, u ∈ ts → t ≤ u).

Definition latest (t : Time.t) (ts : list Time.t) : Prop :=
  (ts = [] → t = Time.zero) ∧ (ts ≠ [] → t ∈ ts ∧ ∀ u, u ∈ ts → u ≤ t).

(** [t] is the earliest (latest) creation time among the files [l], and the
    zero time when [l] is empty. *)
Definition oldestOf (t : Time.t) (l : list FileInfo) : Prop :=
  earliest t (CreatedAt <$> l).

Definition newestOf (t : Time.t) (l : list FileInfo) : Prop :=
  latest t (CreatedAt <$> l).

(** ** The run as a whole *)

(** The statistics after the iterations for [folders], in that order. *)
Definition evalFolders (rules : DeletionRules) (w : World)
    (folders : list (string * list FileInfo)) (stats : DeleteStats.t) : DeleteStats.t :=
  foldl (λ st gf, folderStep rules w st gf.1 gf.2) stats folders.

(** The evaluator: the statistics of a listing, every folder visited. *)
Definition evaluate (rules : DeletionRules) (w : World) (listing : list FileInfo)
  : DeleteStats.t :=
  evalFolders rules w (rangeFolders w (groupByFolder w listing)) DeleteStats.empty.

(** The keys the run means to delete, in the order it would call [Delete]. *)
Definition plan (rules : DeletionRules) (w : World)
    (folders : list (string * list FileInfo)) : list string :=
  folders ≫= (λ gf, keys (deleteSlice w gf.1 (folderMarks rules w gf.1 gf.2))).

(** The keys of the calls that returned no error. *)
Definition succeeded (calls : list (string * option error)) : list string :=
  (filter (λ c, c.2 = None) calls).*1.

(** What is left of [l] once the objects with keys [ks] are gone. *)
Definition removeKeys (ks : list string) (l : list FileInfo) : list FileInfo :=
  filter (λ f, Key f ∉ ks) l.

(** The shape of a log kept by a sequence of calls that stops at the first
    error and returns it wrapped. *)
Definition failFast (calls : list (string * option error)) (err : option error) : Prop :=
  match err with
  | None => Forall (λ c, c.2 = None) calls
  | Some e =>
      ∃ pre k e0, calls = pre ++ [(k, Some e0)] ∧ Forall (λ c, c.2 = None) pre ∧
                  e = FailedToDeleteFile k e0
  end.

(** Where a live run stopped: after the folders [done] it failed in the
    folder [g], having called [Delete] on the nonempty initial part [part]
    of that folder's slice. *)
Definition stoppedIn (rules : DeletionRules) (w : World)
    (folders : list (string * list FileInfo)) (called : list string)
    (st0 st : DeleteStats.t) : Prop :=
  ∃ done g files rest part,
    folders = done ++ (g, files) :: rest ∧
    st = evalFolders rules w (done ++ [(g, files)]) st0 ∧
    called = plan rules w done ++ part ∧ part ≠ [] ∧
    part `prefix_of` keys (deleteSlice w g (folderMarks rules w g files)).

(** The per-database statistics of the folders, in the order visited. *)
Definition perFolder (rules : DeletionRules) (w : World)
    (folders : list (string * list FileInfo)) : list (string * DatabaseStats.t) :=
  (λ gf, (gf.1, folderStats rules w gf.1 gf.2)) <$> folders.

(** The Keep sets of the folders, together. *)
Definition keptFiles (rules : DeletionRules) (w : World)
    (folders : list (string * list FileInfo)) : list FileInfo :=
  folders ≫= (λ gf, filesOf (filesToRetain (folderMarks rules w gf.1 gf.2))).

(** The Delete sets of the folders, together. *)
Definition deletedFiles (rules : DeletionRules) (w : World)
    (folders : list (string * list FileInfo)) : list FileInfo :=
  folders ≫= (λ gf, filesOf (filesToDelete (folderMarks rules w gf.1 gf.2))).

(** The per-database statistics a run returned. *)
Definition perDatabase (st : DeleteStats.t) : list DatabaseStats.t :=
  (map_to_list (DeleteStats.DatabaseStats st)).*2.

(** Those of the folders whose retained set is not empty. *)
Definition withRetained (st : DeleteStats.t) : list DatabaseStats.t :=
  filter (λ ds, DatabaseStats.RetainedFiles ds ≠ 0) (perDatabase st).

(** The counts and sizes of the overall statistics are the sums of the
    per-database ones. *)
Definition totalsAreSums (st : DeleteStats.t) : Prop :=
  DeleteStats.TotalFiles st = sum64 (DatabaseStats.TotalFiles <$> perDatabase st) ∧
  DeleteStats.DeletedFiles st = sum64 (DatabaseStats.DeletedFiles <$> perDatabase st) ∧
  DeleteStats.RetainedFiles st = sum64 (DatabaseStats.RetainedFiles <$> perDatabase st) ∧
  DeleteStats.DeletedSize st = sum64 (DatabaseStats.DeletedSize <$> perDatabase st) ∧
  DeleteStats.RetainedSize st = sum64 (DatabaseStats.RetainedSize <$> perDatabase st).

(** Two worlds that may differ in the order in which maps are visited and in
    what the bucket answers, and agree on the rest: [path.Dir], the result
    of [sort.Slice] on every slice, and the clock with the calendar of its
    time zone. *)
Definition sameInputs (w1 w2 : World) : Prop :=
  (∀ k, Dir w1 k = Dir w2 k) ∧
  (∀ l, sortNewestFirst w1 l = sortNewestFirst w2 l) ∧
  (∀ g, Now w1 g = Now w2 g) ∧
  (∀ t days, AddDate w1 t days = AddDate w2 t days).

(** ** Running minimum and maximum with the zero time as "not set" *)

(** [stats.X = t] when [stats.X.IsZero() || t R stats.X], for a folder whose
    retained slice is not empty ([o] is [Some t]). *)
Definition stepExtreme (R : relation Z) `{!RelDecision R} (acc : Time.t) (o : option Time.t)
  : Time.t :=
  match o with
  | Some t => if Time.IsZero acc || bool_decide (R t acc) then t else acc
  | None => acc
  end.

(** [t] is an element of [ts] that no element precedes in [R], and the zero
    time when [ts] is empty. *)
Definition extremeOf (R : relation Z) (t : Time.t) (ts : list Time.t) : Prop :=
  (ts = [] → t = Time.zero) ∧ (ts ≠ [] → t ∈ ts ∧ ∀ u, u ∈ ts → ¬ R u t).

(** The creation time of the last (first) file of the sorted retained slice
    of a folder, if the slice has one. *)
Definition oldestMark (rules : DeletionRules) (w : World) (gf : string * list FileInfo)
  : option Time.t :=
  CreatedAt <$> last (retainSlice w gf.1 (folderMarks rules w gf.1 gf.2)).

Definition newestMark (rules : DeletionRules) (w : World) (gf : string * list FileInfo)
  : option Time.t :=
  CreatedAt <$> head (retainSlice w gf.1 (folderMarks rules w gf.1 gf.2)).

(** A folder as a group of instants: the reported time, and the creation
    times of its Keep set. *)
Definition oldestGroup (rules : DeletionRules) (w : World) (gf : string * list FileInfo)
  : Time.t * list Time.t :=
  (DatabaseStats.OldestRetained (folderStats rules w gf.1 gf.2),
   CreatedAt <$> filesOf (filesToRetain (folderMarks rules w gf.1 gf.2))).

Definition newestGroup (rules : DeletionRules) (w : World) (gf : string * list FileInfo)
  : Time.t * list Time.t :=
  (DatabaseStats.NewestRetained (folderStats rules w gf.1 gf.2),
   CreatedAt <$> filesOf (filesToRetain (folderMarks rules w gf.1 gf.2))).

(** ** A concrete world

    Used to run the command on examples: [path.Dir] on keys of the form
    [folder/name] (no dot segments, no doubled or trailing slash), a merge
    sort for [sort.Slice], maps visited in the order of [map_to_list] (or
    the reverse of it for the folders), one clock reading for the whole run
    in a time zone of fixed offset, a listing that never fails, and a [Delete] that fails on the keys of a
    given list. *)

Fixpoint beforeLastSlash (s : string) : option string :=
  match s with
  | EmptyString => None
  | String c r =>
      match beforeLastSlash r with
      | Some d => Some (String c d)
      | None => if Ascii.eqb c (Ascii.ascii_of_nat 47) then Some EmptyString else None
      end
  end.

Definition plainDir (key : string) : string :=
  match beforeLastSlash key with
  | Some EmptyString => "/"
  | Some d => d
  | None => "."
  end.

Global Instance newestFirst_dec a b : Decision (newestFirst a b) :=
  Z_le_dec (CreatedAt b) (CreatedAt a).

Definition plainWorld (now : Time.t) (reversed : bool) (failing : list string) : World :=
  mkWorld plainDir (merge_sort newestFirst)
    (λ m, if reversed then reverse (map_to_list m) else map_to_list m)
    (λ _ m, (map_to_list m).*2) (λ _ m, (map_to_list m).*2)
    (λ _, now) Time.AddDays (λ _, None)
    (λ _ key, if bool_decide (key ∈ failing) then Some (S3Error "access denied") else None).

Definition day : Z := Time.nanosPerDay.

(** The example of the specification for both rules together: five backups
    of one database, all of them older than thirty days when the clock
    reads day 100. *)
Definition fiveOld : list FileInfo :=
  [ mkFile "db/a" (10 * day) 100; mkFile "db/b" (20 * day) 200;
    mkFile "db/c" (30 * day) 300; mkFile "db/d" (40 * day) 400;
    mkFile "db/e" (50 * day) 500 ].

(** The end-to-end scenario of the specification: backups 40, 10 and 2 days
    old when the clock reads day 100. *)
Definition threeBackups : list FileInfo :=
  [ mkFile "db/2024-01-01" (60 * day) 10;
    mkFile "db/2024-02-01" (90 * day) 20;
    mkFile "db/2024-02-05" (98 * day) 30 ].

(** Two folders with three backups older than thirty days when the clock
    reads day 100. *)
Definition twoFolders : Bucket := mkBucket
  [ mkFile "db/2024-01-01" (60 * day) 10;
    mkFile "db/2024-01-02" (61 * day) 15;
    mkFile "db/2024-02-05" (98 * day) 30;
    mkFile "pg/2024-01-01" (60 * day) 1;
    mkFile "pg/2024-02-05" (98 * day) 2 ] [].

(** A bucket in which one backup carries the zero time as its creation
    time. *)
Definition zeroStamp : Bucket := mkBucket
  [ mkFile "a/x" Time.zero 7; mkFile "b/y" (5 * day) 9 ] [].

(** ** Statements of the specification that the command does not meet as they stand *)

(** C2 as the specification states it: in every folder each file is in
    exactly one of the two sets, and with both rules disabled each file is
    in the Keep set. *)
Definition partitionClaim (rules : DeletionRules) (w : World) (listing : list FileInfo) : Prop :=
  ∀ g files, groupByFolder w listing !! g = Some files →
    let m := folderMarks rules w g files in
    (∀ f, f ∈ files →
       (markedKeep m f ∧ ¬ markedDelete m f) ∨ (markedDelete m f ∧ ¬ markedKeep m f)) ∧
    (MaxAgeDays rules ≤ 0 → MaxCount rules ≤ 0 → ∀ f, f ∈ files → markedKeep m f).

(** C7 as stated: the marks and the statistics do not depend on the run. *)
Definition reproducibleClaim (rules : DeletionRules) (listing : list FileInfo) : Prop :=
  ∀ w1 w2, WorldOK w1 → WorldOK w2 → sameInputs w1 w2 →
    (∀ g files, folderMarks rules w1 g files = folderMarks rules w2 g files) ∧
    evaluate rules w1 listing = evaluate rules w2 listing.


(** C10 as stated: sums, and the overall oldest and newest retained times
    are the least and the greatest of the per-database ones over the folders
    with a retained file. *)
Definition aggregateClaim (st : DeleteStats.t) : Prop :=
  totalsAreSums st ∧
  earliest (DeleteStats.OldestRetained st)
    (DatabaseStats.OldestRetained <$> withRetained st) ∧
  latest (DeleteStats.NewestRetained st)
    (DatabaseStats.NewestRetained <$> withRetained st).

(** * The rest of the backup agent *)

(** ** Integers and floating-point numbers of [formatBytes] *)

(** [a * b] and [a / b] on [int64]; Go's [/] truncates toward zero. *)
Definition mul64 (a b : Z) : Z := wrap64 (a * b).
Definition quot64 (a b : Z) : Z := wrap64 (a ÷ b).

(** [float64] values are IEEE 754 binary64 numbers, taken from the Standard
    Library's specification of them. *)
Module float64.
Definition t := SpecFloat.spec_float.

(** The conversion [float64(n)] of an integer: the nearest binary64 number,
    ties to even. *)
Definition ofInt (n : Z) : t := SpecFloat.binary_normalize 53 1024 n 0 false.

(** [x / y] *)
Definition div (x y : t) : t := SpecFloat.SFdiv 53 1024 x y.

(** The integer nearest to [num / den], for [den > 0], ties to even. *)
Definition roundHalfEven (num den : Z) : Z :=
  let q := num / den in
  let r := num mod den in
  if (den <? 2 * r) || ((2 * r =? den) && Z.odd q) then q + 1 else q.

(** The number of tenths in the decimal with one digit after the point that
    is nearest to [m * 2 ^ e]. *)
Definition tenths (m : positive) (e : Z) : Z :=
  if 0 <=? e then 10 * Z.pos m * 2 ^ e
  else roundHalfEven (10 * Z.pos m) (2 ^ (- e)).

(** The verb [%.1f]: the exact value of the number, rounded to one digit
    after the point. *)
Definition fmtFixed1 (x : t) : string :=
  match x with
  | SpecFloat.S754_zero s => (if s then "-" else EmptyString) +:+ "0.0"
  | SpecFloat.S754_infinity s => if s then "-Inf" else "+Inf"
  | SpecFloat.S754_nan => "NaN"
  | SpecFloat.S754_finite s m e =>
      let n := tenths m e in
      (if s then "-" else EmptyString) +:+ pretty (n / 10) +:+ "." +:+ pretty (n mod 10)
  end.
End float64.

(** ** [strings.HasSuffix], [strings.TrimSuffix] *)

Definition HasSuffix (s suffix : string) : bool :=
  bool_decide (String.length suffix ≤ String.length s)%nat &&
  String.eqb (String.substring (String.length s - String.length suffix)
                (String.length suffix) s) suffix.

Definition TrimSuffix (s suffix : string) : string :=
  if HasSuffix s suffix
  then String.substring 0 (String.length s - String.length suffix) s
  else s.

(** ** [internal/pkg/encryption]: the encryptor *)

Module encryption.

Definition bytes := list Byte.byte.

(** [encryption.Config] *)
Record Config := mkConfig {
  Enabled : bool;
  Key : string
}.

(** [Encryptor]; [config] is the configuration its pointer refers to, which
    is never [nil] in an encryptor made by [NewEncryptor], and [key] is
    [nil] when encryption is disabled. *)
Record Encryptor := mkEncryptor {
  config : Config;
  key : bytes
}.

(** The errors of the package, each built with [fmt.Errorf] from its
    cause. *)
Inductive error :=
| ErrorDecodingEncryptionKey (cause : string)
| InvalidKeyLength (got : Z)
| ErrorReadingFile (cause : string)
| ErrorGeneratingNonce (cause : string)
| ErrorCreatingCipher (cause : string)
| ErrorCreatingGCM (cause : string)
| ErrorWritingEncryptedFile (cause : string)
| ErrorReadingEncryptedFile (cause : string)
| CiphertextTooShort
| ErrorDecryptingData (cause : string)
| ErrorWritingDecryptedFile (cause : string).

(** What the package takes from outside the repository. *)
Record System := mkSystem {
  (** [base64.StdEncoding.DecodeString] *)
  DecodeString : string → string + bytes;
  (** whether [os.ReadFile] fails on a file that exists *)
  readFails : string → option string;
  (** whether [os.WriteFile] fails, and what is on disk after the failure;
      the files on disk are a map from paths to contents *)
  writeFails : gmap string bytes → string → bytes → option (string * gmap string bytes);
  (** [io.ReadFull(rand.Reader, buf)] for a buffer of the given length *)
  randRead : nat → string + bytes;
  (** AES-GCM under a key: what [Seal] appends to [dst] for a nonce and a
      plaintext with no additional data, and what [Open] returns *)
  gcmSeal : bytes → bytes → bytes → bytes;
  gcmOpen : bytes → bytes → bytes → string + bytes
}.

(** The contracts: [io.ReadFull] fills the buffer when it returns no error,
    and [Open] gives back what [Seal] sealed under the same key and
    nonce. *)
Record SystemOK (sys : System) : Prop := mkSystemOK {
  randRead_length : ∀ n buf, randRead sys n = inr buf → length buf = n;
  gcmOpen_gcmSeal : ∀ key nonce plaintext,
    gcmOpen sys key nonce (gcmSeal sys key nonce plaintext) = inr plaintext
}.

(** [os.ReadFile] *)
Definition ReadFile (sys : System) (fs : gmap string bytes) (name : string) : string + bytes :=
  match fs !! name with
  | None => inl "no such file or directory"
  | Some data =>
      match readFails sys name with
      | Some err => inl err
      | None => inr data
      end
  end.

(** [os.WriteFile] *)
Definition WriteFile (sys : System) (fs : gmap string bytes) (name : string) (data : bytes)
  : option string * gmap string bytes :=
  match writeFails sys fs name data with
  | Some (err, fs') => (Some err, fs')
  | None => (None, <[name := data]> fs)
  end.

(** [aes.NewCipher]: the key sizes of AES-128, AES-192 and AES-256. The
    block is represented by its key. *)
Definition NewCipher (key : bytes) : string + bytes :=
  if bool_decide (length key = 16 ∨ length key = 24 ∨ length key = 32)%nat
  then inr key
  else inl "crypto/aes: invalid key size".

(** [cipher.NewGCM]: it asks for a block size of 16 bytes, which every AES
    block has. *)
Definition NewGCM (block : bytes) : string + bytes := inr block.

(** [NewEncryptor]. Its argument is a pointer: [None] is [nil], which is
    what [Config.Encryption] holds when nothing has set it. The first
    statement reads [config.Enabled], so on [nil] the call panics; the
    result [None] stands for that panic. *)
Definition NewEncryptor (sys : System) (config : option Config) : option (error + Encryptor) :=
  match config with
  | None => None
  | Some config =>
      Some (if negb (Enabled config) then inr (mkEncryptor config [])
            else
              match DecodeString sys (Key config) with
              | inl err => inl (ErrorDecodingEncryptionKey err)
              | inr key =>
                  if bool_decide (len key ≠ 32) then inl (InvalidKeyLength (len key))
                  else inr (mkEncryptor config key)
              end)
  end.

(** [EncryptFile]: the path returned or the error, and the files on disk
    afterwards. *)
Definition EncryptFile (sys : System) (e : Encryptor) (inputPath : string) (fs : gmap string bytes)
  : (error + string) * gmap string bytes :=
  if negb (Enabled (config e)) then (inr inputPath, fs)
  else
    match ReadFile sys fs inputPath with
    | inl err => (inl (ErrorReadingFile err), fs)
    | inr plaintext =>
        match randRead sys 12 with
        | inl err => (inl (ErrorGeneratingNonce err), fs)
        | inr nonce =>
            match NewCipher (key e) with
            | inl err => (inl (ErrorCreatingCipher err), fs)
            | inr block =>
                match NewGCM block with
                | inl err => (inl (ErrorCreatingGCM err), fs)
                | inr aesGCM =>
                    let ciphertext := nonce ++ gcmSeal sys aesGCM nonce plaintext in
                    let outputPath := inputPath +:+ ".enc" in
                    match WriteFile sys fs outputPath ciphertext with
                    | (Some err, fs') => (inl (ErrorWritingEncryptedFile err), fs')
                    | (None, fs') => (inr outputPath, fs')
                    end
                end
            end
        end
    end.

(** [DecryptFile] *)
Definition DecryptFile (sys : System) (e : Encryptor) (inputPath : string) (fs : gmap string bytes)
  : (error + string) * gmap string bytes :=
  if negb (Enabled (config e)) then (inr inputPath, fs)
  else
    match ReadFile sys fs inputPath with
    | inl err => (inl (ErrorReadingEncryptedFile err), fs)
    | inr ciphertext =>
        if len ciphertext <? 12 then (inl CiphertextTooShort, fs)
        else
          let nonce := take 12 ciphertext in
          let ciphertext := drop 12 ciphertext in
          match NewCipher (key e) with
          | inl err => (inl (ErrorCreatingCipher err), fs)
          | inr block =>
              match NewGCM block with
              | inl err => (inl (ErrorCreatingGCM err), fs)
              | inr aesGCM =>
                  match gcmOpen sys aesGCM nonce ciphertext with
                  | inl err => (inl (ErrorDecryptingData err), fs)
                  | inr plaintext =>
                      let outputPath := TrimSuffix inputPath ".enc" in
                      match WriteFile sys fs outputPath plaintext with
                      | (Some err, fs') => (inl (ErrorWritingDecryptedFile err), fs')
                      | (None, fs') => (inr outputPath, fs')
                      end
                  end
              end
          end
    end.

End encryption.

(** A system to run the encryptor on examples: a key decoder that reads
    every character as one byte, a disk that never fails, a nonce of twelve
    zero bytes, and a stand-in for AES-GCM that reverses the plaintext and
    appends a tag of sixteen zero bytes. *)
Definition plainSystem : encryption.System :=
  encryption.mkSystem
    (λ s, inr (String.list_byte_of_string s))
    (λ _, None) (λ _ _ _, None)
    (λ n, inr (replicate n Byte.x00))
    (λ _ _ plaintext, reverse plaintext ++ replicate 16 Byte.x00)
    (λ _ _ sealed, inr (reverse (take (length sealed - 16) sealed))).

(** ** [internal/config/load.go]: the names of environment variables

    [Load] reads the environment through [env.Provider("BACKUP_", ".", f)],
    where [f] turns the name of a variable into the path of a
    configuration key, its segments separated by the delimiter ["."]. *)

(** [strings.HasPrefix], [strings.TrimPrefix] *)
Definition HasPrefix (s prefix : string) : bool := String.prefix prefix s.

Definition TrimPrefix (s prefix : string) : string :=
  if HasPrefix s prefix
  then String.substring (String.length prefix) (String.length s - String.length prefix) s
  else s.

(** [strings.ToLower] and [strings.ToUpper] on strings of ASCII characters,
    where they change the letters [A] to [Z], or [a] to [z], and nothing
    else. *)
Definition lowerByte (c : Ascii.ascii) : Ascii.ascii :=
  let n := Ascii.nat_of_ascii c in
  if bool_decide (65 ≤ n ≤ 90)%nat then Ascii.ascii_of_nat (n + 32) else c.

Definition upperByte (c : Ascii.ascii) : Ascii.ascii :=
  let n := Ascii.nat_of_ascii c in
  if bool_decide (97 ≤ n ≤ 122)%nat then Ascii.ascii_of_nat (n - 32) else c.

Fixpoint mapBytes (f : Ascii.ascii → Ascii.ascii) (s : string) : string :=
  match s with
  | EmptyString => EmptyString
  | String c r => String (f c) (mapBytes f r)
  end.

Definition ToLower (s : string) : string := mapBytes lowerByte s.
Definition ToUpper (s : string) : string := mapBytes upperByte s.

(** [strings.ReplaceAll(s, old, new)] for an [old] that is not empty: the
    occurrences of [old] that do not overlap, from the left, are replaced by
    [new]. [skip] counts the bytes still to pass of an occurrence that has
    been replaced. *)
Fixpoint replaceFrom (skip : nat) (old new s : string) : string :=
  match s with
  | EmptyString => EmptyString
  | String c r =>
      match skip with
      | S k => replaceFrom k old new r
      | O =>
          if String.prefix old s
          then new +:+ replaceFrom (String.length old - 1) old new r
          else String c (replaceFrom 0 old new r)
      end
  end.

Definition ReplaceAll (s old new : string) : string := replaceFrom 0 old new s.

(** The function given to [env.Provider]. *)
Definition envKey (s : string) : string :=
  ReplaceAll (ToLower (TrimPrefix s "BACKUP_")) "_" ".".

(** The bytes of a string. *)
Definition bytesOf (s : string) : list Ascii.ascii := String.list_ascii_of_string s.

Definition underscore : Ascii.ascii := Ascii.ascii_of_nat 95.
Definition dot : Ascii.ascii := Ascii.ascii_of_nat 46.

(** The paths of the configuration keys whose [koanf] tags hold an
    underscore. *)
Definition underscoredKeys : list string :=
  [ "log_level"; "db_configs";
    "s3.access_key"; "s3.secret_key";
    "deletion_rules.enabled"; "deletion_rules.max_age_days"; "deletion_rules.max_count" ].

(** A byte of a path made of lower-case letters, digits and dots. *)
Definition plainByte (c : Ascii.ascii) : Prop :=
  let n := Ascii.nat_of_ascii c in
  (97 ≤ n ≤ 122 ∨ 48 ≤ n ≤ 57 ∨ n = 46)%nat.

(** The variable that stands for a path: [BACKUP_] and the path in upper
    case, with an underscore for every dot. *)
Definition envName (path : string) : string :=
  "BACKUP_" +:+ ToUpper (ReplaceAll path "." "_").

(** ** [internal/adapter/s3]: configuration and uploads *)

Module s3.

(** [s3.Config] *)
Record Config := mkConfig {
  AccessKey : string;
  SecretKey : string;
  Endpoint : string;
  Region : string;
  Bucket : string
}.

(** [UploadRequest]; the content is what the reader yields. *)
Record UploadRequest := mkUploadRequest {
  FolderName : string;
  FileName : string;
  Content : list Byte.byte
}.

(** [fmt.Errorf("error uploading %s: %v", req.FileName, err)] *)
Inductive error :=
| ErrorUploading (fileName : string) (cause : string).

(** The uploader of the S3 manager: whether the upload of a key fails on
    the bucket as it is, and the location it reports for a key. The bucket
    is a map from keys to contents, and an upload replaces what the key
    held. *)
Record Uploader := mkUploader {
  uploadFails : gmap string (list Byte.byte) → string → option string;
  Location : string → string
}.

(** [fmt.Sprintf("%s/%s", req.FolderName, req.FileName)] *)
Definition objectKey (req : UploadRequest) : string :=
  FolderName req +:+ "/" +:+ FileName req.

(** [uploadFile] *)
Definition uploadFile (u : Uploader) (bucket : gmap string (list Byte.byte))
    (content : list Byte.byte) (key : string)
  : gmap string (list Byte.byte) * option string :=
  match uploadFails u bucket key with
  | Some err => (bucket, Some err)
  | None => (<[key := content]> bucket, None)
  end.

(** [Upload] *)
Definition Upload (u : Uploader) (bucket : gmap string (list Byte.byte))
    (req : UploadRequest) : gmap string (list Byte.byte) * (error + string) :=
  let key := objectKey req in
  match uploadFails u bucket key with
  | Some err => (bucket, inl (ErrorUploading (FileName req) err))
  | None => (<[key := Content req]> bucket, inr (Location u key))
  end.

(** [UploadMultiple] *)
Fixpoint UploadMultiple (u : Uploader) (bucket : gmap string (list Byte.byte))
    (requests : list UploadRequest) : gmap string (list Byte.byte) * option error :=
  match requests with
  | [] => (bucket, None)
  | req :: rest =>
      let key := objectKey req in
      match uploadFile u bucket (Content req) key with
      | (bucket', Some err) => (bucket', Some (ErrorUploading (FileName req) err))
      | (bucket', None) => UploadMultiple u bucket' rest
      end
  end.

(** The bucket after the uploads of [requests], in that order. *)
Definition uploaded (bucket : gmap string (list Byte.byte)) (requests : list UploadRequest)
  : gmap string (list Byte.byte) :=
  foldl (λ b req, <[objectKey req := Content req]> b) bucket requests.

End s3.

(** ** The part of [config.Config] that the [delete] command reads *)

Module config.
Record Config := mkConfig {
  LogLevel : string;
  S3 : s3.Config;
  DeletionRules : DeletionRules
}.
End config.





(** [sort.Strings]: ascending in the order [<] of Go strings, which compares
    byte by byte. *)
Definition stringLe (a b : string) : Prop := String.leb a b = true.

Global Instance stringLe_dec a b : Decision (stringLe a b) :=
  bool_eq_dec (String.leb a b) true.

Definition sortStrings (l : list string) : list string := merge_sort stringLe l.

(** [strings.Repeat(s, count)] for a count that is not negative. *)
Definition Repeat (s : string) (count : Z) : string :=
  String.concat EmptyString (replicate (Z.to_nat count) s).

(** ** [cmd/delete.go]: [formatBytes] and the [delete] command *)

Module cmd.

Definition unit : Z := 1024.

(** [for n := bytes / unit; n >= unit; n /= unit { div *= unit; exp++ }],
    entered with the given [n], [div] and [exp]: the values of [div] and
    [exp] when the loop is left, and [None] when it has not been left after
    [fuel] tests of its condition. *)
Fixpoint unitLoop (fuel : nat) (n div exp : Z) : option (Z * Z) :=
  match fuel with
  | O => None
  | S fuel' =>
      if unit <=? n
      then unitLoop fuel' (quot64 n unit) (mul64 div unit) (add64 exp 1)
      else Some (div, exp)
  end.

(** ["KMGTPE"[exp]]; [None] stands for the panic of an index out of range. *)
Definition unitLetter (exp : Z) : option Ascii.ascii :=
  if exp <? 0 then None else String.get (Z.to_nat exp) "KMGTPE".

(** [formatBytes]; [None] when the function does not return a string. *)
Definition formatBytes (bytes : Z) : option string :=
  if bytes <? unit then Some (pretty bytes +:+ " B")
  else
    match unitLoop 64 (quot64 bytes unit) unit 0 with
    | None => None
    | Some (div, exp) =>
        match unitLetter exp with
        | None => None
        | Some c =>
            Some (float64.fmtFixed1 (float64.div (float64.ofInt bytes) (float64.ofInt div))
                  +:+ " " +:+ String c "B")
        end
    end.



(** What [ExecuteDelete] takes from outside the repository. *)
Record Process := mkProcess {
  (** [config.Load]: an error, or the configuration read *)
  Load : string → string + config.Config;
  (** [logger.Init] *)
  loggerInit : string → option string;
  (** [s3.New] *)
  s3New : s3.Config → option string;
  (** [t.Format(time.RFC3339)] *)
  formatRFC3339 : Time.t → string;
  (** the order in which [range stats.DatabaseStats] yields the names *)
  rangeStats : gmap string DatabaseStats.t → list string
}.

Record ProcessOK (p : Process) : Prop := mkProcessOK {
  rangeStats_perm : ∀ m, rangeStats p m ≡ₚ (map_to_list m).*1
}.

(** The line feed. *)
Definition nl : string := String (Ascii.ascii_of_nat 10) EmptyString.


(** [fmt.Printf("... Size: %s\n", formatBytes(size))] *)
Definition sizeLine (label : string) (size : Z) : option string :=
  match formatBytes size with
  | Some s => Some (label +:+ s +:+ nl)
  | None => None
  end.

(** The two lines that are printed when [oldest] is not the zero time. *)
Definition retainedLines (p : Process) (oldest newest : Time.t) : list (option string) :=
  if Time.IsZero oldest then []
  else [ Some ("Oldest Retained: " +:+ formatRFC3339 p oldest +:+ nl);
         Some ("Newest Retained: " +:+ formatRFC3339 p newest +:+ nl) ].

(** One round of the loop over [dbNames]; [dbStats] is a [nil] pointer when
    the map has no entry for the name. *)
Definition databaseBlock (p : Process) (stats : DeleteStats.t) (dbName : string)
  : list (option string) :=
  Some (nl +:+ "Database: " +:+ dbName +:+ nl) ::
  Some (Repeat "-" (Z.of_nat (String.length dbName) + 11) +:+ nl) ::
  match DeleteStats.DatabaseStats stats !! dbName with
  | None => [None]
  | Some dbStats =>
      [ Some ("Total Files: " +:+ pretty (DatabaseStats.TotalFiles dbStats) +:+ nl);
        Some ("Files to Delete: " +:+ pretty (DatabaseStats.DeletedFiles dbStats) +:+ nl);
        Some ("Files to Retain: " +:+ pretty (DatabaseStats.RetainedFiles dbStats) +:+ nl);
        sizeLine "Deleted Size: " (DatabaseStats.DeletedSize dbStats);
        sizeLine "Retained Size: " (DatabaseStats.RetainedSize dbStats) ]
      ++ retainedLines p (DatabaseStats.OldestRetained dbStats)
                         (DatabaseStats.NewestRetained dbStats)
  end.

(** [dbNames] after [sort.Strings]. *)
Definition dbNames (p : Process) (stats : DeleteStats.t) : list string :=
  sortStrings (rangeStats p (DeleteStats.DatabaseStats stats)).

(** "Print summary to console", for the statistics [Execute] returned. *)
Definition summary (p : Process) (stats : DeleteStats.t) (dryRun : bool)
  : list (option string) :=
  [ Some (nl +:+ "Overall Deletion Summary:" +:+ nl);
    Some ("------------------------" +:+ nl);
    Some ("Total Files: " +:+ pretty (DeleteStats.TotalFiles stats) +:+ nl);
    Some ("Files to Delete: " +:+ pretty (DeleteStats.DeletedFiles stats) +:+ nl);
    Some ("Files to Retain: " +:+ pretty (DeleteStats.RetainedFiles stats) +:+ nl);
    sizeLine "Deleted Size: " (DeleteStats.DeletedSize stats);
    sizeLine "Retained Size: " (DeleteStats.RetainedSize stats) ]
  ++ retainedLines p (DeleteStats.OldestRetained stats) (DeleteStats.NewestRetained stats)
  ++ (if 0 <? Z.of_nat (size (DeleteStats.DatabaseStats stats))
      then [ Some (nl +:+ "Per-Database Statistics:" +:+ nl);
             Some ("----------------------" +:+ nl) ]
           ++ (dbNames p stats ≫= databaseBlock p stats)
      else [])
  ++ (if dryRun
      then [ Some (nl +:+ "Note: This was a dry run - no files were actually deleted" +:+ nl) ]
      else []).



End cmd.

(** ** [internal/backup]: the loop over the databases *)

Module backup.

(** [backup.Config]; the field [Type] is written [Type_]. *)
Record Config := mkConfig {
  Name : string;
  Type_ : string;
  Host : string;
  Port : Z;
  User : string;
  Password : string;
  Directory : string;
  Container : string
}.


(** The errors [Backup] returns. *)
Inductive error :=
| ErrorBackingUp (name : string) (cause : string)
| ErrorResolvingDirectoryPath (cause : string)
| ErrorEncryptingBackupFile (cause : encryption.error).





End backup.



(** ** The first version of the command: one retention policy for the whole bucket

    [internal/command/delete.go] holds two versions of [DeleteCommand]. The
    first one, embedded here, does not group the files by folder and keeps
    its two sets in slices. *)

Module V1.

Module DeleteStats.
Record t := mk {
  TotalFiles : Z;
  DeletedFiles : Z;
  RetainedFiles : Z;
  DeletedSize : Z;
  RetainedSize : Z;
  OldestRetained : Time.t;
  NewestRetained : Time.t
}.

(** [&DeleteStats{}] *)
Definition empty : t := mk 0 0 0 0 0 Time.zero Time.zero.
End DeleteStats.

(** "Apply count-based rule": [filesToDelete] and [filesToRetain] after it.
    [filesToRetain] shares its array with [listResp.Files], which is not
    read again, and [filesToDelete] is a copy. *)
Definition countRule (maxCount : Z) (files : list FileInfo)
  : list FileInfo * list FileInfo :=
  if 0 <? maxCount
  then if maxCount <? len files
       then (drop (Z.to_nat maxCount) files, take (Z.to_nat maxCount) files)
       else ([], files)
  else ([], []).

(** The loop over [filesToCheck] that fills [timeBasedDelete] and
    [timeBasedRetain]. *)
Fixpoint timeLoop (cutoffTime : Time.t) (filesToCheck : list FileInfo)
    (timeBasedDelete timeBasedRetain : list FileInfo) : list FileInfo * list FileInfo :=
  match filesToCheck with
  | [] => (timeBasedDelete, timeBasedRetain)
  | file :: rest =>
      if Time.Before (CreatedAt file) cutoffTime
      then timeLoop cutoffTime rest (timeBasedDelete ++ [file]) timeBasedRetain
      else timeLoop cutoffTime rest timeBasedDelete (timeBasedRetain ++ [file])
  end.

(** [timeBasedDeleteMap] *)
Definition deleteMap (timeBasedDelete : list FileInfo) : gmap string bool :=
  foldl (λ m f, <[Key f := true]> m) ∅ timeBasedDelete.

(** "Intersect the count-based and time-based rules": the loop over
    [filesToDelete] that fills [newFilesToDelete] and appends to
    [filesToRetain]. A key that is not in the map reads as [false]. *)
Fixpoint intersectLoop (timeBasedDeleteMap : gmap string bool) (filesToDelete : list FileInfo)
    (newFilesToDelete filesToRetain : list FileInfo) : list FileInfo * list FileInfo :=
  match filesToDelete with
  | [] => (newFilesToDelete, filesToRetain)
  | f :: rest =>
      if default false (timeBasedDeleteMap !! Key f)
      then intersectLoop timeBasedDeleteMap rest (newFilesToDelete ++ [f]) filesToRetain
      else intersectLoop timeBasedDeleteMap rest newFilesToDelete (filesToRetain ++ [f])
  end.

(** "Apply time-based rule", from the two slices the count rule left. *)
Definition timeRule (maxAgeDays : Z) (w : World) (now : Time.t) (files : list FileInfo)
    (sets : list FileInfo * list FileInfo) : list FileInfo * list FileInfo :=
  let '(filesToDelete, filesToRetain) := sets in
  if 0 <? maxAgeDays
  then
    let cutoffTime := AddDate w now (- maxAgeDays) in
    let filesToCheck := if len filesToDelete =? 0 then files else filesToDelete in
    let '(timeBasedDelete, timeBasedRetain) := timeLoop cutoffTime filesToCheck [] [] in
    if len filesToDelete =? 0
    then (timeBasedDelete, timeBasedRetain)
    else intersectLoop (deleteMap timeBasedDelete) filesToDelete [] filesToRetain
  else (filesToDelete, filesToRetain).

(** [filesToDelete] and [filesToRetain] for the files sorted newest first;
    [now] is the reading of [time.Now()]. *)
Definition selectFiles (rules : DeletionRules) (w : World) (now : Time.t)
    (files : list FileInfo) : list FileInfo * list FileInfo :=
  timeRule (MaxAgeDays rules) w now files (countRule (MaxCount rules) files).

(** "Calculate statistics" *)
Definition statistics (total : Z) (filesToDelete filesToRetain : list FileInfo)
  : DeleteStats.t :=
  DeleteStats.mk total (len filesToDelete) (len filesToRetain)
    (sumSizes filesToDelete) (sumSizes filesToRetain)
    (match last filesToRetain with Some f => CreatedAt f | None => Time.zero end)
    (match head filesToRetain with Some f => CreatedAt f | None => Time.zero end).

(** [Execute] of the first version. *)
Definition Execute (rules : DeletionRules) (dryRun : bool) (w : World) (now : Time.t)
    (b : Bucket) : option DeleteStats.t * option error * Bucket :=
  let stats := DeleteStats.empty in
  if negb (Enabled rules) then (Some stats, None, b)
  else
    match S3_List w b with
    | inl err => (None, Some (FailedToListFiles err), b)
    | inr files =>
        if len files =? 0 then (Some stats, None, b)
        else
          let sorted := sortNewestFirst w files in
          let '(filesToDelete, filesToRetain) := selectFiles rules w now sorted in
          let stats := statistics (len files) filesToDelete filesToRetain in
          if dryRun then (Some stats, None, b)
          else
            match deleteFiles w b filesToDelete with
            | (b', Some err) => (Some stats, Some err, b')
            | (b', None) => (Some stats, None, b')
            end
    end.

End V1.

(** A process to run the command line on examples: a configuration that is
    always read, with the given deletion rules; a logger and an S3 client
    that are always made; instants printed as their count of nanoseconds;
    and the map of the statistics visited in the order of [map_to_list], or
    in the reverse of it. *)
Definition plainProcess (rules : DeletionRules) (reversed : bool) : cmd.Process :=
  cmd.mkProcess
    (λ _, inr (config.mkConfig "info"
                 (s3.mkConfig "key" "secret" "endpoint" "region" "bucket") rules))
    (λ _, None) (λ _, None) (λ t, pretty t)
    (λ m, if reversed then reverse (map_to_list m).*1 else (map_to_list m).*1).

(** An encryptor with a key of 32 bytes, and a disk with one dump. *)
Definition plainEncryptor : encryption.Encryptor :=
  encryption.mkEncryptor (encryption.mkConfig true "c2VjcmV0") (replicate 32 Byte.x2a).

Definition dumpBytes : list Byte.byte := [Byte.x53; Byte.x51; Byte.x4c].

Definition oneDump : gmap string (list Byte.byte) := {[ "db/dump.sql" := dumpBytes ]}.

(** An uploader that fails on the keys of a list. *)
Definition plainUploader (failing : list string) : s3.Uploader :=
  s3.mkUploader
    (λ _ key, if bool_decide (key ∈ failing) then Some "access denied" else None)
    (λ key, "https://bucket/" +:+ key).

Definition threeRequests : list s3.UploadRequest :=
  [ s3.mkUploadRequest "db" "a.sql" dumpBytes;
    s3.mkUploadRequest "pg" "b.sql" dumpBytes;
    s3.mkUploadRequest "db" "c.sql" dumpBytes ].




(** * Proofs *)

(** ** 64-bit arithmetic *)

Lemma wrap64_small z : - 2 ^ 63 ≤ z < 2 ^ 63 → wrap64 z = z.
Proof. intros H. unfold wrap64. rewrite Z.mod_small; lia. Qed.

Lemma wrap64_idemp_l a b : wrap64 (wrap64 a + b) = wrap64 (a + b).
Proof.
  unfold wrap64. f_equal.
  replace ((a + 2 ^ 63) mod 2 ^ 64 - 2 ^ 63 + b + 2 ^ 63)
    with ((a + 2 ^ 63) mod 2 ^ 64 + b) by ring.
  rewrite Zplus_mod_idemp_l. f_equal. ring.
Qed.

Lemma wrap64_idemp_r a b : wrap64 (a + wrap64 b) = wrap64 (a + b).
Proof. rewrite (Z.add_comm a), wrap64_idemp_l. f_equal. lia. Qed.

Lemma wrap64_0 : wrap64 0 = 0.
Proof. reflexivity. Qed.

Lemma wrap64_wrap64 a : wrap64 (wrap64 a) = wrap64 a.
Proof. pose proof (wrap64_idemp_l a 0) as H. by rewrite !Z.add_0_r in H. Qed.

Lemma sumSizes_from acc l :
  foldl (λ a file, add64 a (Size file)) (wrap64 acc) l = wrap64 (acc + totalSize l).
Proof.
  revert acc. induction l as [|f l IH]; intros acc; simpl.
  - f_equal. lia.
  - unfold add64 at 2. rewrite wrap64_idemp_l, IH. f_equal. lia.
Qed.

Lemma sumSizes_total l : sumSizes l = wrap64 (totalSize l).
Proof. unfold sumSizes. rewrite <- wrap64_0 at 1. by rewrite sumSizes_from. Qed.

Lemma totalSize_perm l1 l2 : l1 ≡ₚ l2 → totalSize l1 = totalSize l2.
Proof. induction 1; simpl; lia. Qed.

Lemma sumSizes_perm l1 l2 : l1 ≡ₚ l2 → sumSizes l1 = sumSizes l2.
Proof. intros H. by rewrite !sumSizes_total, (totalSize_perm _ _ H). Qed.

Lemma len_perm {A} (l1 l2 : list A) : l1 ≡ₚ l2 → len l1 = len l2.
Proof. intros H. unfold len. by rewrite H. Qed.

(** ** Sets of files *)

Lemma keys_nodup_fmap l : NoDup (keys l) → NoDup ((λ f, (Key f, f)) <$> l).*1.
Proof. intros H. by rewrite <- list_fmap_compose. Qed.

Lemma toMap_lookup_in l f : NoDup (keys l) → f ∈ l → toMap l !! Key f = Some f.
Proof.
  intros Hnd Hin. apply elem_of_list_to_map_1; [by apply keys_nodup_fmap|].
  apply list_elem_of_fmap. by exists f.
Qed.

Lemma toMap_lookup_notin l k : k ∉ keys l → toMap l !! k = None.
Proof.
  intros Hk. apply not_elem_of_list_to_map_1. by rewrite <- list_fmap_compose.
Qed.

Lemma toMap_lookup_Some l k f : toMap l !! k = Some f → f ∈ l ∧ Key f = k.
Proof.
  intros H. apply elem_of_list_to_map_2 in H.
  apply list_elem_of_fmap in H as (f' & Heq & Hin). by simplify_eq.
Qed.

Lemma filesOf_toMap l : NoDup (keys l) → filesOf (toMap l) ≡ₚ l.
Proof.
  intros Hnd. unfold filesOf, toMap.
  rewrite map_to_list_to_map by by apply keys_nodup_fmap.
  rewrite <- list_fmap_compose. by rewrite list_fmap_id.
Qed.

Lemma filesOf_empty : filesOf ∅ = [].
Proof. unfold filesOf. by rewrite map_to_list_empty. Qed.

Lemma elem_of_filesOf m f : f ∈ filesOf m ↔ ∃ k, m !! k = Some f.
Proof.
  unfold filesOf. rewrite list_elem_of_fmap. split.
  - intros ([k f'] & -> & H). exists k. by apply elem_of_map_to_list in H.
  - intros (k & H). exists (k, f). split; [done|]. by apply elem_of_map_to_list.
Qed.

Lemma keys_perm l1 l2 : l1 ≡ₚ l2 → keys l1 ≡ₚ keys l2.
Proof. intros H. unfold keys. by rewrite H. Qed.

Lemma keys_elem k l : k ∈ keys l ↔ ∃ f, f ∈ l ∧ Key f = k.
Proof.
  unfold keys. rewrite list_elem_of_fmap.
  split; intros (f & H1 & H2); exists f; by split.
Qed.

Lemma marks_eq m d r :
  filesToDelete m = d → filesToRetain m = r → m = mkMarks d r.
Proof. destruct m; simpl; congruence. Qed.

(** ** The marking loops *)

Lemma ageLoop_other c fs m k :
  k ∉ keys fs →
  filesToDelete (ageLoop c fs m) !! k = filesToDelete m !! k ∧
  filesToRetain (ageLoop c fs m) !! k = filesToRetain m !! k.
Proof.
  revert m. induction fs as [|f fs IH]; intros m Hk; simpl; [done|].
  apply not_elem_of_cons in Hk as [Hne Hk].
  destruct (Time.Before _ _);
    match goal with |- context [ageLoop c fs ?m'] =>
      destruct (IH m' Hk) as [-> ->] end;
    simpl; by rewrite ?lookup_insert_ne.
Qed.

Lemma ageLoop_in c fs m f :
  NoDup (keys fs) → f ∈ fs →
  filesToDelete (ageLoop c fs m) !! Key f
    = (if Time.Before (CreatedAt f) c then Some f else filesToDelete m !! Key f) ∧
  filesToRetain (ageLoop c fs m) !! Key f
    = (if Time.Before (CreatedAt f) c then filesToRetain m !! Key f else Some f).
Proof.
  revert m. induction fs as [|g fs IH]; intros m Hnd Hin; [by apply elem_of_nil in Hin|].
  apply NoDup_cons in Hnd as [Hg Hnd]. simpl.
  apply elem_of_cons in Hin as [->|Hin].
  - destruct (Time.Before (CreatedAt g) c);
      match goal with |- context [ageLoop c fs ?m'] =>
        destruct (ageLoop_other c fs m' (Key g) Hg) as [-> ->] end;
      simpl; by rewrite lookup_insert_eq.
  - assert (Key g ≠ Key f) as Hne.
    { intros Heq. apply Hg. rewrite Heq. apply keys_elem. eauto. }
    destruct (Time.Before (CreatedAt g) c);
      match goal with |- context [ageLoop c fs ?m'] =>
        destruct (IH m' Hnd Hin) as [-> ->] end;
      simpl; by rewrite ?lookup_insert_ne.
Qed.

Lemma countLoop_other n i fs m k :
  k ∉ keys fs →
  filesToDelete (countLoop n i fs m) !! k = filesToDelete m !! k ∧
  filesToRetain (countLoop n i fs m) !! k = filesToRetain m !! k.
Proof.
  revert i m. induction fs as [|f fs IH]; intros i m Hk; simpl; [done|].
  apply not_elem_of_cons in Hk as [Hne Hk].
  destruct (n <=? i);
    match goal with |- context [countLoop n _ fs ?m'] =>
      destruct (IH (i + 1) m' Hk) as [-> ->] end;
    simpl; by rewrite ?lookup_insert_ne, ?lookup_delete_ne.
Qed.

Lemma countLoop_at n i fs m (j : nat) f :
  NoDup (keys fs) → fs !! j = Some f →
  filesToDelete (countLoop n i fs m) !! Key f
    = (if n <=? i + Z.of_nat j then Some f else None) ∧
  filesToRetain (countLoop n i fs m) !! Key f
    = (if n <=? i + Z.of_nat j then None else Some f).
Proof.
  revert i m j. induction fs as [|g fs IH]; intros i m j Hnd Hj; [done|].
  apply NoDup_cons in Hnd as [Hg Hnd]. simpl.
  destruct j as [|j]; simpl in Hj.
  - injection Hj as ->. rewrite Z.add_0_r.
    destruct (n <=? i);
      match goal with |- context [countLoop n _ fs ?m'] =>
        destruct (countLoop_other n (i + 1) fs m' (Key f) Hg) as [-> ->] end;
      simpl; by rewrite lookup_insert_eq, lookup_delete_eq.
  - assert (Key g ≠ Key f) as Hne.
    { intros Heq. apply Hg. rewrite Heq. apply keys_elem. exists f.
      split; [|done]. by eapply list_elem_of_lookup_2. }
    replace (i + Z.of_nat (S j)) with (i + 1 + Z.of_nat j) by lia.
    destruct (n <=? i);
      match goal with |- context [countLoop n _ fs ?m'] =>
        destruct (IH (i + 1) m' j Hnd Hj) as [-> ->] end; done.
Qed.

Lemma keepAllLoop_other fs m k :
  k ∉ keys fs →
  filesToDelete (keepAllLoop fs m) !! k = filesToDelete m !! k ∧
  filesToRetain (keepAllLoop fs m) !! k = filesToRetain m !! k.
Proof.
  revert m. induction fs as [|f fs IH]; intros m Hk; simpl; [done|].
  apply not_elem_of_cons in Hk as [Hne Hk].
  destruct (IH (mkMarks (delete (Key f) (filesToDelete m))
                        (<[Key f:=f]> (filesToRetain m))) Hk) as [-> ->]; simpl.
  by rewrite lookup_insert_ne, lookup_delete_ne.
Qed.

Lemma keepAllLoop_in fs m f :
  NoDup (keys fs) → f ∈ fs →
  filesToDelete (keepAllLoop fs m) !! Key f = None ∧
  filesToRetain (keepAllLoop fs m) !! Key f = Some f.
Proof.
  revert m. induction fs as [|g fs IH]; intros m Hnd Hin; [by apply elem_of_nil in Hin|].
  apply NoDup_cons in Hnd as [Hg Hnd]. simpl.
  apply elem_of_cons in Hin as [->|Hin]; [|by apply IH].
  destruct (keepAllLoop_other fs
    (mkMarks (delete (Key g) (filesToDelete m)) (<[Key g:=g]> (filesToRetain m)))
    (Key g) Hg) as [-> ->]; simpl.
  by rewrite lookup_insert_eq, lookup_delete_eq.
Qed.

(** ** The marks in closed form *)

Lemma toMap_eq (m : gmap string FileInfo) l :
  NoDup (keys l) →
  (∀ f, f ∈ l → m !! Key f = Some f) →
  (∀ k, k ∉ keys l → m !! k = None) →
  m = toMap l.
Proof.
  intros Hnd Hin Hout. apply map_eq. intros k.
  destruct (decide (k ∈ keys l)) as [Hk|Hk].
  - apply keys_elem in Hk as (f & Hf & <-).
    by rewrite Hin, toMap_lookup_in.
  - by rewrite Hout, toMap_lookup_notin.
Qed.

Lemma keys_inj l f g :
  NoDup (keys l) → f ∈ l → g ∈ l → Key f = Key g → f = g.
Proof.
  intros Hnd Hf Hg Heq.
  pose proof (toMap_lookup_in l f Hnd Hf) as H1.
  pose proof (toMap_lookup_in l g Hnd Hg) as H2.
  rewrite Heq in H1. congruence.
Qed.

Lemma keys_sublist l1 l2 : l1 `sublist_of` l2 → keys l1 `sublist_of` keys l2.
Proof. intros H. unfold keys. by apply fmap_sublist. Qed.

Lemma keys_nodup_sublist l1 l2 :
  l1 `sublist_of` l2 → NoDup (keys l2) → NoDup (keys l1).
Proof. intros Hs Hnd. eapply sublist_NoDup; [done|]. by apply keys_sublist. Qed.

(** Parts of a slice with distinct keys have distinct keys. *)
Create HintDb distinct_keys.

#[local] Hint Resolve sublist_filter sublist_take sublist_drop : distinct_keys.
#[local] Hint Extern 2 (NoDup (keys _)) =>
  (eapply keys_nodup_sublist; [|eassumption]) : distinct_keys.

Ltac distinct_keys := eauto 4 with distinct_keys.

Lemma ageLoop_closed c fs :
  NoDup (keys fs) →
  ageLoop c fs (mkMarks ∅ ∅) = mkMarks (toMap (olderThan c fs)) (toMap (notOlderThan c fs)).
Proof.
  intros Hnd. apply marks_eq; apply toMap_eq.
  - distinct_keys.
  - intros f [Hlt Hin]%list_elem_of_filter.
    rewrite (proj1 (ageLoop_in c fs _ f Hnd Hin)).
    unfold Time.Before. by rewrite bool_decide_eq_true_2.
  - intros k Hk. destruct (decide (k ∈ keys fs)) as [Hin|Hout].
    + apply keys_elem in Hin as (f & Hf & <-).
      rewrite (proj1 (ageLoop_in c fs _ f Hnd Hf)).
      unfold Time.Before. case_bool_decide as Hlt; [|done].
      exfalso. apply Hk, keys_elem. exists f. split; [|done].
      by apply list_elem_of_filter.
    + by rewrite (proj1 (ageLoop_other c fs _ k Hout)).
  - distinct_keys.
  - intros f [Hlt Hin]%list_elem_of_filter.
    rewrite (proj2 (ageLoop_in c fs _ f Hnd Hin)).
    unfold Time.Before. by rewrite bool_decide_eq_false_2.
  - intros k Hk. destruct (decide (k ∈ keys fs)) as [Hin|Hout].
    + apply keys_elem in Hin as (f & Hf & <-).
      rewrite (proj2 (ageLoop_in c fs _ f Hnd Hf)).
      unfold Time.Before. case_bool_decide as Hlt; [done|].
      exfalso. apply Hk, keys_elem. exists f. split; [|done].
      by apply list_elem_of_filter.
    + by rewrite (proj2 (ageLoop_other c fs _ k Hout)).
Qed.

Lemma withinKeys_empty fs : withinKeys (mkMarks ∅ ∅) fs.
Proof. intros k _. by split. Qed.

Lemma withinKeys_ageLoop c fs : withinKeys (ageLoop c fs (mkMarks ∅ ∅)) fs.
Proof. intros k Hk. by destruct (ageLoop_other c fs (mkMarks ∅ ∅) k Hk) as [-> ->]. Qed.

Lemma countLoop_closed n fs m :
  NoDup (keys fs) → withinKeys m fs → 0 ≤ n →
  countLoop n 0 fs m
    = mkMarks (toMap (drop (Z.to_nat n) fs)) (toMap (take (Z.to_nat n) fs)).
Proof.
  intros Hnd Hm Hn.
  assert (∀ k, k ∉ keys fs →
            filesToDelete (countLoop n 0 fs m) !! k = None ∧
            filesToRetain (countLoop n 0 fs m) !! k = None) as Hout.
  { intros k Hk. destruct (countLoop_other n 0 fs m k Hk) as [-> ->]. by apply Hm. }
  apply marks_eq; apply toMap_eq.
  - distinct_keys.
  - intros f (j & Hj)%list_elem_of_lookup_1. rewrite lookup_drop in Hj.
    rewrite (proj1 (countLoop_at n 0 fs m _ f Hnd Hj)).
    case_match eqn:Hle; [done|]. apply Z.leb_gt in Hle. lia.
  - intros k Hk. destruct (decide (k ∈ keys fs)) as [Hin|Hno]; [|by apply Hout].
    apply keys_elem in Hin as (f & Hf & <-).
    apply list_elem_of_lookup_1 in Hf as (j & Hj).
    rewrite (proj1 (countLoop_at n 0 fs m _ f Hnd Hj)).
    case_match eqn:Hle; [|done]. apply Z.leb_le in Hle.
    exfalso. apply Hk, keys_elem. exists f. split; [|done].
    apply list_elem_of_lookup. exists (j - Z.to_nat n)%nat.
    rewrite lookup_drop. rewrite <- Hj. f_equal. lia.
  - distinct_keys.
  - intros f (j & Hj & Hlt)%elem_of_take.
    rewrite (proj2 (countLoop_at n 0 fs m _ f Hnd Hj)).
    case_match eqn:Hle; [|done]. apply Z.leb_le in Hle. lia.
  - intros k Hk. destruct (decide (k ∈ keys fs)) as [Hin|Hno]; [|by apply Hout].
    apply keys_elem in Hin as (f & Hf & <-).
    apply list_elem_of_lookup_1 in Hf as (j & Hj).
    rewrite (proj2 (countLoop_at n 0 fs m _ f Hnd Hj)).
    case_match eqn:Hle; [done|]. apply Z.leb_gt in Hle.
    exfalso. apply Hk, keys_elem. exists f. split; [|done].
    apply elem_of_take. exists j. split; [done|lia].
Qed.

Lemma keepAllLoop_closed fs m :
  NoDup (keys fs) → withinKeys m fs →
  keepAllLoop fs m = mkMarks ∅ (toMap fs).
Proof.
  intros Hnd Hm.
  apply marks_eq.
  - apply map_eq. intros k. rewrite lookup_empty.
    destruct (decide (k ∈ keys fs)) as [Hin|Hno].
    + apply keys_elem in Hin as (f & Hf & <-).
      apply (keepAllLoop_in fs m f Hnd Hf).
    + destruct (keepAllLoop_other fs m k Hno) as [-> _]. by apply Hm.
  - apply toMap_eq; [done| |].
    + intros f Hf. apply (keepAllLoop_in fs m f Hnd Hf).
    + intros k Hno. destruct (keepAllLoop_other fs m k Hno) as [_ ->]. by apply Hm.
Qed.

(** The count rule decides alone as soon as it is enabled. *)
Lemma classify_count rules w now fs :
  NoDup (keys fs) → 0 < MaxCount rules →
  classify rules w now fs
    = mkMarks (toMap (drop (Z.to_nat (MaxCount rules)) fs))
              (toMap (take (Z.to_nat (MaxCount rules)) fs)).
Proof.
  intros Hnd Hn. unfold classify.
  assert ((0 <? MaxCount rules) = true) as -> by (by apply Z.ltb_lt).
  set (m1 := if 0 <? MaxAgeDays rules then _ else _).
  assert (withinKeys m1 fs) as Hm1.
  { subst m1. case_match; [apply withinKeys_ageLoop|apply withinKeys_empty]. }
  case_match eqn:Hlen.
  - apply countLoop_closed; [done..|lia].
  - apply Z.ltb_ge in Hlen. unfold len in Hlen.
    rewrite keepAllLoop_closed by done.
    rewrite take_ge, drop_ge by lia. done.
Qed.

Lemma classify_age rules w now fs :
  NoDup (keys fs) → 0 < MaxAgeDays rules → MaxCount rules ≤ 0 →
  classify rules w now fs
    = mkMarks (toMap (olderThan (AddDate w now (- MaxAgeDays rules)) fs))
              (toMap (notOlderThan (AddDate w now (- MaxAgeDays rules)) fs)).
Proof.
  intros Hnd Ha Hn. unfold classify.
  assert ((0 <? MaxAgeDays rules) = true) as -> by (by apply Z.ltb_lt).
  assert ((0 <? MaxCount rules) = false) as -> by (by apply Z.ltb_ge).
  by apply ageLoop_closed.
Qed.

Lemma classify_none rules w now fs :
  MaxAgeDays rules ≤ 0 → MaxCount rules ≤ 0 →
  classify rules w now fs = mkMarks ∅ ∅.
Proof.
  intros Ha Hn. unfold classify.
  assert ((0 <? MaxAgeDays rules) = false) as -> by (by apply Z.ltb_ge).
  assert ((0 <? MaxCount rules) = false) as -> by (by apply Z.ltb_ge).
  done.
Qed.

Lemma groupLoop_lookup w l m g :
  groupLoop w l m !! g =
    match inFolder w g l with
    | [] => m !! g
    | fs => Some (default [] (m !! g) ++ fs)
    end.
Proof.
  revert m. induction l as [|f l IH]; intros m; simpl; [done|].
  rewrite IH. unfold inFolder. rewrite filter_cons.
  destruct (decide (Dir w (Key f) = g)) as [->|Hne].
  - rewrite lookup_insert_eq. simpl.
    destruct (filter _ l); [done|]. by rewrite <- app_assoc.
  - by rewrite lookup_insert_ne.
Qed.

Lemma groupByFolder_lookup w l g fs :
  groupByFolder w l !! g = Some fs ↔ fs = inFolder w g l ∧ fs ≠ [].
Proof.
  unfold groupByFolder. rewrite groupLoop_lookup, lookup_empty.
  destruct (inFolder w g l) as [|f fs'] eqn:Heq; simpl.
  - split; [done|]. by intros [-> ?].
  - split; [by intros [= <-]|]. by intros [-> _].
Qed.

Lemma inFolder_sublist w g l : inFolder w g l `sublist_of` l.
Proof. apply sublist_filter. Qed.

Lemma elem_of_inFolder w g l f : f ∈ inFolder w g l ↔ f ∈ l ∧ Dir w (Key f) = g.
Proof. unfold inFolder. rewrite list_elem_of_filter. tauto. Qed.

(** ** Sorted slices *)

Lemma earliest_perm t ts1 ts2 : ts1 ≡ₚ ts2 → earliest t ts1 → earliest t ts2.
Proof.
  intros Hp [H0 H1]. split.
  - intros ->. apply H0. by apply Permutation_nil_r.
  - intros Hne. destruct H1 as [Hin Hmin].
    { intros ->. by apply Permutation_nil_l in Hp. }
    split; [by rewrite <- Hp|]. intros u Hu. apply Hmin. by rewrite Hp.
Qed.

Lemma latest_perm t ts1 ts2 : ts1 ≡ₚ ts2 → latest t ts1 → latest t ts2.
Proof.
  intros Hp [H0 H1]. split.
  - intros ->. apply H0. by apply Permutation_nil_r.
  - intros Hne. destruct H1 as [Hin Hmax].
    { intros ->. by apply Permutation_nil_l in Hp. }
    split; [by rewrite <- Hp|]. intros u Hu. apply Hmax. by rewrite Hp.
Qed.

Lemma oldestOf_perm t l1 l2 : l1 ≡ₚ l2 → oldestOf t l1 → oldestOf t l2.
Proof. intros Hp. apply earliest_perm. by rewrite Hp. Qed.

Lemma newestOf_perm t l1 l2 : l1 ≡ₚ l2 → newestOf t l1 → newestOf t l2.
Proof. intros Hp. apply latest_perm. by rewrite Hp. Qed.

Lemma newestFirst_last s :
  StronglySorted newestFirst s →
  oldestOf (match last s with Some f => CreatedAt f | None => Time.zero end) s.
Proof.
  unfold oldestOf, earliest.
  induction 1 as [|x l Hl IH Hx]; [by split|].
  split; [done|]. intros _.
  destruct l as [|y l].
  - simpl. split; [apply list_elem_of_here|].
    intros u ->%list_elem_of_singleton. lia.
  - destruct IH as [_ IH]. destruct IH as [Hin Hmin]; [done|].
    change (last (x :: y :: l)) with (last (y :: l)).
    split.
    + rewrite fmap_cons. by apply list_elem_of_further.
    + rewrite fmap_cons. intros u [->|Hu]%elem_of_cons; [|by apply Hmin].
      apply list_elem_of_fmap in Hin as (f & -> & Hf).
      rewrite Forall_forall in Hx. apply (Hx f Hf).
Qed.

Lemma newestFirst_head s :
  StronglySorted newestFirst s →
  newestOf (match head s with Some f => CreatedAt f | None => Time.zero end) s.
Proof.
  unfold newestOf, latest.
  intros Hs. destruct Hs as [|x l Hl Hx]; [by split|].
  split; [done|]. intros _. simpl. split; [apply list_elem_of_here|].
  intros u [->|Hu]%elem_of_cons; [lia|].
  apply list_elem_of_fmap in Hu as (f & -> & Hf).
  rewrite Forall_forall in Hx. apply (Hx f Hf).
Qed.

(** ** The slices and the statistics of one folder *)

Lemma folderStep_eq rules w stats g files :
  folderStep rules w stats g files
  = updateOverall stats g (folderStats rules w g files)
      (retainSlice w g (folderMarks rules w g files)).
Proof. reflexivity. Qed.

Section slices.
Context (w : World) (Hw : WorldOK w).

Lemma deleteSlice_perm g m : deleteSlice w g m ≡ₚ filesOf (filesToDelete m).
Proof. apply (rangeDelete_perm w Hw). Qed.

Lemma retainSlice_perm g m : retainSlice w g m ≡ₚ filesOf (filesToRetain m).
Proof.
  unfold retainSlice. rewrite (sort_perm w Hw). apply (rangeRetain_perm w Hw).
Qed.

Lemma retainSlice_sorted g m : StronglySorted newestFirst (retainSlice w g m).
Proof. apply (sort_sorted w Hw). Qed.

Lemma sorted_keys_nodup fs : NoDup (keys fs) → NoDup (keys (sortNewestFirst w fs)).
Proof. intros H. by rewrite (keys_perm _ _ (sort_perm w Hw fs)). Qed.

Lemma folderStats_oldest rules g files :
  oldestOf (DatabaseStats.OldestRetained (folderStats rules w g files))
           (filesOf (filesToRetain (folderMarks rules w g files))).
Proof.
  eapply oldestOf_perm; [apply retainSlice_perm|].
  apply newestFirst_last, retainSlice_sorted.
Qed.

Lemma folderStats_newest rules g files :
  newestOf (DatabaseStats.NewestRetained (folderStats rules w g files))
           (filesOf (filesToRetain (folderMarks rules w g files))).
Proof.
  eapply newestOf_perm; [apply retainSlice_perm|].
  apply newestFirst_head, retainSlice_sorted.
Qed.
End slices.

Global Instance newestFirst_trans : Transitive newestFirst.
Proof. intros a b c. unfold newestFirst. lia. Qed.

Global Instance newestFirst_total : Total newestFirst.
Proof. intros a b. unfold newestFirst. lia. Qed.

Lemma plainWorld_ok now reversed failing : WorldOK (plainWorld now reversed failing).
Proof.
  split; simpl.
  - apply merge_sort_Permutation.
  - intros l. apply StronglySorted_merge_sort; apply _.
  - intros m. destruct reversed; [apply reverse_Permutation|done].
  - done.
  - done.
Qed.

(** ** Keep and Delete of one folder *)

Lemma toMap_split_lookup R D f :
  NoDup (keys (R ++ D)) →
  (f ∈ R → toMap R !! Key f = Some f ∧ toMap D !! Key f = None) ∧
  (f ∈ D → toMap D !! Key f = Some f ∧ toMap R !! Key f = None).
Proof.
  unfold keys. rewrite fmap_app. intros (HR & Hdisj & HD)%NoDup_app.
  split; intros Hf.
  - split; [by apply toMap_lookup_in|].
    apply toMap_lookup_notin, Hdisj, keys_elem. eauto.
  - split; [by apply toMap_lookup_in|].
    apply toMap_lookup_notin. intros Hk. apply (Hdisj _ Hk), keys_elem. eauto.
Qed.

Lemma toMap_singleton f : toMap [f] = {[Key f := f]}.
Proof. unfold toMap. simpl. apply insert_empty. Qed.

Lemma toMap_nil : toMap [] = ∅.
Proof. done. Qed.

Lemma filesOf_toMap_elem l f : f ∈ filesOf (toMap l) → f ∈ l.
Proof. intros (k & Hk)%elem_of_filesOf. by apply toMap_lookup_Some in Hk as [? _]. Qed.

Section folder.
Context (w : World) (Hw : WorldOK w).
Context (listing : list FileInfo) (Hkeys : NoDup (keys listing)).
Context (g : string) (files : list FileInfo).
Context (Hg : groupByFolder w listing !! g = Some files).

Lemma folder_keys_nodup : NoDup (keys files).
Proof using Hkeys Hg.
  apply groupByFolder_lookup in Hg as [-> _].
  eapply keys_nodup_sublist; [apply inFolder_sublist|done].
Qed.

Lemma folder_sorted_nodup : NoDup (keys (sortNewestFirst w files)).
Proof using Hw Hkeys Hg. apply sorted_keys_nodup; [done|apply folder_keys_nodup]. Qed.

Lemma folder_nonempty : files ≠ [].
Proof using Hg. by apply groupByFolder_lookup in Hg as [_ ?]. Qed.

Lemma folderMarks_count rules :
  0 < MaxCount rules →
  folderMarks rules w g files
  = mkMarks (toMap (drop (Z.to_nat (MaxCount rules)) (sortNewestFirst w files)))
            (toMap (take (Z.to_nat (MaxCount rules)) (sortNewestFirst w files))).
Proof using Hw Hkeys Hg.
  intros Hn. unfold folderMarks. apply classify_count; [|done].
  apply folder_sorted_nodup.
Qed.

Lemma folderMarks_count_at rules (i : nat) f :
  0 < MaxCount rules →
  sortNewestFirst w files !! i = Some f →
  let m := folderMarks rules w g files in
  if bool_decide (Z.of_nat i < MaxCount rules)
  then filesToRetain m !! Key f = Some f ∧ filesToDelete m !! Key f = None
  else filesToDelete m !! Key f = Some f ∧ filesToRetain m !! Key f = None.
Proof using Hw Hkeys Hg.
  intros Hn Hi. simpl. rewrite folderMarks_count by done. simpl.
  set (n := Z.to_nat (MaxCount rules)).
  pose proof folder_sorted_nodup as Hnd.
  rewrite <- (take_drop n (sortNewestFirst w files)) in Hnd.
  destruct (toMap_split_lookup _ _ f Hnd) as [Htake Hdrop].
  case_bool_decide as Hlt.
  - apply Htake, elem_of_take. exists i. split; [done|lia].
  - apply Hdrop, list_elem_of_lookup. exists (i - n)%nat.
    rewrite lookup_drop, <- Hi. f_equal. lia.
Qed.

Lemma folderMarks_within rules f :
  f ∈ filesOf (filesToRetain (folderMarks rules w g files))
  ∨ f ∈ filesOf (filesToDelete (folderMarks rules w g files)) →
  f ∈ files.
Proof using Hw Hkeys Hg.
  pose proof folder_sorted_nodup as Hnd.
  assert (∀ l, l `sublist_of` sortNewestFirst w files →
               f ∈ filesOf (toMap l) → f ∈ files) as Hsub.
  { intros l Hl Hf%filesOf_toMap_elem.
    rewrite <- (sort_perm w Hw files). by eapply elem_of_sublist. }
  unfold folderMarks.
  destruct (decide (0 < MaxCount rules)) as [Hn|Hn].
  - rewrite classify_count by done. simpl.
    intros [H|H]; (eapply Hsub; [|exact H]); [apply sublist_take|apply sublist_drop].
  - destruct (decide (0 < MaxAgeDays rules)) as [Ha|Ha].
    + rewrite classify_age by (done || lia). simpl.
      intros [H|H]; (eapply Hsub; [|exact H]); apply sublist_filter.
    + rewrite classify_none by lia. simpl. rewrite filesOf_empty.
      by intros [?%elem_of_nil|?%elem_of_nil].
Qed.
End folder.

(** C1. With both rules enabled the count rule decides: in the order newest
    first, the files at the first [max_count] positions are in
    [filesToRetain] and not in [filesToDelete], every later one is in
    [filesToDelete] and not in [filesToRetain], whatever the age rule
    marked; the sets hold nothing but files of the folder, and they are the
    sets computed with the age rule switched off; the one file of a
    single-file folder is retained. *)
Theorem count_rule_overrides_age_rule rules w listing g files :
  WorldOK w → NoDup (keys listing) →
  0 < MaxAgeDays rules → 0 < MaxCount rules →
  groupByFolder w listing !! g = Some files →
  let sorted := sortNewestFirst w files in
  let m := folderMarks rules w g files in
  sorted ≡ₚ files ∧ StronglySorted newestFirst sorted ∧
  (∀ (i : nat) f, sorted !! i = Some f →
     if bool_decide (Z.of_nat i < MaxCount rules)
     then filesToRetain m !! Key f = Some f ∧ filesToDelete m !! Key f = None
     else filesToDelete m !! Key f = Some f ∧ filesToRetain m !! Key f = None) ∧
  (∀ f, f ∈ filesOf (filesToRetain m) ∨ f ∈ filesOf (filesToDelete m) → f ∈ files) ∧
  m = folderMarks (mkRules 0 (MaxCount rules) (Enabled rules)) w g files ∧
  (∀ f, files = [f] → filesToRetain m = {[Key f := f]} ∧ filesToDelete m = ∅).
Proof.
  intros Hw Hkeys Ha Hn Hg. simpl.
  split; [apply (sort_perm w Hw)|]. split; [apply (sort_sorted w Hw)|].
  split; [|split; [|split]].
  - intros i f Hi. by apply (folderMarks_count_at w Hw listing Hkeys g files Hg).
  - intros f. by apply (folderMarks_within w Hw listing Hkeys g files Hg).
  - by rewrite !(folderMarks_count w Hw listing Hkeys g files Hg).
  - intros f ->.
    rewrite (folderMarks_count w Hw listing Hkeys g [f] Hg) by done. simpl.
    assert (sortNewestFirst w [f] = [f]) as ->.
    { apply Permutation_singleton_r, (sort_perm w Hw). }
    destruct (Z.to_nat (MaxCount rules)) as [|n] eqn:Hz; [lia|]. simpl.
    by rewrite take_nil, drop_nil, toMap_singleton.
Qed.

Lemma count_rule_overrides_age_rule_witness :
  let rules := mkRules 30 3 true in
  let w := plainWorld (100 * day) false [] in
  let sorted := sortNewestFirst w fiveOld in
  let m := folderMarks rules w "db" fiveOld in
  sorted ≡ₚ fiveOld ∧ StronglySorted newestFirst sorted ∧
  (∀ (i : nat) f, sorted !! i = Some f →
     if bool_decide (Z.of_nat i < MaxCount rules)
     then filesToRetain m !! Key f = Some f ∧ filesToDelete m !! Key f = None
     else filesToDelete m !! Key f = Some f ∧ filesToRetain m !! Key f = None) ∧
  (∀ f, f ∈ filesOf (filesToRetain m) ∨ f ∈ filesOf (filesToDelete m) → f ∈ fiveOld) ∧
  m = folderMarks (mkRules 0 (MaxCount rules) (Enabled rules)) w "db" fiveOld ∧
  (∀ f, fiveOld = [f] → filesToRetain m = {[Key f := f]} ∧ filesToDelete m = ∅).
Proof.
  apply (count_rule_overrides_age_rule
           (mkRules 30 3 true) (plainWorld (100 * day) false []) fiveOld "db" fiveOld).
  - apply plainWorld_ok.
  - compute_done.
  - simpl; lia.
  - simpl; lia.
  - by vm_compute.
Defined.

Lemma toMap_filter_lookup (P : FileInfo → Prop) `{∀ f, Decision (P f)} l f :
  NoDup (keys l) → f ∈ l →
  toMap (filter P l) !! Key f = Some f ↔ P f.
Proof.
  intros Hnd Hin. split.
  - intros [Hf _]%toMap_lookup_Some. by apply list_elem_of_filter in Hf as [? _].
  - intros HP. apply toMap_lookup_in.
    + distinct_keys.
    + by apply list_elem_of_filter.
Qed.

Section folder_rules.
Context (w : World) (Hw : WorldOK w).
Context (listing : list FileInfo) (Hkeys : NoDup (keys listing)).
Context (g : string) (files : list FileInfo).
Context (Hg : groupByFolder w listing !! g = Some files).

(** As soon as one rule is enabled, the two sets split the folder. *)
Lemma folderMarks_split rules :
  0 < MaxAgeDays rules ∨ 0 < MaxCount rules →
  ∃ D R, folderMarks rules w g files = mkMarks (toMap D) (toMap R) ∧
         R ++ D ≡ₚ files ∧ NoDup (keys (R ++ D)).
Proof using Hw Hkeys Hg.
  intros Hrule.
  pose proof (folder_sorted_nodup w Hw listing Hkeys g files Hg) as Hnd.
  pose proof (sort_perm w Hw files) as Hp.
  destruct (decide (0 < MaxCount rules)) as [Hn|Hn].
  - eexists _, _. split; [by apply (folderMarks_count w Hw listing Hkeys g files Hg)|].
    rewrite take_drop. by split.
  - unfold folderMarks. rewrite classify_age by (done || lia).
    eexists _, _. split; [done|].
    assert (notOlderThan (AddDate w (Now w g) (- MaxAgeDays rules)) (sortNewestFirst w files)
            ++ olderThan (AddDate w (Now w g) (- MaxAgeDays rules)) (sortNewestFirst w files)
            ≡ₚ sortNewestFirst w files) as Hsplit.
    { rewrite (comm (++)). apply filter_app_complement. }
    split; [by rewrite Hsplit|]. by rewrite (keys_perm _ _ Hsplit).
Qed.

Lemma folderMarks_exactly_one rules f :
  0 < MaxAgeDays rules ∨ 0 < MaxCount rules → f ∈ files →
  let m := folderMarks rules w g files in
  (markedKeep m f ∧ filesToDelete m !! Key f = None)
  ∨ (markedDelete m f ∧ filesToRetain m !! Key f = None).
Proof using Hw Hkeys Hg.
  intros Hrule Hf. simpl.
  destruct (folderMarks_split rules Hrule) as (D & R & -> & Hp & Hnd).
  unfold markedKeep, markedDelete. simpl.
  destruct (toMap_split_lookup R D f Hnd) as [HR HD].
  rewrite <- Hp in Hf. apply elem_of_app in Hf as [Hf|Hf]; [left|right]; auto.
Qed.

Lemma folderMarks_files rules :
  0 < MaxAgeDays rules ∨ 0 < MaxCount rules →
  let m := folderMarks rules w g files in
  filesOf (filesToRetain m) ++ filesOf (filesToDelete m) ≡ₚ files.
Proof using Hw Hkeys Hg.
  intros Hrule. simpl.
  destruct (folderMarks_split rules Hrule) as (D & R & -> & Hp & Hnd). simpl.
  unfold keys in Hnd. rewrite fmap_app in Hnd.
  apply NoDup_app in Hnd as (HR & _ & HD).
  by rewrite !filesOf_toMap.
Qed.
End folder_rules.

(** C3. With the count rule alone ([max_count] = N > 0) on a folder of M
    files, max(0, M - N) files are in the Delete set and counted in
    [DeletedFiles], min(M, N) files are in the Keep set, the two sets
    together are the folder, each file once, and no deleted file is newer
    than a kept one: the Keep set is the N newest files. *)
Theorem count_rule_alone rules w listing g files :
  WorldOK w → NoDup (keys listing) →
  MaxAgeDays rules ≤ 0 → 0 < MaxCount rules →
  groupByFolder w listing !! g = Some files →
  let m := folderMarks rules w g files in
  let keep := filesOf (filesToRetain m) in
  let del := filesOf (filesToDelete m) in
  len del = Z.max 0 (len files - MaxCount rules) ∧
  DatabaseStats.DeletedFiles (folderStats rules w g files)
    = Z.max 0 (len files - MaxCount rules) ∧
  len keep = Z.min (len files) (MaxCount rules) ∧
  keep ++ del ≡ₚ files ∧
  (∀ k d, k ∈ keep → d ∈ del → CreatedAt d ≤ CreatedAt k).
Proof.
  intros Hw Hkeys Ha Hn Hg. simpl.
  pose proof (folder_sorted_nodup w Hw listing Hkeys g files Hg) as Hnd.
  pose proof (sort_perm w Hw files) as Hp.
  pose proof (sort_sorted w Hw files) as Hs.
  assert (len (filesOf (filesToDelete (folderMarks rules w g files)))
          = Z.max 0 (len files - MaxCount rules)) as Hlen.
  { rewrite (folderMarks_count w Hw listing Hkeys g files Hg) by done. simpl.
    rewrite (len_perm _ _ (filesOf_toMap _
      (keys_nodup_sublist _ _ (sublist_drop _ _) Hnd))).
    unfold len. rewrite length_drop, (Permutation_length Hp). lia. }
  split; [done|]. split.
  { unfold folderStats, databaseStats. simpl.
    by rewrite (len_perm _ _ (deleteSlice_perm w Hw g _)). }
  split.
  { rewrite (folderMarks_count w Hw listing Hkeys g files Hg) by done. simpl.
    rewrite (len_perm _ _ (filesOf_toMap _
      (keys_nodup_sublist _ _ (sublist_take _ _) Hnd))).
    unfold len. rewrite length_take, (Permutation_length Hp). lia. }
  split.
  { apply (folderMarks_files w Hw listing Hkeys g files Hg). by right. }
  rewrite (folderMarks_count w Hw listing Hkeys g files Hg) by done. simpl.
  intros k d Hk%filesOf_toMap_elem Hd%filesOf_toMap_elem.
  rewrite <- (take_drop (Z.to_nat (MaxCount rules)) (sortNewestFirst w files)) in Hs.
  by apply (StronglySorted_app_1_elem_of _ _ _ _ _ Hs Hk Hd).
Qed.

Lemma count_rule_alone_witness :
  let rules := mkRules 0 3 true in
  let w := plainWorld (100 * day) false [] in
  let m := folderMarks rules w "db" fiveOld in
  let keep := filesOf (filesToRetain m) in
  let del := filesOf (filesToDelete m) in
  len del = Z.max 0 (len fiveOld - MaxCount rules) ∧
  DatabaseStats.DeletedFiles (folderStats rules w "db" fiveOld)
    = Z.max 0 (len fiveOld - MaxCount rules) ∧
  len keep = Z.min (len fiveOld) (MaxCount rules) ∧
  keep ++ del ≡ₚ fiveOld ∧
  (∀ k d, k ∈ keep → d ∈ del → CreatedAt d ≤ CreatedAt k).
Proof.
  apply (count_rule_alone
           (mkRules 0 3 true) (plainWorld (100 * day) false []) fiveOld "db" fiveOld).
  - apply plainWorld_ok.
  - compute_done.
  - simpl; lia.
  - simpl; lia.
  - by vm_compute.
Defined.

(** C4. With the age rule alone ([max_age_days] = D > 0) a file of the
    folder is in the Delete set exactly when it was created strictly before
    now - D days, and in the Keep set exactly when it was created at or
    after that instant. The instant now - D days is
    [time.Now().AddDate(0, 0, -D)], whatever the calendar of the time zone
    makes of it. *)
Theorem age_rule_alone rules w listing g files :
  WorldOK w → NoDup (keys listing) →
  0 < MaxAgeDays rules → MaxCount rules ≤ 0 →
  groupByFolder w listing !! g = Some files →
  let m := folderMarks rules w g files in
  let cutoff := AddDate w (Now w g) (- MaxAgeDays rules) in
  ∀ f, f ∈ files →
    (markedDelete m f ↔ CreatedAt f < cutoff) ∧
    (markedKeep m f ↔ cutoff ≤ CreatedAt f).
Proof.
  intros Hw Hkeys Ha Hn Hg. simpl. intros f Hf.
  pose proof (folder_sorted_nodup w Hw listing Hkeys g files Hg) as Hnd.
  rewrite <- (sort_perm w Hw files) in Hf.
  unfold markedDelete, markedKeep, folderMarks.
  rewrite classify_age by done. simpl.
  unfold olderThan, notOlderThan.
  rewrite !toMap_filter_lookup by done.
  split; [done|]. lia.
Qed.

Lemma age_rule_alone_witness :
  let rules := mkRules 30 0 true in
  let w := plainWorld (100 * day) false [] in
  let m := folderMarks rules w "db" threeBackups in
  let cutoff := AddDate w (Now w "db") (- MaxAgeDays rules) in
  let f := mkFile "db/2024-01-01" (60 * day) 10 in
  (markedDelete m f ↔ CreatedAt f < cutoff) ∧
  (markedKeep m f ↔ cutoff ≤ CreatedAt f).
Proof.
  apply (age_rule_alone
           (mkRules 30 0 true) (plainWorld (100 * day) false []) threeBackups "db" threeBackups).
  - apply plainWorld_ok.
  - compute_done.
  - simpl; lia.
  - simpl; lia.
  - by vm_compute.
  - apply list_elem_of_here.
Defined.

(** With the policy enabled and both thresholds at zero the one backup of
    the folder is in neither set, and it is not counted as retained. *)
Lemma partitionClaim_fails_without_rules :
  let rules := mkRules 0 0 true in
  let w := plainWorld (100 * day) false [] in
  let listing := [mkFile "db/a" (10 * day) 100] in
  WorldOK w ∧
  groupByFolder w listing !! "db" = Some listing ∧
  folderMarks rules w "db" listing = mkMarks ∅ ∅ ∧
  DatabaseStats.RetainedFiles (folderStats rules w "db" listing) = 0 ∧
  ¬ partitionClaim rules w listing.
Proof.
  split; [apply plainWorld_ok|]. split; [by vm_compute|]. split; [by vm_compute|].
  split; [by vm_compute|].
  intros H.
  destruct (H "db" [mkFile "db/a" (10 * day) 100]) as [_ Hkeep]; [by vm_compute|].
  specialize (Hkeep ltac:(simpl; lia) ltac:(simpl; lia) _ (list_elem_of_here _ _)).
  by vm_compute in Hkeep.
Qed.

(** Grouping loses and repeats nothing: the folders together hold the
    listing. *)
Lemma groupLoop_cover w l (m : gmap string (list FileInfo)) :
  map_to_list (groupLoop w l m) ≫= snd ≡ₚ (map_to_list m ≫= snd) ++ l.
Proof.
  revert m. induction l as [|f l IH]; intros m.
  - simpl. by rewrite app_nil_r.
  - cbn [groupLoop]. rewrite IH. set (g := Dir w (Key f)).
    change (f :: l) with ([f] ++ l). rewrite app_assoc.
    apply Permutation_app_tail.
    destruct (m !! g) as [x|] eqn:Hg; simpl.
    + rewrite <- (insert_delete_id m g x Hg) at 2.
      rewrite <- (insert_delete_eq m g (x ++ [f])).
      rewrite !map_to_list_insert by apply lookup_delete_eq.
      rewrite !bind_cons. simpl. rewrite <- !app_assoc.
      apply Permutation_app_head. apply Permutation_app_comm.
    + rewrite map_to_list_insert by done. rewrite bind_cons. simpl.
      by rewrite Permutation_cons_append.
Qed.

Lemma groups_cover_listing w listing :
  map_to_list (groupByFolder w listing) ≫= snd ≡ₚ listing.
Proof.
  unfold groupByFolder. by rewrite groupLoop_cover, map_to_list_empty.
Qed.

Lemma bind_split_perm {A B} (K D T : A → list B) (l : list A) :
  (∀ a, a ∈ l → K a ++ D a ≡ₚ T a) →
  (l ≫= K) ++ (l ≫= D) ≡ₚ l ≫= T.
Proof.
  induction l as [|a l IH]; intros H; [done|].
  rewrite !bind_cons, <- (H a) by apply list_elem_of_here.
  rewrite <- IH by (intros; by apply H, list_elem_of_further).
  rewrite <- !app_assoc. apply Permutation_app_head.
  rewrite !app_assoc. apply Permutation_app_tail, Permutation_app_comm.
Qed.

(** C2, amended. The folders together hold the listing, each file once.
    When at least one rule is enabled, the Keep and the Delete sets of all
    folders together hold the listing, each file once; within a folder each
    file is in exactly one of its two sets, the two sets hold nothing else,
    and [RetainedFiles + DeletedFiles = TotalFiles]. When no rule is
    enabled both sets of every folder are empty: its files are counted in
    [TotalFiles] and in neither [RetainedFiles] nor [DeletedFiles], and the
    slice handed to [deleteFiles] is empty. *)
Theorem marks_partition rules w listing :
  WorldOK w → NoDup (keys listing) →
  let folders := map_to_list (groupByFolder w listing) in
  folders ≫= snd ≡ₚ listing ∧
  (0 < MaxAgeDays rules ∨ 0 < MaxCount rules →
     keptFiles rules w folders ++ deletedFiles rules w folders ≡ₚ listing ∧
     ∀ g files, groupByFolder w listing !! g = Some files →
       let m := folderMarks rules w g files in
       let st := folderStats rules w g files in
       (∀ f, f ∈ files →
          (markedKeep m f ∧ ¬ markedDelete m f) ∨ (markedDelete m f ∧ ¬ markedKeep m f)) ∧
       filesOf (filesToRetain m) ++ filesOf (filesToDelete m) ≡ₚ files ∧
       DatabaseStats.RetainedFiles st + DatabaseStats.DeletedFiles st
         = DatabaseStats.TotalFiles st) ∧
  (MaxAgeDays rules ≤ 0 → MaxCount rules ≤ 0 →
     ∀ g files, groupByFolder w listing !! g = Some files →
       let m := folderMarks rules w g files in
       let st := folderStats rules w g files in
       filesToRetain m = ∅ ∧ filesToDelete m = ∅ ∧ deleteSlice w g m = [] ∧
       DatabaseStats.TotalFiles st = len files ∧
       DatabaseStats.DeletedFiles st = 0 ∧ DatabaseStats.RetainedFiles st = 0).
Proof.
  intros Hw Hkeys. simpl.
  split; [apply groups_cover_listing|]. split.
  - intros Hrule. split.
    { rewrite <- (groups_cover_listing w listing) at 3.
      apply bind_split_perm. intros [g files] Hin%elem_of_map_to_list.
      by apply (folderMarks_files w Hw listing Hkeys g files Hin). }
    intros g files Hg.
    pose proof (folderMarks_files w Hw listing Hkeys g files Hg rules Hrule) as Hfiles.
    split; [|split; [done|]].
    + intros f Hf.
      destruct (folderMarks_exactly_one w Hw listing Hkeys g files Hg rules f Hrule Hf)
        as [[Hk Hd]|[Hd Hk]]; [left|right]; (split; [done|]);
        unfold markedDelete, markedKeep; by rewrite ?Hd, ?Hk.
    + unfold folderStats, databaseStats. simpl.
      rewrite (len_perm _ _ (deleteSlice_perm w Hw g _)).
      rewrite (len_perm _ _ (retainSlice_perm w Hw g _)).
      rewrite <- (len_perm _ _ Hfiles). unfold len. rewrite length_app. lia.
  - intros Ha Hn g files Hg.
    assert (∀ s : list FileInfo, s ≡ₚ filesOf ∅ → s = []) as Hnil.
    { intros s. rewrite filesOf_empty. apply Permutation_nil_r. }
    unfold folderStats, folderMarks. rewrite classify_none by done.
    rewrite (Hnil _ (deleteSlice_perm w Hw g (mkMarks ∅ ∅))).
    rewrite (Hnil _ (retainSlice_perm w Hw g (mkMarks ∅ ∅))).
    done.
Qed.

Lemma marks_partition_witness :
  let rules := mkRules 30 0 true in
  let w := plainWorld (100 * day) false [] in
  let listing := objects twoFolders in
  let folders := map_to_list (groupByFolder w listing) in
  folders ≫= snd ≡ₚ listing ∧
  (0 < MaxAgeDays rules ∨ 0 < MaxCount rules →
     keptFiles rules w folders ++ deletedFiles rules w folders ≡ₚ listing ∧
     ∀ g files, groupByFolder w listing !! g = Some files →
       let m := folderMarks rules w g files in
       let st := folderStats rules w g files in
       (∀ f, f ∈ files →
          (markedKeep m f ∧ ¬ markedDelete m f) ∨ (markedDelete m f ∧ ¬ markedKeep m f)) ∧
       filesOf (filesToRetain m) ++ filesOf (filesToDelete m) ≡ₚ files ∧
       DatabaseStats.RetainedFiles st + DatabaseStats.DeletedFiles st
         = DatabaseStats.TotalFiles st) ∧
  (MaxAgeDays rules ≤ 0 → MaxCount rules ≤ 0 →
     ∀ g files, groupByFolder w listing !! g = Some files →
       let m := folderMarks rules w g files in
       let st := folderStats rules w g files in
       filesToRetain m = ∅ ∧ filesToDelete m = ∅ ∧ deleteSlice w g m = [] ∧
       DatabaseStats.TotalFiles st = len files ∧
       DatabaseStats.DeletedFiles st = 0 ∧ DatabaseStats.RetainedFiles st = 0).
Proof.
  apply (marks_partition (mkRules 30 0 true) (plainWorld (100 * day) false [])
           (objects twoFolders)).
  - apply plainWorld_ok.
  - compute_done.
Defined.

Lemma removeKeys_nil l : removeKeys [] l = l.
Proof.
  unfold removeKeys. induction l as [|f l IH]; [done|].
  rewrite filter_cons, decide_True by apply not_elem_of_nil. by rewrite IH.
Qed.

Lemma removeKeys_app ks1 ks2 l :
  removeKeys (ks1 ++ ks2) l = removeKeys ks2 (removeKeys ks1 l).
Proof.
  unfold removeKeys. induction l as [|f l IH]; [done|].
  rewrite !filter_cons.
  destruct (decide (Key f ∉ ks1 ++ ks2)) as [H|H];
    destruct (decide (Key f ∉ ks1)) as [H1|H1];
    rewrite ?filter_cons; try destruct (decide (Key f ∉ ks2)) as [H2|H2];
    rewrite ?IH; try done; exfalso; rewrite not_elem_of_app in H; tauto.
Qed.

Lemma removeKeys_one k l : removeKeys [k] l = filter (λ f, Key f ≠ k) l.
Proof.
  unfold removeKeys. apply list_filter_iff. intros f.
  rewrite list_elem_of_singleton. done.
Qed.

Lemma succeeded_app c1 c2 : succeeded (c1 ++ c2) = succeeded c1 ++ succeeded c2.
Proof. unfold succeeded. by rewrite filter_app, fmap_app. Qed.

Lemma failFast_app c1 c2 err :
  failFast c1 None → failFast c2 err → failFast (c1 ++ c2) err.
Proof.
  destruct err as [e|]; simpl.
  - intros H1 (pre & k & e0 & -> & Hpre & ->).
    exists (c1 ++ pre), k, e0. rewrite app_assoc. split; [done|].
    split; [by apply Forall_app|done].
  - intros H1 H2. by apply Forall_app.
Qed.

(** A failed call in a fail-fast log is the last one, and it is the error
    returned. *)
Lemma failFast_failed calls err (i : nat) k e :
  failFast calls err → calls !! i = Some (k, Some e) →
  length calls = S i ∧ err = Some (FailedToDeleteFile k e) ∧
  succeeded calls = (take i calls).*1 ∧
  Forall (λ c, c.2 = None) (take i calls).
Proof.
  intros Hff Hi.
  assert (∀ pre : list (string * option error),
            Forall (λ c, c.2 = None) pre → pre !! i = Some (k, Some e) → False) as Hno.
  { intros pre Hpre Hl. rewrite Forall_lookup in Hpre. by specialize (Hpre _ _ Hl). }
  assert (∀ pre : list (string * option error),
            Forall (λ c, c.2 = None) pre → succeeded pre = pre.*1) as Hall.
  { intros pre Hpre. unfold succeeded. f_equal.
    induction Hpre as [|c pre Hc Hpre IH]; [done|].
    by rewrite filter_cons_True, IH. }
  destruct err as [e'|]; simpl in Hff; [|by destruct (Hno _ Hff Hi)].
  destruct Hff as (pre & k' & e0 & -> & Hpre & ->).
  destruct (decide (i < length pre)%nat) as [Hlt|Hge].
  { rewrite lookup_app_l in Hi by done. by destruct (Hno _ Hpre Hi). }
  rewrite lookup_app_r in Hi by lia.
  destruct (i - length pre)%nat as [|n] eqn:Hn; simpl in Hi; [|done].
  injection Hi as -> ->.
  assert (i = length pre) as -> by lia.
  rewrite length_app, take_app_length. simpl.
  split; [lia|]. split; [done|]. split; [|done].
  rewrite succeeded_app, Hall by done. unfold succeeded.
  rewrite filter_cons_False by (simpl; congruence). simpl. by rewrite app_nil_r.
Qed.

Lemma deleteFiles_log w fs b b' err :
  deleteFiles w b fs = (b', err) →
  ∃ calls, deleteCalls b' = deleteCalls b ++ calls ∧
           objects b' = removeKeys (succeeded calls) (objects b) ∧
           failFast calls err ∧
           calls.*1 `prefix_of` keys fs ∧
           (err = None → calls.*1 = keys fs).
Proof.
  revert b. induction fs as [|f fs IH]; intros b; simpl.
  - intros [= <- <-]. exists []. rewrite app_nil_r. simpl.
    rewrite removeKeys_nil. split; [done|]. split; [done|].
    split; [by apply Forall_nil|]. by split.
  - unfold S3_Delete. destruct (deleteFails w b (Key f)) as [e|] eqn:Hf.
    + intros [= <- <-]. exists [(Key f, Some e)]. simpl.
      rewrite removeKeys_nil. split; [done|]. split; [done|].
      split; [by exists [], (Key f), e|].
      split; [by exists (keys fs)|done].
    + intros Hrest. apply IH in Hrest as (calls & Hc & Ho & Hff & Hpre & Hall).
      simpl in Hc, Ho. exists ((Key f, None) :: calls).
      split; [by rewrite Hc, <- app_assoc|].
      split.
      { rewrite Ho. change ((Key f, None) :: calls) with ([(Key f, @None error)] ++ calls).
        rewrite succeeded_app, removeKeys_app. f_equal.
        unfold succeeded. rewrite filter_cons_True by done. simpl.
        by rewrite removeKeys_one. }
      split.
      { apply (failFast_app [(Key f, None)] calls err); [|done].
        by apply Forall_singleton. }
      split; [by apply prefix_cons|].
      intros He. simpl. f_equal. by apply Hall.
Qed.

Lemma evalFolders_app rules w l1 l2 st :
  evalFolders rules w (l1 ++ l2) st = evalFolders rules w l2 (evalFolders rules w l1 st).
Proof. apply foldl_app. Qed.

Lemma plan_cons rules w g files rest :
  plan rules w ((g, files) :: rest)
  = keys (deleteSlice w g (folderMarks rules w g files)) ++ plan rules w rest.
Proof. done. Qed.

Lemma plan_app rules w l1 l2 :
  plan rules w (l1 ++ l2) = plan rules w l1 ++ plan rules w l2.
Proof. unfold plan. apply bind_app. Qed.

(** A dry run visits every folder and leaves the bucket alone. *)
Lemma folderLoop_dry rules w folders st b :
  folderLoop rules true w folders st b = (evalFolders rules w folders st, None, b).
Proof.
  revert st. induction folders as [|[g files] rest IH]; intros st; simpl; [done|].
  apply IH.
Qed.

Lemma folderLoop_live rules w folders st b st' err b' :
  folderLoop rules false w folders st b = (st', err, b') →
  ∃ calls, deleteCalls b' = deleteCalls b ++ calls ∧
           objects b' = removeKeys (succeeded calls) (objects b) ∧
           failFast calls err ∧
           calls.*1 `prefix_of` plan rules w folders ∧
           match err with
           | None => st' = evalFolders rules w folders st ∧ calls.*1 = plan rules w folders
           | Some _ => stoppedIn rules w folders calls.*1 st st'
           end.
Proof.
  revert st b. induction folders as [|[g files] rest IH]; intros st b Hrun; simpl in Hrun.
  - injection Hrun as <- <- <-. exists []. rewrite app_nil_r. simpl.
    rewrite removeKeys_nil.
    split; [done|]. split; [done|]. split; [by apply Forall_nil|]. by split.
  - destruct (deleteFiles w b _) as [b1 [e|]] eqn:Hdel.
    + injection Hrun as <- <- <-.
      apply deleteFiles_log in Hdel as (calls & Hc & Ho & Hff & Hpre & _).
      exists calls. split; [done|]. split; [done|]. split; [done|].
      split; [rewrite plan_cons; by apply prefix_app_r|].
      exists [], g, files, rest, calls.*1. split; [done|]. split; [done|].
      split; [done|]. split; [|done].
      destruct Hff as (pre & k & e0 & -> & _). rewrite fmap_app. simpl.
      by destruct (pre.*1).
    + apply deleteFiles_log in Hdel as (c1 & Hc1 & Ho1 & Hff1 & _ & Hall1).
      specialize (Hall1 eq_refl).
      apply IH in Hrun as (c2 & Hc2 & Ho2 & Hff2 & Hpre2 & Hst).
      exists (c1 ++ c2).
      split; [by rewrite Hc2, Hc1, <- app_assoc|].
      split; [by rewrite Ho2, Ho1, succeeded_app, removeKeys_app|].
      split; [by apply failFast_app|].
      rewrite fmap_app, Hall1, plan_cons.
      split; [by apply prefix_app|].
      destruct err as [e|].
      * destruct Hst as (done & g' & files' & rest' & part & -> & -> & -> & Hne & Hp).
        exists ((g, files) :: done), g', files', rest', part.
        split; [done|]. split; [done|]. split; [|done].
        by rewrite plan_cons, <- app_assoc.
      * destruct Hst as [-> ->]. done.
Qed.

(** The statistics a run returns are those of the folders it went through,
    whether or not it is a dry run and whether or not it failed. *)
Lemma folderLoop_stats rules dryRun w folders st b st' err b' :
  folderLoop rules dryRun w folders st b = (st', err, b') →
  ∃ done rest, folders = done ++ rest ∧ st' = evalFolders rules w done st.
Proof.
  destruct dryRun.
  - rewrite folderLoop_dry. intros [= <- <- <-]. exists folders, [].
    by rewrite app_nil_r.
  - intros (calls & _ & _ & _ & _ & Hst)%folderLoop_live.
    destruct err as [e|].
    + destruct Hst as (done & g & files & rest & part & -> & -> & _).
      exists (done ++ [(g, files)]), rest. by rewrite <- app_assoc.
    + destruct Hst as [-> _]. exists folders, []. by rewrite app_nil_r.
Qed.

Lemma rangeFolders_empty w : WorldOK w → rangeFolders w ∅ = [].
Proof.
  intros Hw. apply Permutation_nil_r.
  by rewrite (rangeFolders_perm w Hw), map_to_list_empty.
Qed.

Lemma evaluate_nil rules w : WorldOK w → evaluate rules w [] = DeleteStats.empty.
Proof. intros Hw. unfold evaluate, groupByFolder. simpl. by rewrite rangeFolders_empty. Qed.

(** The returns of [Execute] before the loop over the folders: the bucket is
    the one it was given and no call was made. *)
Ltac returns_before_loop Hnone b :=
  let i := fresh "i" in let k := fresh "k" in let e := fresh "e" in
  let Hi := fresh "Hi" in let Hno := fresh "Hno" in
  intros [= <- <- <-]; exists []; destruct (Hnone b) as [? Hno];
  split; [done|]; split; [by intros _; apply Forall_nil|];
  intros i k e Hi; by destruct (Hno i k e Hi).

(** C5. In a live run no failure of [Delete] goes unreported, and a [Delete]
    call that fails is the first one to fail and the last call of the whole
    run: the calls made are an initial part
    of the plan of all folders, cut right after the failing key, so nothing
    that was planned after it, in this folder or a later one, is attempted.
    The error comes back wrapped, with the statistics of the folders gone
    through up to and including the failing one, and the bucket has lost
    exactly the objects deleted before the failure. *)
Theorem delete_failure_aborts_run rules w b st err b' :
  Execute rules false w b = (st, err, b') →
  ∃ calls, deleteCalls b' = deleteCalls b ++ calls ∧
    (err = None → Forall (λ c, c.2 = None) calls) ∧
    ∀ (i : nat) k e, calls !! i = Some (k, Some e) →
      length calls = S i ∧
      Forall (λ c, c.2 = None) (take i calls) ∧
      err = Some (FailedToDeleteFile k e) ∧
      objects b' = removeKeys (take i calls).*1 (objects b) ∧
      ∃ listing done g files rest,
        S3_List w b = inr listing ∧
        rangeFolders w (groupByFolder w listing) = done ++ (g, files) :: rest ∧
        calls.*1 = take (S i) (plan rules w (done ++ (g, files) :: rest)) ∧
        k ∈ keys (deleteSlice w g (folderMarks rules w g files)) ∧
        st = Some (evalFolders rules w (done ++ [(g, files)]) DeleteStats.empty).
Proof.
  unfold Execute.
  assert (∀ b0 : Bucket, deleteCalls b0 = deleteCalls b0 ++ [] ∧
            ∀ (i : nat) k e, @nil (string * option error) !! i = Some (k, Some e) →
              False) as Hnone.
  { intros b0. by rewrite app_nil_r. }
  destruct (Enabled rules); simpl; [|returns_before_loop Hnone b].
  destruct (S3_List w b) as [e0|listing] eqn:Hlist; [returns_before_loop Hnone b|].
  destruct (len listing =? 0); [returns_before_loop Hnone b|].
  destruct (folderLoop _ _ _ _ _ _) as [[st1 err1] b1] eqn:Hloop.
  intros [= <- <- <-].
  apply folderLoop_live in Hloop as (calls & Hc & Ho & Hff & Hpre & Hst).
  exists calls. split; [done|]. split; [by intros ->|]. intros i k e Hi.
  destruct (failFast_failed calls err1 i k e Hff Hi) as (Hlen & -> & Hsucc & Hok).
  split; [done|]. split; [done|]. split; [done|].
  split; [by rewrite Ho, Hsucc|].
  destruct Hst as (done & g & files & rest & part & Horder & -> & Hcalled & Hne & Hpart).
  exists listing, done, g, files, rest.
  split; [done|]. split; [done|]. split; [|split; [|done]].
  - rewrite <- Horder. destruct Hpre as [more ->].
    rewrite <- Hlen, <- (length_fmap fst calls). by rewrite take_app_length.
  - apply (elem_of_prefix part); [|done]. apply last_Some_elem_of.
    assert (last (calls.*1) = Some k) as Hlast.
    { rewrite (last_Some (calls.*1) k). exists ((take i calls).*1).
      rewrite <- (take_drop i calls) at 1. rewrite fmap_app. f_equal.
      rewrite (drop_S _ _ _ Hi), drop_ge by lia. done. }
    rewrite Hcalled, last_app in Hlast.
    destruct (last part) as [x|] eqn:Hp; [done|].
    apply last_None in Hp. done.
Qed.

Lemma delete_failure_aborts_run_witness :
  let rules := mkRules 30 0 true in
  let w := plainWorld (100 * day) false ["db/2024-01-02"] in
  let r := Execute rules false w twoFolders in
  plan rules w (rangeFolders w (groupByFolder w (objects twoFolders)))
    = ["db/2024-01-01"; "db/2024-01-02"; "pg/2024-01-01"] ∧
  deleteCalls r.2
    = [("db/2024-01-01", None); ("db/2024-01-02", Some (S3Error "access denied"))] ∧
  ∃ calls, deleteCalls r.2 = deleteCalls twoFolders ++ calls ∧
    (r.1.2 = None → Forall (λ c, c.2 = None) calls) ∧
    ∀ (i : nat) k e, calls !! i = Some (k, Some e) →
      length calls = S i ∧
      Forall (λ c, c.2 = None) (take i calls) ∧
      r.1.2 = Some (FailedToDeleteFile k e) ∧
      objects r.2 = removeKeys (take i calls).*1 (objects twoFolders) ∧
      ∃ listing done g files rest,
        S3_List w twoFolders = inr listing ∧
        rangeFolders w (groupByFolder w listing) = done ++ (g, files) :: rest ∧
        calls.*1 = take (S i) (plan rules w (done ++ (g, files) :: rest)) ∧
        k ∈ keys (deleteSlice w g (folderMarks rules w g files)) ∧
        r.1.1 = Some (evalFolders rules w (done ++ [(g, files)]) DeleteStats.empty).
Proof.
  split; [by vm_compute|]. split; [by vm_compute|].
  apply (delete_failure_aborts_run (mkRules 30 0 true)
           (plainWorld (100 * day) false ["db/2024-01-02"]) twoFolders).
  by destruct (Execute _ _ _ _) as [[? ?] ?].
Defined.

(** C6. A dry run leaves the bucket as it found it, the log of [Delete]
    calls included, for every policy and every listing; with the policy
    enabled and the listing obtained it returns the statistics of the
    evaluator and no error; and a live run that meets no error returns the
    same statistics. *)
Theorem dry_run_never_deletes rules w b st err b' :
  WorldOK w →
  Execute rules true w b = (st, err, b') →
  b' = b ∧
  (∀ listing, Enabled rules = true → S3_List w b = inr listing →
     st = Some (evaluate rules w listing) ∧ err = None) ∧
  (∀ st1 b1, Execute rules false w b = (st1, None, b1) → st1 = st ∧ err = None).
Proof.
  intros Hw. unfold Execute.
  destruct (Enabled rules); simpl.
  2:{ intros [= <- <- <-]. split; [done|]. split; [done|]. by intros ? ? [= <- _]. }
  destruct (S3_List w b) as [e0|listing] eqn:Hlist.
  { intros [= <- <- <-]. split; [done|]. split; [done|]. by intros ? ? [=]. }
  destruct (len listing =? 0) eqn:Hlen.
  { intros [= <- <- <-]. split; [done|]. split; [|by intros ? ? [= <- _]].
    intros ? _ [= <-]. destruct listing; [|done]. by rewrite evaluate_nil. }
  rewrite folderLoop_dry. intros [= <- <- <-]. split; [done|].
  split; [by intros ? _ [= <-]|].
  intros st1 b1.
  destruct (folderLoop _ false _ _ _ _) as [[st2 err2] b2] eqn:Hloop.
  intros [= <- -> <-].
  apply folderLoop_live in Hloop as (calls & _ & _ & _ & _ & [-> _]). done.
Qed.

Lemma dry_run_never_deletes_witness :
  let rules := mkRules 30 0 true in
  let w := plainWorld (100 * day) false ["db/2024-01-02"] in
  let r := Execute rules true w twoFolders in
  r.2 = twoFolders ∧
  (∀ listing, Enabled rules = true → S3_List w twoFolders = inr listing →
     r.1.1 = Some (evaluate rules w listing) ∧ r.1.2 = None) ∧
  (∀ st1 b1, Execute rules false w twoFolders = (st1, None, b1) →
     st1 = r.1.1 ∧ r.1.2 = None).
Proof.
  apply (dry_run_never_deletes (mkRules 30 0 true)
           (plainWorld (100 * day) false ["db/2024-01-02"]) twoFolders).
  - apply plainWorld_ok.
  - by destruct (Execute _ _ _ _) as [[? ?] ?].
Defined.

(** C8. With [enabled: false] the command returns at once: the statistics
    are the zero value with an empty per-database map, there is no error,
    and the bucket is neither listed nor changed, whatever it holds and
    whether or not the run is a dry run. *)
Theorem disabled_policy_does_nothing rules dryRun w b :
  Enabled rules = false →
  Execute rules dryRun w b = (Some DeleteStats.empty, None, b) ∧
  DeleteStats.DeletedFiles DeleteStats.empty = 0 ∧
  DeleteStats.DatabaseStats DeleteStats.empty = ∅.
Proof. intros H. unfold Execute. by rewrite H. Qed.

Lemma disabled_policy_does_nothing_witness :
  let rules := mkRules 30 1 false in
  let w := plainWorld (100 * day) false [] in
  Execute rules false w twoFolders = (Some DeleteStats.empty, None, twoFolders) ∧
  DeleteStats.DeletedFiles DeleteStats.empty = 0 ∧
  DeleteStats.DatabaseStats DeleteStats.empty = ∅.
Proof.
  apply (disabled_policy_does_nothing (mkRules 30 1 false) false
           (plainWorld (100 * day) false []) twoFolders).
  reflexivity.
Defined.

Lemma earliest_extreme t ts : earliest t ts ↔ extremeOf Z.lt t ts.
Proof.
  unfold earliest, extremeOf. split; intros [H0 H1]; (split; [done|]);
    intros Hne; destruct (H1 Hne) as [Hin Hle]; (split; [done|]);
    intros u Hu; specialize (Hle u Hu); lia.
Qed.

Lemma latest_extreme t ts : latest t ts ↔ extremeOf (flip Z.lt) t ts.
Proof.
  unfold latest, extremeOf, flip. split; intros [H0 H1]; (split; [done|]);
    intros Hne; destruct (H1 Hne) as [Hin Hle]; (split; [done|]);
    intros u Hu; specialize (Hle u Hu); lia.
Qed.

Section extreme.
Context (R : relation Z) `{!RelDecision R}.
Hypothesis R_irrefl : ∀ a, ¬ R a a.
Hypothesis R_trans : ∀ a b c, R a b → R b c → R a c.
Hypothesis R_tri : ∀ a b, R a b ∨ a = b ∨ R b a.

Lemma extremeOf_unique t1 t2 ts : extremeOf R t1 ts → extremeOf R t2 ts → t1 = t2.
Proof using R_tri.
  intros [H0 H1] [K0 K1]. destruct ts as [|u ts]; [by rewrite H0, K0|].
  destruct H1 as [Hin1 Hmin1]; [done|]. destruct K1 as [Hin2 Hmin2]; [done|].
  destruct (R_tri t1 t2) as [H|[H|H]]; [|done|].
  - by destruct (Hmin2 _ Hin1).
  - by destruct (Hmin1 _ Hin2).
Qed.

Lemma stepExtreme_ok acc ts t :
  extremeOf R acc ts → (∀ u, u ∈ ts → u ≠ Time.zero) →
  extremeOf R (stepExtreme R acc (Some t)) (ts ++ [t]).
Proof using R_irrefl R_trans R_tri.
  intros [H0 H1] Hnz. split; [by destruct ts|]. intros _. unfold stepExtreme.
  destruct (decide (ts = [])) as [->|Hne].
  - rewrite H0 by done. simpl. split; [apply list_elem_of_here|].
    by intros u ->%list_elem_of_singleton.
  - destruct H1 as [Hin Hmin]; [done|].
    unfold Time.IsZero. rewrite bool_decide_eq_false_2 by (by apply Hnz).
    cbn [orb]. case_bool_decide as HR.
    + split; [apply elem_of_app; right; apply list_elem_of_here|].
      intros u [Hu|Hu%list_elem_of_singleton]%elem_of_app; [|by subst u].
      intros Hut. apply (Hmin u Hu). by eapply R_trans.
    + split; [by apply elem_of_app; left|].
      intros u [Hu|Hu%list_elem_of_singleton]%elem_of_app; [by apply Hmin|by subst u].
Qed.

Lemma fold_extreme os : ∀ acc ts,
  extremeOf R acc ts → (∀ u, u ∈ ts → u ≠ Time.zero) →
  (∀ t, Some t ∈ os → t ≠ Time.zero) →
  extremeOf R (foldl (stepExtreme R) acc os) (ts ++ omap id os).
Proof using R_irrefl R_trans R_tri.
  induction os as [|o os IH]; intros acc ts Hacc Hts Hos.
  - simpl. by rewrite app_nil_r.
  - destruct o as [t|].
    + assert (extremeOf R (foldl (stepExtreme R) (stepExtreme R acc (Some t)) os)
                ((ts ++ [t]) ++ omap id os)) as H.
      { apply IH.
        * by apply stepExtreme_ok.
        * intros u [Hu|Hu%list_elem_of_singleton]%elem_of_app; [by apply Hts|].
          subst u. apply Hos, list_elem_of_here.
        * intros u Hu. by apply Hos, list_elem_of_further. }
      rewrite <- app_assoc in H. exact H.
    + apply (IH acc ts); [done..|]. intros u Hu. by apply Hos, list_elem_of_further.
Qed.

(** The extreme of the extremes of the nonempty groups is the extreme of
    all the groups together. *)
Lemma extremeOf_groups (groups : list (Time.t * list Time.t)) t :
  Forall (λ p, extremeOf R p.1 p.2) groups →
  extremeOf R t ((filter (λ p, p.2 ≠ []) groups).*1) →
  extremeOf R t (groups ≫= snd).
Proof using R_trans R_tri R_irrefl.
  intros Hg [H0 H1].
  assert (∀ u, u ∈ groups ≫= snd →
            ∃ p, p ∈ filter (λ p, p.2 ≠ []) groups ∧ u ∈ p.2) as Hsome.
  { intros u (p & Hu & Hp)%list_elem_of_bind. exists p. split; [|done].
    apply list_elem_of_filter. split; [|done]. intros Hnil. rewrite Hnil in Hu.
    by apply elem_of_nil in Hu. }
  split.
  - intros Hnil. apply H0.
    destruct (filter _ groups) as [|p ps] eqn:Hf; [done|]. exfalso.
    assert (p ∈ filter (λ p, p.2 ≠ []) groups) as Hp by (rewrite Hf; apply list_elem_of_here).
    apply list_elem_of_filter in Hp as [Hne Hp].
    destruct (p.2) as [|u us] eqn:Hp2; [done|].
    assert (u ∈ groups ≫= snd) as Hu.
    { apply list_elem_of_bind. exists p. split; [|done]. rewrite Hp2.
      apply list_elem_of_here. }
    rewrite Hnil in Hu. by apply elem_of_nil in Hu.
  - intros Hne.
    destruct (groups ≫= snd) as [|u0 us] eqn:Hb; [done|].
    destruct (Hsome u0) as (p0 & Hp0 & _); [apply list_elem_of_here|].
    destruct H1 as [Hin Hmin].
    { intros Hnil%fmap_nil_inv. rewrite Hnil in Hp0. by apply elem_of_nil in Hp0. }
    apply list_elem_of_fmap in Hin as (p & -> & Hp).
    apply list_elem_of_filter in Hp as [Hpne Hp].
    rewrite Forall_forall in Hg.
    split.
    + rewrite <- Hb. apply list_elem_of_bind. exists p. split; [|done].
      destruct (Hg p Hp) as [_ Hex]. by destruct (Hex Hpne).
    + intros u Hu. destruct (Hsome u Hu) as (q & Hq & Huq).
      pose proof Hq as Hq'. apply list_elem_of_filter in Hq' as [Hqne Hq'].
      destruct (Hg q Hq') as [_ Hex]. destruct (Hex Hqne) as [_ Hqmin].
      assert (¬ R q.1 p.1) as Hqp.
      { apply Hmin, list_elem_of_fmap. by exists q. }
      intros Hup. specialize (Hqmin u Huq).
      destruct (R_tri q.1 u) as [H|[H|H]]; [|by subst|done].
      apply Hqp. by eapply R_trans.
Qed.
End extreme.

Lemma foldl_add64 xs acc : foldl add64 (wrap64 acc) xs = wrap64 (acc + sumZ xs).
Proof.
  revert acc. induction xs as [|x xs IH]; intros acc; simpl.
  - by rewrite Z.add_0_r.
  - unfold add64 at 2. rewrite wrap64_idemp_l, IH. f_equal. lia.
Qed.

Lemma foldl_add64_0 xs : foldl add64 0 xs = wrap64 (sumZ xs).
Proof. rewrite <- wrap64_0 at 1. by rewrite foldl_add64. Qed.

Lemma sumZ_perm l1 l2 : l1 ≡ₚ l2 → sumZ l1 = sumZ l2.
Proof. induction 1; simpl; lia. Qed.

Lemma foldl_insert_to_list {A} (l : list (string * A)) (m : gmap string A) :
  NoDup l.*1 → (∀ k, k ∈ l.*1 → m !! k = None) →
  map_to_list (foldl (λ m p, <[p.1 := p.2]> m) m l) ≡ₚ map_to_list m ++ l.
Proof.
  revert m. induction l as [|[k v] l IH]; intros m Hnd Hm; simpl.
  - by rewrite app_nil_r.
  - simpl in Hnd. apply NoDup_cons in Hnd as [Hk Hnd].
    rewrite IH; [|done|].
    + rewrite map_to_list_insert by apply Hm, list_elem_of_here.
      by rewrite <- Permutation_middle.
    + intros k' Hk'. rewrite lookup_insert_ne by (intros ->; done).
      by apply Hm, list_elem_of_further.
Qed.

Lemma updateOverall_oldest st g ds ret :
  DeleteStats.OldestRetained (updateOverall st g ds ret)
  = stepExtreme Z.lt (DeleteStats.OldestRetained st) (CreatedAt <$> last ret).
Proof. simpl. by destruct (last ret). Qed.

Lemma updateOverall_newest st g ds ret :
  DeleteStats.NewestRetained (updateOverall st g ds ret)
  = stepExtreme (flip Z.lt) (DeleteStats.NewestRetained st) (CreatedAt <$> head ret).
Proof. simpl. by destruct (head ret). Qed.

Lemma evalFolders_fields rules w folders st :
  evalFolders rules w folders st =
  DeleteStats.mk
    (foldl add64 (DeleteStats.TotalFiles st)
       (DatabaseStats.TotalFiles <$> (perFolder rules w folders).*2))
    (foldl add64 (DeleteStats.DeletedFiles st)
       (DatabaseStats.DeletedFiles <$> (perFolder rules w folders).*2))
    (foldl add64 (DeleteStats.RetainedFiles st)
       (DatabaseStats.RetainedFiles <$> (perFolder rules w folders).*2))
    (foldl add64 (DeleteStats.DeletedSize st)
       (DatabaseStats.DeletedSize <$> (perFolder rules w folders).*2))
    (foldl add64 (DeleteStats.RetainedSize st)
       (DatabaseStats.RetainedSize <$> (perFolder rules w folders).*2))
    (foldl (stepExtreme Z.lt) (DeleteStats.OldestRetained st)
       (oldestMark rules w <$> folders))
    (foldl (stepExtreme (flip Z.lt)) (DeleteStats.NewestRetained st)
       (newestMark rules w <$> folders))
    (foldl (λ m p, <[p.1 := p.2]> m) (DeleteStats.DatabaseStats st)
       (perFolder rules w folders)).
Proof.
  revert st. induction folders as [|[g files] folders IH]; intros st.
  - by destruct st.
  - change (evalFolders rules w ((g, files) :: folders) st)
      with (evalFolders rules w folders (folderStep rules w st g files)).
    rewrite IH, folderStep_eq, updateOverall_oldest, updateOverall_newest.
    reflexivity.
Qed.

(** The folders whose retained slice is not empty are those that report
    [RetainedFiles ≠ 0], and for them the mark is the reported time. *)
Lemma perFolder_cons rules w g files folders :
  (perFolder rules w ((g, files) :: folders)).*2
  = folderStats rules w g files :: (perFolder rules w folders).*2.
Proof. done. Qed.

Lemma oldestMark_kept rules w folders :
  omap id (oldestMark rules w <$> folders)
  = DatabaseStats.OldestRetained
      <$> filter (λ ds, DatabaseStats.RetainedFiles ds ≠ 0) (perFolder rules w folders).*2.
Proof.
  induction folders as [|[g files] folders IH]; [done|].
  rewrite perFolder_cons, filter_cons, fmap_cons.
  change (omap id (oldestMark rules w (g, files) :: (oldestMark rules w <$> folders)))
    with (match oldestMark rules w (g, files) with
          | Some t => t :: omap id (oldestMark rules w <$> folders)
          | None => omap id (oldestMark rules w <$> folders) end).
  rewrite IH. unfold oldestMark, folderStats, databaseStats. simpl.
  destruct (retainSlice w g (folderMarks rules w g files)) as [|f ret _]
    using rev_ind.
  - done.
  - rewrite last_snoc. simpl.
    rewrite decide_True by (unfold len; rewrite length_app; simpl; lia).
    done.
Qed.

Lemma newestMark_kept rules w folders :
  omap id (newestMark rules w <$> folders)
  = DatabaseStats.NewestRetained
      <$> filter (λ ds, DatabaseStats.RetainedFiles ds ≠ 0) (perFolder rules w folders).*2.
Proof.
  induction folders as [|[g files] folders IH]; [done|].
  rewrite perFolder_cons, filter_cons, fmap_cons.
  change (omap id (newestMark rules w (g, files) :: (newestMark rules w <$> folders)))
    with (match newestMark rules w (g, files) with
          | Some t => t :: omap id (newestMark rules w <$> folders)
          | None => omap id (newestMark rules w <$> folders) end).
  rewrite IH. unfold newestMark, folderStats, databaseStats. simpl.
  destruct (retainSlice w g (folderMarks rules w g files)) as [|f ret].
  - done.
  - case_decide as Hlen; [done|].
    unfold len in Hlen. cbn [length] in Hlen. lia.
Qed.

(** The folders a run went through: distinct, and an initial part of the
    order in which [range dbFiles] yields them. *)
Lemma Execute_stats rules dryRun w b st err b' :
  WorldOK w →
  Execute rules dryRun w b = (Some st, err, b') →
  ∃ done, NoDup done.*1 ∧ st = evalFolders rules w done DeleteStats.empty.
Proof.
  intros Hw. unfold Execute.
  destruct (Enabled rules); simpl.
  2:{ intros [= <- _ _]. exists []. split; [constructor|done]. }
  destruct (S3_List w b) as [e0|listing]; [done|].
  destruct (len listing =? 0).
  { intros [= <- _ _]. exists []. split; [constructor|done]. }
  destruct (folderLoop _ _ _ _ _ _) as [[st1 err1] b1] eqn:Hloop.
  intros [= <- _ _].
  apply folderLoop_stats in Hloop as (done & rest & Horder & ->).
  exists done. split; [|done].
  assert (NoDup (rangeFolders w (groupByFolder w listing)).*1) as Hnd.
  { rewrite (rangeFolders_perm w Hw). apply NoDup_fst_map_to_list. }
  rewrite Horder, fmap_app in Hnd. by apply NoDup_app in Hnd as [? _].
Qed.

Lemma Execute_complete rules dryRun w b st b' listing :
  WorldOK w →
  Execute rules dryRun w b = (Some st, None, b') →
  Enabled rules = true → S3_List w b = inr listing →
  st = evaluate rules w listing.
Proof.
  intros Hw Hrun Hen Hlist. unfold Execute in Hrun. rewrite Hen, Hlist in Hrun.
  simpl in Hrun. destruct (len listing =? 0) eqn:Hlen.
  - injection Hrun as <- _. destruct listing; [|done]. by rewrite evaluate_nil.
  - destruct (folderLoop _ _ _ _ _ _) as [[st1 err1] b1] eqn:Hloop.
    injection Hrun as <- -> _. destruct dryRun.
    + rewrite folderLoop_dry in Hloop. by injection Hloop as <- _.
    + by apply folderLoop_live in Hloop as (calls & _ & _ & _ & _ & [-> _]).
Qed.

Lemma filter_all {A} (P : A → Prop) `{∀ x, Decision (P x)} (l : list A) :
  Forall P l → filter P l = l.
Proof.
  induction 1 as [|x l Hx _ IH]; [done|]. by rewrite filter_cons_True, IH.
Qed.

Lemma filter_none {A} (P : A → Prop) `{∀ x, Decision (P x)} (l : list A) :
  Forall (λ x, ¬ P x) l → filter P l = [].
Proof.
  induction 1 as [|x l Hx _ IH]; [done|]. by rewrite filter_cons_False, IH.
Qed.


Section totals.
Context (rules : DeletionRules) (w : World) (Hw : WorldOK w).
Context (folders : list (string * list FileInfo)) (Hnd : NoDup folders.*1).

Lemma evalFolders_map :
  map_to_list (DeleteStats.DatabaseStats (evalFolders rules w folders DeleteStats.empty)) ≡ₚ perFolder rules w folders.
Proof using Hnd.
  rewrite evalFolders_fields. simpl.
  rewrite foldl_insert_to_list.
  - by rewrite map_to_list_empty.
  - unfold perFolder. by rewrite <- list_fmap_compose.
  - intros k _. apply lookup_empty.
Qed.

Lemma evalFolders_lookup g ds :
  DeleteStats.DatabaseStats (evalFolders rules w folders DeleteStats.empty) !! g = Some ds ↔
  ∃ files, (g, files) ∈ folders ∧ ds = folderStats rules w g files.
Proof using Hnd.
  rewrite <- elem_of_map_to_list, evalFolders_map. unfold perFolder.
  rewrite list_elem_of_fmap. split.
  - intros ([g' files] & [= -> ->] & Hin). by exists files.
  - intros (files & Hin & ->). by exists (g, files).
Qed.

Lemma evalFolders_sums (F : DatabaseStats.t → Z) :
  wrap64 (sumZ (F <$> (perFolder rules w folders).*2))
  = wrap64 (sumZ (F <$> (map_to_list (DeleteStats.DatabaseStats (evalFolders rules w folders DeleteStats.empty))).*2)).
Proof using Hnd. f_equal. apply sumZ_perm. by rewrite evalFolders_map. Qed.

Lemma evalFolders_kept_perm :
  filter (λ ds, DatabaseStats.RetainedFiles ds ≠ 0)
    (map_to_list (DeleteStats.DatabaseStats (evalFolders rules w folders DeleteStats.empty))).*2
  ≡ₚ filter (λ ds, DatabaseStats.RetainedFiles ds ≠ 0) (perFolder rules w folders).*2.
Proof using Hnd. by rewrite evalFolders_map. Qed.

Lemma evalFolders_earliest :
  (∀ t, Some t ∈ oldestMark rules w <$> folders → t ≠ Time.zero) →
  earliest (DeleteStats.OldestRetained (evalFolders rules w folders DeleteStats.empty)) (omap id (oldestMark rules w <$> folders)).
Proof using Type.
  intros Hnz. rewrite evalFolders_fields. simpl.
  apply earliest_extreme.
  apply (fold_extreme Z.lt Z.lt_irrefl Z.lt_trans Z.lt_total _ Time.zero []);
    [by split|by intros ? ?%elem_of_nil|done].
Qed.

Lemma evalFolders_latest :
  (∀ t, Some t ∈ newestMark rules w <$> folders → t ≠ Time.zero) →
  latest (DeleteStats.NewestRetained (evalFolders rules w folders DeleteStats.empty)) (omap id (newestMark rules w <$> folders)).
Proof using Type.
  intros Hnz. rewrite evalFolders_fields. simpl.
  apply latest_extreme.
  assert (∀ a, ¬ flip Z.lt a a) as Hirr by (unfold flip; intros; lia).
  assert (∀ a b c, flip Z.lt a b → flip Z.lt b c → flip Z.lt a c) as Htr
    by (unfold flip; intros; lia).
  assert (∀ a b, flip Z.lt a b ∨ a = b ∨ flip Z.lt b a) as Htri
    by (unfold flip; intros; lia).
  apply (fold_extreme (flip Z.lt) Hirr Htr Htri _ Time.zero []);
    [by split|by intros ? ?%elem_of_nil|done].
Qed.
End totals.

Lemma sum64_exact l : - 2 ^ 63 ≤ sumZ l < 2 ^ 63 → sum64 l = sumZ l.
Proof. apply wrap64_small. Qed.

(** Folder [a] is visited before folder [b]: when [b] is reached the overall
    oldest time is the zero time of [a/x], which reads as "not set", and is
    replaced by the later time of [b/y]. *)
Lemma aggregateClaim_fails_on_zero_time :
  let w := plainWorld (100 * day) false [] in
  let r := Execute (mkRules 0 1 true) true w zeroStamp in
  WorldOK w ∧ r.1.2 = None ∧
  ∃ st, r.1.1 = Some st ∧
        DatabaseStats.OldestRetained <$> withRetained st = [Time.zero; 5 * day] ∧
        DeleteStats.OldestRetained st = 5 * day ∧
        ¬ aggregateClaim st.
Proof.
  split; [apply plainWorld_ok|]. split; [by vm_compute|].
  eexists. split; [by vm_compute|]. split; [by vm_compute|]. split; [by vm_compute|].
  intros (_ & [_ Hmin] & _).
  destruct Hmin as [_ Hmin]; [by vm_compute|].
  specialize (Hmin Time.zero ltac:(by vm_compute; apply list_elem_of_here)).
  by vm_compute in Hmin.
Qed.

(** C10, amended. In the statistics a run returns, whether it is a dry run
    or not and whether it went through all folders or stopped at a failed
    deletion, every overall count and size is the 64-bit sum of the
    per-database values (the exact sum when that lies in the 64-bit range).
    The overall oldest (newest) retained time is the least (greatest) of
    the per-database ones over the folders with a retained file, provided
    none of these is the zero time. *)
Theorem aggregate_sums_folders rules dryRun w b st err b' :
  WorldOK w →
  Execute rules dryRun w b = (Some st, err, b') →
  totalsAreSums st ∧
  (Forall (λ ds, DatabaseStats.OldestRetained ds ≠ Time.zero) (withRetained st) →
     earliest (DeleteStats.OldestRetained st)
       (DatabaseStats.OldestRetained <$> withRetained st)) ∧
  (Forall (λ ds, DatabaseStats.NewestRetained ds ≠ Time.zero) (withRetained st) →
     latest (DeleteStats.NewestRetained st)
       (DatabaseStats.NewestRetained <$> withRetained st)).
Proof.
  intros Hw Hrun.
  destruct (Execute_stats rules dryRun w b st err b' Hw Hrun) as (done & Hnd & ->).
  pose proof (evalFolders_kept_perm rules w done Hnd) as Hkept.
  split; [|split].
  - unfold totalsAreSums, perDatabase, sum64.
    rewrite <- !(evalFolders_sums rules w done Hnd).
    rewrite evalFolders_fields. simpl. by rewrite !foldl_add64_0.
  - intros Hnz. unfold withRetained, perDatabase in *.
    eapply earliest_perm; [by rewrite Hkept|].
    rewrite <- oldestMark_kept. apply evalFolders_earliest.
    intros t Ht.
    assert (t ∈ omap id (oldestMark rules w <$> done)) as Hin.
    { apply list_elem_of_omap. by exists (Some t). }
    rewrite oldestMark_kept, <- Hkept in Hin.
    apply list_elem_of_fmap in Hin as (ds & -> & Hds).
    rewrite Forall_forall in Hnz. by apply Hnz.
  - intros Hnz. unfold withRetained, perDatabase in *.
    eapply latest_perm; [by rewrite Hkept|].
    rewrite <- newestMark_kept. apply evalFolders_latest.
    intros t Ht.
    assert (t ∈ omap id (newestMark rules w <$> done)) as Hin.
    { apply list_elem_of_omap. by exists (Some t). }
    rewrite newestMark_kept, <- Hkept in Hin.
    apply list_elem_of_fmap in Hin as (ds & -> & Hds).
    rewrite Forall_forall in Hnz. by apply Hnz.
Qed.

Lemma aggregate_sums_folders_witness :
  let rules := mkRules 30 0 true in
  let w := plainWorld (100 * day) false ["db/2024-01-02"] in
  let st := evaluate rules w (objects twoFolders) in
  totalsAreSums st ∧
  (Forall (λ ds, DatabaseStats.OldestRetained ds ≠ Time.zero) (withRetained st) →
     earliest (DeleteStats.OldestRetained st)
       (DatabaseStats.OldestRetained <$> withRetained st)) ∧
  (Forall (λ ds, DatabaseStats.NewestRetained ds ≠ Time.zero) (withRetained st) →
     latest (DeleteStats.NewestRetained st)
       (DatabaseStats.NewestRetained <$> withRetained st)).
Proof.
  apply (aggregate_sums_folders (mkRules 30 0 true) true
           (plainWorld (100 * day) false ["db/2024-01-02"]) twoFolders _ None twoFolders).
  - apply plainWorld_ok.
  - by vm_compute.
Defined.

Section retained.
Context (rules : DeletionRules) (w : World) (Hw : WorldOK w).

Lemma retainSlice_nil g m : retainSlice w g m = [] ↔ filesOf (filesToRetain m) = [].
Proof using Hw.
  pose proof (retainSlice_perm w Hw g m) as Hp. split; intros H.
  - rewrite H in Hp. by apply Permutation_nil_l in Hp.
  - rewrite H in Hp. by apply Permutation_nil_r in Hp.
Qed.

Lemma oldestGroup_marks folders :
  (filter (λ p, p.2 ≠ []) (oldestGroup rules w <$> folders)).*1
  = omap id (oldestMark rules w <$> folders).
Proof using Hw.
  induction folders as [|[g files] folders IH]; [done|].
  rewrite !fmap_cons, filter_cons.
  change (omap id (oldestMark rules w (g, files) :: (oldestMark rules w <$> folders)))
    with (match oldestMark rules w (g, files) with
          | Some t => t :: omap id (oldestMark rules w <$> folders)
          | None => omap id (oldestMark rules w <$> folders) end).
  rewrite <- IH. unfold oldestGroup at 1 2, oldestMark, folderStats, databaseStats.
  cbn [fst snd DatabaseStats.OldestRetained].
  pose proof (retainSlice_nil g (folderMarks rules w g files)) as Hnil.
  destruct (last (retainSlice w g (folderMarks rules w g files))) as [f|] eqn:Hlast.
  - rewrite decide_True.
    { rewrite fmap_cons. unfold oldestGroup at 1, folderStats, databaseStats.
      simpl. by rewrite Hlast. }
    intros H%fmap_nil_inv. apply Hnil in H. by rewrite H in Hlast.
  - rewrite decide_False; [done|].
    intros H. apply H. apply last_None in Hlast. apply Hnil in Hlast.
    unfold oldestGroup. simpl. by rewrite Hlast.
Qed.

Lemma newestGroup_marks folders :
  (filter (λ p, p.2 ≠ []) (newestGroup rules w <$> folders)).*1
  = omap id (newestMark rules w <$> folders).
Proof using Hw.
  induction folders as [|[g files] folders IH]; [done|].
  rewrite !fmap_cons, filter_cons.
  change (omap id (newestMark rules w (g, files) :: (newestMark rules w <$> folders)))
    with (match newestMark rules w (g, files) with
          | Some t => t :: omap id (newestMark rules w <$> folders)
          | None => omap id (newestMark rules w <$> folders) end).
  rewrite <- IH. unfold newestGroup at 1 2, newestMark, folderStats, databaseStats.
  cbn [fst snd DatabaseStats.NewestRetained].
  pose proof (retainSlice_nil g (folderMarks rules w g files)) as Hnil.
  destruct (head (retainSlice w g (folderMarks rules w g files))) as [f|] eqn:Hhead.
  - rewrite decide_True.
    { rewrite fmap_cons. unfold newestGroup at 1, folderStats, databaseStats.
      simpl. by rewrite Hhead. }
    intros H%fmap_nil_inv. apply Hnil in H. by rewrite H in Hhead.
  - rewrite decide_False; [done|].
    intros H. apply H. apply head_None in Hhead. apply Hnil in Hhead.
    unfold newestGroup. simpl. by rewrite Hhead.
Qed.

Lemma oldestGroup_all folders :
  (oldestGroup rules w <$> folders) ≫= snd = CreatedAt <$> keptFiles rules w folders.
Proof using Type.
  unfold keptFiles. induction folders as [|[g files] folders IH]; [done|].
  rewrite fmap_cons, !bind_cons, fmap_app, IH. done.
Qed.

Lemma newestGroup_all folders :
  (newestGroup rules w <$> folders) ≫= snd = CreatedAt <$> keptFiles rules w folders.
Proof using Type.
  unfold keptFiles. induction folders as [|[g files] folders IH]; [done|].
  rewrite fmap_cons, !bind_cons, fmap_app, IH. done.
Qed.

Lemma mark_in_kept folders (pick : list FileInfo → option FileInfo) t :
  (∀ l f, pick l = Some f → f ∈ l) →
  Some t ∈ (λ gf, CreatedAt <$> pick (retainSlice w gf.1 (folderMarks rules w gf.1 gf.2)))
             <$> folders →
  ∃ f, f ∈ keptFiles rules w folders ∧ CreatedAt f = t.
Proof using Hw.
  intros Hpick ([g files] & Heq & Hin)%list_elem_of_fmap. simpl in Heq.
  destruct (pick _) as [f|] eqn:Hp; [|done]. injection Heq as ->.
  exists f. split; [|done]. apply list_elem_of_bind. exists (g, files).
  split; [|done]. simpl. rewrite <- (retainSlice_perm w Hw g). by apply Hpick.
Qed.

(** Over distinct folders, and when no retained file carries the zero
    time, the overall times are those of the oldest and of the newest
    retained file. *)
Lemma evalFolders_oldest_newest folders :
  (∀ f, f ∈ keptFiles rules w folders → CreatedAt f ≠ Time.zero) →
  let st := evalFolders rules w folders DeleteStats.empty in
  oldestOf (DeleteStats.OldestRetained st) (keptFiles rules w folders) ∧
  newestOf (DeleteStats.NewestRetained st) (keptFiles rules w folders).
Proof using Hw.
  intros Hnz. simpl. split.
  - unfold oldestOf. apply earliest_extreme. rewrite <- oldestGroup_all.
    apply (extremeOf_groups Z.lt Z.lt_irrefl Z.lt_trans Z.lt_total).
    + apply Forall_fmap, Forall_forall. intros [g files] _. simpl.
      apply earliest_extreme, (folderStats_oldest w Hw).
    + rewrite oldestGroup_marks. apply earliest_extreme, evalFolders_earliest.
      intros t Ht. destruct (mark_in_kept folders last t) as (f & Hf & <-).
      * intros l f. apply last_Some_elem_of.
      * exact Ht.
      * by apply Hnz.
  - unfold newestOf. apply latest_extreme. rewrite <- newestGroup_all.
    apply (extremeOf_groups (flip Z.lt)); unfold flip;
      [intros; lia|intros; lia|intros; lia| |].
    + apply Forall_fmap, Forall_forall. intros [g files] _. simpl.
      apply latest_extreme, (folderStats_newest w Hw).
    + rewrite newestGroup_marks. apply latest_extreme, evalFolders_latest.
      intros t Ht. destruct (mark_in_kept folders head t) as (f & Hf & <-).
      * intros l f Hh. destruct l; [done|]. injection Hh as ->.
        apply list_elem_of_here.
      * exact Ht.
      * by apply Hnz.
Qed.
End retained.




(** [zeroStamp] evaluated with the folders visited in one order and in the
    other: the overall oldest retained time differs. *)
Lemma reproducibleClaim_fails_on_zero_time :
  ¬ reproducibleClaim (mkRules 0 1 true) (objects zeroStamp).
Proof.
  intros H.
  destruct (H (plainWorld (100 * day) false []) (plainWorld (100 * day) true []))
    as [_ Heq]; [apply plainWorld_ok..|by repeat split|].
  apply (f_equal DeleteStats.OldestRetained) in Heq.
  by vm_compute in Heq.
Qed.

Lemma groupLoop_ext w1 w2 l m :
  (∀ k, Dir w1 k = Dir w2 k) → groupLoop w1 l m = groupLoop w2 l m.
Proof.
  intros Hdir. revert m. induction l as [|f l IH]; intros m; simpl; [done|].
  by rewrite Hdir, IH.
Qed.

Lemma folderMarks_ext rules w1 w2 g files :
  sameInputs w1 w2 → folderMarks rules w1 g files = folderMarks rules w2 g files.
Proof.
  intros (_ & Hsort & Hnow & Hdate). unfold folderMarks, classify.
  by rewrite Hsort, Hnow, Hdate.
Qed.

Lemma earliest_unique t1 t2 ts : earliest t1 ts → earliest t2 ts → t1 = t2.
Proof.
  intros H1%earliest_extreme H2%earliest_extreme.
  by apply (extremeOf_unique Z.lt Z.lt_total t1 t2 ts).
Qed.

Lemma latest_unique t1 t2 ts : latest t1 ts → latest t2 ts → t1 = t2.
Proof.
  intros H1%latest_extreme H2%latest_extreme.
  apply (extremeOf_unique (flip Z.lt)) with (ts := ts); [|done..].
  unfold flip. intros a b. lia.
Qed.

Lemma folderStats_ext rules w1 w2 g files :
  WorldOK w1 → WorldOK w2 → sameInputs w1 w2 →
  folderStats rules w1 g files = folderStats rules w2 g files.
Proof.
  intros Hw1 Hw2 Hsame.
  pose proof (folderStats_oldest w1 Hw1 rules g files) as Ho1.
  pose proof (folderStats_oldest w2 Hw2 rules g files) as Ho2.
  pose proof (folderStats_newest w1 Hw1 rules g files) as Hn1.
  pose proof (folderStats_newest w2 Hw2 rules g files) as Hn2.
  unfold folderStats in *.
  rewrite (folderMarks_ext rules w1 w2 g files Hsame) in Ho1, Hn1 |- *.
  pose proof (earliest_unique _ _ _ Ho1 Ho2) as Ho.
  pose proof (latest_unique _ _ _ Hn1 Hn2) as Hn.
  unfold databaseStats in *. simpl in Ho, Hn.
  set (m := folderMarks rules w2 g files) in *.
  assert (deleteSlice w1 g m ≡ₚ deleteSlice w2 g m) as Hd.
  { by rewrite !deleteSlice_perm. }
  assert (retainSlice w1 g m ≡ₚ retainSlice w2 g m) as Hr.
  { by rewrite !retainSlice_perm. }
  by rewrite Ho, Hn, (len_perm _ _ Hd), (len_perm _ _ Hr),
    (sumSizes_perm _ _ Hd), (sumSizes_perm _ _ Hr).
Qed.

Lemma perFolder_ext rules w1 w2 folders :
  WorldOK w1 → WorldOK w2 → sameInputs w1 w2 →
  perFolder rules w1 folders = perFolder rules w2 folders.
Proof.
  intros Hw1 Hw2 Hsame. unfold perFolder. apply list_fmap_ext.
  intros i gf _. by rewrite (folderStats_ext rules w1 w2).
Qed.

Lemma keptFiles_ext rules w1 w2 folders :
  sameInputs w1 w2 → keptFiles rules w1 folders = keptFiles rules w2 folders.
Proof.
  intros Hsame. unfold keptFiles. induction folders as [|gf folders IH]; [done|].
  by rewrite !bind_cons, IH, (folderMarks_ext rules w1 w2).
Qed.

Lemma perFolder_perm rules w l1 l2 :
  l1 ≡ₚ l2 → perFolder rules w l1 ≡ₚ perFolder rules w l2.
Proof. intros H. unfold perFolder. by rewrite H. Qed.

Lemma DeleteStats_ext (s1 s2 : DeleteStats.t) :
  DeleteStats.TotalFiles s1 = DeleteStats.TotalFiles s2 →
  DeleteStats.DeletedFiles s1 = DeleteStats.DeletedFiles s2 →
  DeleteStats.RetainedFiles s1 = DeleteStats.RetainedFiles s2 →
  DeleteStats.DeletedSize s1 = DeleteStats.DeletedSize s2 →
  DeleteStats.RetainedSize s1 = DeleteStats.RetainedSize s2 →
  DeleteStats.OldestRetained s1 = DeleteStats.OldestRetained s2 →
  DeleteStats.NewestRetained s1 = DeleteStats.NewestRetained s2 →
  DeleteStats.DatabaseStats s1 = DeleteStats.DatabaseStats s2 →
  s1 = s2.
Proof. destruct s1, s2; simpl; congruence. Qed.

(** C7, amended. Take one listing, one policy and one clock in one time
    zone, and two runs of the evaluator that may visit every map in a
    different order. They group
    the files alike, compute the same Keep and Delete sets for every
    folder (ties in the creation time fall as [sort.Slice] leaves them for
    this listing), the same per-database statistics and the same overall
    counts and sizes; when no kept file has the zero time as its creation
    time, the whole statistics are equal. *)
Theorem evaluation_is_reproducible rules w1 w2 listing :
  WorldOK w1 → WorldOK w2 → sameInputs w1 w2 →
  let st1 := evaluate rules w1 listing in
  let st2 := evaluate rules w2 listing in
  groupByFolder w1 listing = groupByFolder w2 listing ∧
  (∀ g files, folderMarks rules w1 g files = folderMarks rules w2 g files) ∧
  DeleteStats.DatabaseStats st1 = DeleteStats.DatabaseStats st2 ∧
  DeleteStats.TotalFiles st1 = DeleteStats.TotalFiles st2 ∧
  DeleteStats.DeletedFiles st1 = DeleteStats.DeletedFiles st2 ∧
  DeleteStats.RetainedFiles st1 = DeleteStats.RetainedFiles st2 ∧
  DeleteStats.DeletedSize st1 = DeleteStats.DeletedSize st2 ∧
  DeleteStats.RetainedSize st1 = DeleteStats.RetainedSize st2 ∧
  ((∀ f, f ∈ keptFiles rules w1 (map_to_list (groupByFolder w1 listing)) →
         CreatedAt f ≠ Time.zero) →
   st1 = st2).
Proof.
  intros Hw1 Hw2 Hsame. simpl.
  assert (groupByFolder w1 listing = groupByFolder w2 listing) as Hgroup.
  { apply groupLoop_ext, Hsame. }
  unfold evaluate. rewrite <- Hgroup.
  set (G := groupByFolder w1 listing).
  pose proof (rangeFolders_perm w1 Hw1 G) as Hp1.
  pose proof (rangeFolders_perm w2 Hw2 G) as Hp2.
  assert (NoDup (rangeFolders w1 G).*1) as Hnd1
    by (rewrite Hp1; apply NoDup_fst_map_to_list).
  assert (NoDup (rangeFolders w2 G).*1) as Hnd2
    by (rewrite Hp2; apply NoDup_fst_map_to_list).
  assert (perFolder rules w1 (rangeFolders w1 G)
          ≡ₚ perFolder rules w2 (rangeFolders w2 G)) as Hper.
  { rewrite (perFolder_ext rules w1 w2) by done.
    apply perFolder_perm. by rewrite Hp1, Hp2. }
  assert (∀ F : DatabaseStats.t → Z,
            foldl add64 0 (F <$> (perFolder rules w1 (rangeFolders w1 G)).*2)
            = foldl add64 0 (F <$> (perFolder rules w2 (rangeFolders w2 G)).*2)) as Hsum.
  { intros F. rewrite !foldl_add64_0. f_equal. apply sumZ_perm. by rewrite Hper. }
  assert (DeleteStats.DatabaseStats (evalFolders rules w1 (rangeFolders w1 G) DeleteStats.empty)
          = DeleteStats.DatabaseStats
              (evalFolders rules w2 (rangeFolders w2 G) DeleteStats.empty)) as Hmap.
  { apply map_to_list_inj.
    by rewrite (evalFolders_map rules w1 _ Hnd1), (evalFolders_map rules w2 _ Hnd2). }
  split; [done|]. split; [intros; by apply folderMarks_ext|].
  split; [done|].
  rewrite !evalFolders_fields in *. simpl in *.
  split; [apply Hsum|]. split; [apply Hsum|]. split; [apply Hsum|].
  split; [apply Hsum|]. split; [apply Hsum|].
  intros Hnz.
  assert (keptFiles rules w1 (rangeFolders w1 G)
          ≡ₚ keptFiles rules w2 (rangeFolders w2 G)) as Hkept.
  { rewrite (keptFiles_ext rules w1 w2) by done. unfold keptFiles.
    by rewrite Hp1, Hp2. }
  assert (keptFiles rules w1 (rangeFolders w1 G)
          ≡ₚ keptFiles rules w1 (map_to_list G)) as Hk1.
  { unfold keptFiles. by rewrite Hp1. }
  destruct (evalFolders_oldest_newest rules w1 Hw1 (rangeFolders w1 G)) as [Ho1 Hn1].
  { intros f Hf. apply Hnz. by rewrite <- Hk1. }
  destruct (evalFolders_oldest_newest rules w2 Hw2 (rangeFolders w2 G)) as [Ho2 Hn2].
  { intros f Hf. apply Hnz. by rewrite <- Hk1, Hkept. }
  rewrite !evalFolders_fields in Ho1, Hn1, Ho2, Hn2. simpl in Ho1, Hn1, Ho2, Hn2.
  apply DeleteStats_ext; simpl; try apply Hsum; [| |done].
  - eapply earliest_unique; [|exact Ho2]. eapply oldestOf_perm; [exact Hkept|exact Ho1].
  - eapply latest_unique; [|exact Hn2]. eapply newestOf_perm; [exact Hkept|exact Hn1].
Qed.

Lemma evaluation_is_reproducible_witness :
  let rules := mkRules 30 0 true in
  let w1 := plainWorld (100 * day) false [] in
  let w2 := plainWorld (100 * day) true ["db/2024-01-02"] in
  let listing := objects twoFolders in
  let st1 := evaluate rules w1 listing in
  let st2 := evaluate rules w2 listing in
  groupByFolder w1 listing = groupByFolder w2 listing ∧
  (∀ g files, folderMarks rules w1 g files = folderMarks rules w2 g files) ∧
  DeleteStats.DatabaseStats st1 = DeleteStats.DatabaseStats st2 ∧
  DeleteStats.TotalFiles st1 = DeleteStats.TotalFiles st2 ∧
  DeleteStats.DeletedFiles st1 = DeleteStats.DeletedFiles st2 ∧
  DeleteStats.RetainedFiles st1 = DeleteStats.RetainedFiles st2 ∧
  DeleteStats.DeletedSize st1 = DeleteStats.DeletedSize st2 ∧
  DeleteStats.RetainedSize st1 = DeleteStats.RetainedSize st2 ∧
  ((∀ f, f ∈ keptFiles rules w1 (map_to_list (groupByFolder w1 listing)) →
         CreatedAt f ≠ Time.zero) →
   st1 = st2).
Proof.
  apply (evaluation_is_reproducible (mkRules 30 0 true)
           (plainWorld (100 * day) false []) (plainWorld (100 * day) true ["db/2024-01-02"])
           (objects twoFolders)).
  - apply plainWorld_ok.
  - apply plainWorld_ok.
  - by repeat split.
Defined.

(** The end-to-end scenario of the specification, run: the backup of forty
    days ago is deleted, the two others are retained, and the oldest
    retained time is that of the backup of ten days ago. *)
Example end_to_end_scenario :
  Execute (mkRules 30 0 true) false (plainWorld (100 * day) false [])
    (mkBucket threeBackups [])
  = (Some (DeleteStats.mk 3 1 2 10 50 (90 * day) (98 * day)
             {[ "db" := DatabaseStats.mk 3 1 2 10 50 (90 * day) (98 * day) ]}),
     None,
     mkBucket [ mkFile "db/2024-02-01" (90 * day) 20; mkFile "db/2024-02-05" (98 * day) 30 ]
              [ ("db/2024-01-01", None) ]).
Proof. by vm_compute. Qed.

(** The same bucket in a dry run: same statistics, nothing deleted. *)
Example end_to_end_dry_run :
  Execute (mkRules 30 0 true) true (plainWorld (100 * day) false [])
    (mkBucket threeBackups [])
  = (Some (DeleteStats.mk 3 1 2 10 50 (90 * day) (98 * day)
             {[ "db" := DatabaseStats.mk 3 1 2 10 50 (90 * day) (98 * day) ]}),
     None,
     mkBucket threeBackups []).
Proof. by vm_compute. Qed.

(** The fail-fast scenario: of three planned deletions the second fails; one
    object is gone, the third deletion, in the next folder, is never tried,
    and the statistics returned with the error are those of the first folder
    alone. *)
Example fail_fast_scenario :
  Execute (mkRules 30 0 true) false (plainWorld (100 * day) false ["db/2024-01-02"])
    twoFolders
  = (Some (DeleteStats.mk 3 2 1 25 30 (98 * day) (98 * day)
             {[ "db" := DatabaseStats.mk 3 2 1 25 30 (98 * day) (98 * day) ]}),
     Some (FailedToDeleteFile "db/2024-01-02" (S3Error "access denied")),
     mkBucket
       [ mkFile "db/2024-01-02" (61 * day) 15; mkFile "db/2024-02-05" (98 * day) 30;
         mkFile "pg/2024-01-01" (60 * day) 1; mkFile "pg/2024-02-05" (98 * day) 2 ]
       [ ("db/2024-01-01", None);
         ("db/2024-01-02", Some (S3Error "access denied")) ]).
Proof. by vm_compute. Qed.

(** The example of the specification for both rules together, run with
    [max_age_days: 30] and [max_count: 3]: every backup is older than thirty
    days, the three newest are retained all the same. *)
Example count_rule_keeps_old_backups :
  Execute (mkRules 30 3 true) false (plainWorld (100 * day) false [])
    (mkBucket fiveOld [])
  = (Some (DeleteStats.mk 5 2 3 300 1200 (30 * day) (50 * day)
             {[ "db" := DatabaseStats.mk 5 2 3 300 1200 (30 * day) (50 * day) ]}),
     None,
     mkBucket [ mkFile "db/c" (30 * day) 300; mkFile "db/d" (40 * day) 400;
                mkFile "db/e" (50 * day) 500 ]
              [ ("db/a", None); ("db/b", None) ]).
Proof. by vm_compute. Qed.

(** * Properties of the rest of the code *)

(** ** Runs that go through all folders *)

Lemma sumZ_app l1 l2 : sumZ (l1 ++ l2) = sumZ l1 + sumZ l2.
Proof. unfold sumZ. induction l1 as [|x l1 IH]; simpl; lia. Qed.

Lemma len_app {A} (l1 l2 : list A) : len (l1 ++ l2) = len l1 + len l2.
Proof. unfold len. rewrite length_app. lia. Qed.

Lemma len_nonneg {A} (l : list A) : 0 ≤ len l.
Proof. unfold len. lia. Qed.

Lemma sumZ_len_bind {A B} (T : A → list B) (l : list A) :
  sumZ ((λ a, len (T a)) <$> l) = len (l ≫= T).
Proof.
  induction l as [|a l IH]; [done|].
  rewrite fmap_cons, bind_cons, len_app. simpl. by rewrite IH.
Qed.

Lemma totalSize_app l1 l2 : totalSize (l1 ++ l2) = totalSize l1 + totalSize l2.
Proof. unfold totalSize. induction l1 as [|x l1 IH]; simpl; lia. Qed.

Lemma wrap64_sumZ_wrap64 xs : wrap64 (sumZ (wrap64 <$> xs)) = wrap64 (sumZ xs).
Proof.
  induction xs as [|x xs IH]; [done|].
  rewrite fmap_cons. simpl.
  rewrite wrap64_idemp_l, <- wrap64_idemp_r, IH, wrap64_idemp_r. done.
Qed.

Lemma sumZ_totalSize_bind {A} (T : A → list FileInfo) (l : list A) :
  sumZ ((λ a, totalSize (T a)) <$> l) = totalSize (l ≫= T).
Proof.
  induction l as [|a l IH]; [done|].
  rewrite fmap_cons, bind_cons, totalSize_app. simpl. by rewrite IH.
Qed.

(** The counts and sizes of the statistics of a list of folders, in terms of
    the Keep and the Delete sets. *)
Lemma evalFolders_counts rules w folders :
  WorldOK w →
  let st := evalFolders rules w folders DeleteStats.empty in
  DeleteStats.TotalFiles st = wrap64 (len (folders ≫= snd)) ∧
  DeleteStats.RetainedFiles st = wrap64 (len (keptFiles rules w folders)) ∧
  DeleteStats.DeletedFiles st = wrap64 (len (deletedFiles rules w folders)) ∧
  DeleteStats.RetainedSize st = wrap64 (totalSize (keptFiles rules w folders)) ∧
  DeleteStats.DeletedSize st = wrap64 (totalSize (deletedFiles rules w folders)).
Proof.
  intros Hw. simpl. rewrite evalFolders_fields. simpl. rewrite !foldl_add64_0.
  unfold perFolder. rewrite <- !list_fmap_compose.
  unfold keptFiles, deletedFiles.
  rewrite <- !sumZ_len_bind, <- !sumZ_totalSize_bind.
  split; [|split; [|split; [|split]]].
  - done.
  - apply (f_equal wrap64), (f_equal sumZ), list_fmap_ext. intros _ [g files] _. simpl.
    apply len_perm, (retainSlice_perm w Hw).
  - apply (f_equal wrap64), (f_equal sumZ), list_fmap_ext. intros _ [g files] _. simpl.
    apply len_perm, (deleteSlice_perm w Hw).
  - etrans; [|apply wrap64_sumZ_wrap64]. rewrite <- list_fmap_compose.
    apply (f_equal wrap64), (f_equal sumZ), list_fmap_ext. intros _ [g files] _. simpl.
    rewrite sumSizes_total. f_equal. apply totalSize_perm, (retainSlice_perm w Hw).
  - etrans; [|apply wrap64_sumZ_wrap64]. rewrite <- list_fmap_compose.
    apply (f_equal wrap64), (f_equal sumZ), list_fmap_ext. intros _ [g files] _. simpl.
    rewrite sumSizes_total. f_equal. apply totalSize_perm, (deleteSlice_perm w Hw).
Qed.

Lemma removeKeys_ext ks1 ks2 l :
  (∀ k, k ∈ ks1 ↔ k ∈ ks2) → removeKeys ks1 l = removeKeys ks2 l.
Proof.
  intros H. unfold removeKeys. apply list_filter_iff. intros f. by rewrite H.
Qed.

Lemma removeKeys_sublist ks l : removeKeys ks l `sublist_of` l.
Proof. apply sublist_filter. Qed.

(** Taking the keys of one part away from a listing with distinct keys
    leaves the other part. *)
Lemma removeKeys_complement K D L :
  K ++ D ≡ₚ L → NoDup (keys L) → removeKeys (keys D) L ≡ₚ K.
Proof.
  intros Hp Hnd. unfold removeKeys. rewrite <- Hp.
  rewrite <- (keys_perm _ _ Hp) in Hnd. unfold keys in Hnd. rewrite fmap_app in Hnd.
  apply NoDup_app in Hnd as (_ & Hdisj & _).
  rewrite filter_app.
  assert (filter (λ f, Key f ∉ keys D) K = K) as ->.
  { apply filter_all, Forall_forall. intros f Hf. apply Hdisj, keys_elem. eauto. }
  assert (filter (λ f, Key f ∉ keys D) D = []) as ->.
  { apply filter_none, Forall_forall. intros f Hf Hno.
    apply Hno, keys_elem. eauto. }
  by rewrite app_nil_r.
Qed.

Lemma keys_bind {A} (T : A → list FileInfo) (l : list A) :
  keys (l ≫= T) = l ≫= (λ a, keys (T a)).
Proof.
  unfold keys. induction l as [|a l IH]; [done|].
  by rewrite !bind_cons, fmap_app, IH.
Qed.

Lemma bind_perm_ext {A B} (f g : A → list B) (l : list A) :
  (∀ a, a ∈ l → f a ≡ₚ g a) → l ≫= f ≡ₚ l ≫= g.
Proof.
  induction l as [|a l IH]; intros H; [done|].
  rewrite !bind_cons, (H a) by apply list_elem_of_here.
  by rewrite IH by (intros; by apply H, list_elem_of_further).
Qed.

(** The plan holds the keys of the Delete sets. *)
Lemma plan_deleted rules w folders :
  WorldOK w → plan rules w folders ≡ₚ keys (deletedFiles rules w folders).
Proof.
  intros Hw. unfold plan, deletedFiles. rewrite keys_bind.
  apply bind_perm_ext. intros [g files] _. simpl.
  apply keys_perm, (deleteSlice_perm w Hw).
Qed.

Lemma keptFiles_perm rules w l1 l2 :
  l1 ≡ₚ l2 → keptFiles rules w l1 ≡ₚ keptFiles rules w l2.
Proof. intros H. unfold keptFiles. by rewrite H. Qed.

Lemma deletedFiles_perm rules w l1 l2 :
  l1 ≡ₚ l2 → deletedFiles rules w l1 ≡ₚ deletedFiles rules w l2.
Proof. intros H. unfold deletedFiles. by rewrite H. Qed.

(** With a rule enabled, the Keep and Delete sets of the folders hold the
    listing. *)
Lemma kept_deleted_cover rules w listing :
  WorldOK w → NoDup (keys listing) →
  0 < MaxAgeDays rules ∨ 0 < MaxCount rules →
  let folders := map_to_list (groupByFolder w listing) in
  keptFiles rules w folders ++ deletedFiles rules w folders ≡ₚ listing.
Proof.
  intros Hw Hkeys Hrule. simpl.
  rewrite <- (groups_cover_listing w listing) at 3.
  apply bind_split_perm. intros [g files] Hin%elem_of_map_to_list.
  by apply (folderMarks_files w Hw listing Hkeys g files Hin).
Qed.

(** What a live run that met no error did to the bucket. *)
Lemma Execute_live_ok rules w b st b' :
  WorldOK w → Enabled rules = true →
  Execute rules false w b = (Some st, None, b') →
  let folders := rangeFolders w (groupByFolder w (objects b)) in
  S3_List w b = inr (objects b) ∧
  st = evalFolders rules w folders DeleteStats.empty ∧
  objects b' = removeKeys (plan rules w folders) (objects b) ∧
  deleteCalls b' = deleteCalls b ++ ((λ k, (k, None)) <$> plan rules w folders).
Proof.
  intros Hw Hen. unfold Execute. rewrite Hen. simpl.
  unfold S3_List. destruct (listFails w b) as [e|]; [done|].
  destruct (len (objects b) =? 0) eqn:Hlen.
  { intros [= <- <-]. destruct (objects b) as [|f l] eqn:Hobj; [|done].
    unfold groupByFolder. simpl. rewrite rangeFolders_empty by done. simpl.
    by rewrite app_nil_r. }
  destruct (folderLoop _ _ _ _ _ _) as [[st1 err1] b1] eqn:Hloop.
  intros [= <- -> <-].
  apply folderLoop_live in Hloop as (calls & Hc & Ho & Hff & _ & [-> Hplan]).
  simpl in Hff.
  assert (calls = (λ k, (k, None)) <$> calls.*1) as Hcalls.
  { clear -Hff. induction Hff as [|[k o] calls Hk _ IH]; [done|].
    simpl in Hk. subst o. rewrite !fmap_cons. simpl. by f_equal. }
  assert (succeeded calls = calls.*1) as Hsucc.
  { unfold succeeded. f_equal. by apply filter_all. }
  split; [done|]. split; [done|]. split.
  - by rewrite Ho, Hsucc, Hplan.
  - by rewrite Hc, Hcalls, Hplan at 1.
Qed.

(** X1. After a live run that met no error, with at least one
    rule enabled and distinct keys in the bucket: the bucket holds exactly
    the files of the Keep sets, in the order it held them before; [Delete]
    was called once for each file of the Delete sets and for nothing else;
    and the statistics tell what happened: [RetainedFiles] is the number of
    objects left, [DeletedFiles] the number of objects gone, [TotalFiles]
    the number there was, [RetainedSize] the size of what is left. *)
Theorem live_run_leaves_the_keep_sets rules w b st b' :
  WorldOK w → NoDup (keys (objects b)) → len (objects b) < 2 ^ 63 →
  Enabled rules = true →
  0 < MaxAgeDays rules ∨ 0 < MaxCount rules →
  Execute rules false w b = (Some st, None, b') →
  let folders := map_to_list (groupByFolder w (objects b)) in
  objects b' ≡ₚ keptFiles rules w folders ∧
  objects b' `sublist_of` objects b ∧
  (∃ calls, deleteCalls b' = deleteCalls b ++ calls ∧
            Forall (λ c, c.2 = None) calls ∧
            calls.*1 ≡ₚ keys (deletedFiles rules w folders)) ∧
  DeleteStats.TotalFiles st = len (objects b) ∧
  DeleteStats.RetainedFiles st = len (objects b') ∧
  DeleteStats.DeletedFiles st = len (objects b) - len (objects b') ∧
  DeleteStats.RetainedSize st = wrap64 (totalSize (objects b')).
Proof.
  intros Hw Hkeys Hlen Hen Hrule Hrun. simpl.
  destruct (Execute_live_ok rules w b st b' Hw Hen Hrun) as (_ & -> & Hobj & Hcalls).
  set (F := rangeFolders w (groupByFolder w (objects b))) in *.
  assert (F ≡ₚ map_to_list (groupByFolder w (objects b))) as HF
    by apply (rangeFolders_perm w Hw).
  pose proof (keptFiles_perm rules w _ _ HF) as HK.
  pose proof (deletedFiles_perm rules w _ _ HF) as HD.
  pose proof (kept_deleted_cover rules w (objects b) Hw Hkeys Hrule) as Hcover.
  simpl in Hcover. rewrite <- HK, <- HD in Hcover.
  assert (objects b' ≡ₚ keptFiles rules w F) as Hkept.
  { rewrite Hobj.
    rewrite (removeKeys_ext _ (keys (deletedFiles rules w F))).
    - by apply removeKeys_complement.
    - intros k. by rewrite (plan_deleted rules w F Hw). }
  pose proof (len_perm _ _ Hcover) as Hsum. rewrite len_app in Hsum.
  pose proof (len_nonneg (keptFiles rules w F)).
  pose proof (len_nonneg (deletedFiles rules w F)).
  destruct (evalFolders_counts rules w F Hw) as (Ht & Hr & Hd & Hrs & _).
  split; [by rewrite Hkept|]. split; [rewrite Hobj; apply removeKeys_sublist|].
  split; [|split; [|split; [|split]]].
  - exists ((λ k, (k, None)) <$> plan rules w F). split; [done|]. split.
    + apply Forall_fmap, Forall_forall. by intros k _.
    + rewrite <- list_fmap_compose, list_fmap_id.
      rewrite (plan_deleted rules w F Hw). by apply keys_perm.
  - rewrite Ht. assert (F ≫= snd ≡ₚ objects b) as Hall.
    { rewrite HF. apply groups_cover_listing. }
    rewrite (len_perm _ _ Hall). apply wrap64_small. pose proof (len_nonneg (objects b)). lia.
  - rewrite Hr, (len_perm _ _ Hkept). apply wrap64_small. lia.
  - rewrite Hd, (len_perm _ _ Hkept). rewrite wrap64_small; lia.
  - by rewrite Hrs, (totalSize_perm _ _ Hkept).
Qed.

Lemma live_run_leaves_the_keep_sets_witness :
  let rules := mkRules 30 0 true in
  let w := plainWorld (100 * day) false [] in
  let r := Execute rules false w twoFolders in
  let st := evaluate rules w (objects twoFolders) in
  let folders := map_to_list (groupByFolder w (objects twoFolders)) in
  keys (objects r.2) = ["db/2024-02-05"; "pg/2024-02-05"] ∧
  objects r.2 ≡ₚ keptFiles rules w folders ∧
  objects r.2 `sublist_of` objects twoFolders ∧
  (∃ calls, deleteCalls r.2 = deleteCalls twoFolders ++ calls ∧
            Forall (λ c, c.2 = None) calls ∧
            calls.*1 ≡ₚ keys (deletedFiles rules w folders)) ∧
  DeleteStats.TotalFiles st = len (objects twoFolders) ∧
  DeleteStats.RetainedFiles st = len (objects r.2) ∧
  DeleteStats.DeletedFiles st = len (objects twoFolders) - len (objects r.2) ∧
  DeleteStats.RetainedSize st = wrap64 (totalSize (objects r.2)).
Proof.
  split; [by vm_compute|].
  apply (live_run_leaves_the_keep_sets (mkRules 30 0 true)
           (plainWorld (100 * day) false []) twoFolders).
  - apply plainWorld_ok.
  - by vm_compute; compute_done.
  - by vm_compute.
  - reflexivity.
  - left. simpl. lia.
  - by vm_compute.
Defined.

(** X3. In the statistics of a run that went through
    all folders, [DatabaseStats] has an entry for exactly the folders
    [path.Dir(key)] of the listed keys; the [TotalFiles] of an entry counts
    the listed objects of that folder, so it is never zero; and the overall
    [TotalFiles] is the number of objects listed. *)
Theorem database_entries_are_the_folders rules dryRun w b st b' listing :
  WorldOK w → Enabled rules = true → S3_List w b = inr listing →
  len listing < 2 ^ 63 →
  Execute rules dryRun w b = (Some st, None, b') →
  (∀ g, is_Some (DeleteStats.DatabaseStats st !! g) ↔ ∃ f, f ∈ listing ∧ Dir w (Key f) = g) ∧
  (∀ g ds, DeleteStats.DatabaseStats st !! g = Some ds →
     DatabaseStats.TotalFiles ds = len (inFolder w g listing) ∧
     0 < DatabaseStats.TotalFiles ds) ∧
  DeleteStats.TotalFiles st = len listing.
Proof.
  intros Hw Hen Hlist Hlen Hrun.
  pose proof (Execute_complete rules dryRun w b st b' listing Hw Hrun Hen Hlist) as ->.
  unfold evaluate. set (F := rangeFolders w (groupByFolder w listing)).
  assert (F ≡ₚ map_to_list (groupByFolder w listing)) as HF
    by apply (rangeFolders_perm w Hw).
  assert (NoDup F.*1) as Hnd by (rewrite HF; apply NoDup_fst_map_to_list).
  assert (∀ g files, (g, files) ∈ F ↔ files = inFolder w g listing ∧ files ≠ []) as Hin.
  { intros g files. by rewrite HF, elem_of_map_to_list, groupByFolder_lookup. }
  split; [|split].
  - intros g. split.
    + intros [ds Hds]. apply (evalFolders_lookup rules w F Hnd) in Hds as (files & Hf & _).
      apply Hin in Hf as [-> Hne].
      destruct (inFolder w g listing) as [|f l] eqn:Heq; [done|].
      exists f. apply elem_of_inFolder. rewrite Heq. apply list_elem_of_here.
    + intros (f & Hf & Hg). exists (folderStats rules w g (inFolder w g listing)).
      apply (evalFolders_lookup rules w F Hnd). exists (inFolder w g listing).
      split; [|done]. apply Hin. split; [done|].
      intros Hnil. assert (f ∈ inFolder w g listing) as Hfin by (by apply elem_of_inFolder).
      rewrite Hnil in Hfin. by apply elem_of_nil in Hfin.
  - intros g ds Hds. apply (evalFolders_lookup rules w F Hnd) in Hds as (files & Hf & ->).
    apply Hin in Hf as [-> Hne]. unfold folderStats, databaseStats. simpl.
    split; [done|]. unfold len. destruct (inFolder w g listing); [done|]. simpl. lia.
  - destruct (evalFolders_counts rules w F Hw) as (-> & _).
    assert (F ≫= snd ≡ₚ listing) as Hall by (rewrite HF; apply groups_cover_listing).
    rewrite (len_perm _ _ Hall). apply wrap64_small. pose proof (len_nonneg listing). lia.
Qed.

Lemma database_entries_are_the_folders_witness :
  let rules := mkRules 30 0 true in
  let w := plainWorld (100 * day) false [] in
  let listing := objects twoFolders in
  let st := evaluate rules w listing in
  (∀ g, is_Some (DeleteStats.DatabaseStats st !! g) ↔ ∃ f, f ∈ listing ∧ Dir w (Key f) = g) ∧
  (∀ g ds, DeleteStats.DatabaseStats st !! g = Some ds →
     DatabaseStats.TotalFiles ds = len (inFolder w g listing) ∧
     0 < DatabaseStats.TotalFiles ds) ∧
  DeleteStats.TotalFiles st = len listing.
Proof.
  apply (database_entries_are_the_folders (mkRules 30 0 true) true
           (plainWorld (100 * day) false []) twoFolders _ twoFolders (objects twoFolders)).
  - apply plainWorld_ok.
  - reflexivity.
  - reflexivity.
  - by vm_compute.
  - by vm_compute.
Defined.

(** ** Running the command again *)

Lemma elem_of_plan rules w folders k :
  k ∈ plan rules w folders ↔
  ∃ g files, (g, files) ∈ folders ∧ k ∈ keys (deleteSlice w g (folderMarks rules w g files)).
Proof.
  unfold plan. rewrite list_elem_of_bind. split.
  - intros ([g files] & Hk & Hin). by exists g, files.
  - intros (g & files & Hin & Hk). by exists (g, files).
Qed.

(** A file that a run does not plan to delete is in the Keep set of its
    folder, when a rule is enabled. *)
Lemma unplanned_is_kept rules w listing f :
  WorldOK w → NoDup (keys listing) →
  0 < MaxAgeDays rules ∨ 0 < MaxCount rules →
  f ∈ listing →
  Key f ∉ plan rules w (rangeFolders w (groupByFolder w listing)) →
  let g := Dir w (Key f) in
  groupByFolder w listing !! g = Some (inFolder w g listing) ∧
  markedKeep (folderMarks rules w g (inFolder w g listing)) f.
Proof.
  intros Hw Hkeys Hrule Hf Hplan. simpl.
  set (g := Dir w (Key f)). set (files := inFolder w g listing).
  assert (f ∈ files) as Hfin by (by apply elem_of_inFolder).
  assert (groupByFolder w listing !! g = Some files) as Hg.
  { apply groupByFolder_lookup. split; [done|]. intros Hnil.
    rewrite Hnil in Hfin. by apply elem_of_nil in Hfin. }
  split; [done|].
  destruct (folderMarks_exactly_one w Hw listing Hkeys g files Hg rules f Hrule Hfin)
    as [[Hk _]|[Hd _]]; [done|].
  exfalso. apply Hplan, elem_of_plan. exists g, files. split.
  - rewrite (rangeFolders_perm w Hw). by apply elem_of_map_to_list.
  - apply keys_elem. exists f. split; [|done].
    rewrite (deleteSlice_perm w Hw). apply elem_of_filesOf. by exists (Key f).
Qed.

(** A loop over folders none of which has anything to delete. *)
Lemma folderLoop_nothing rules dryRun w folders st b :
  (∀ g files, (g, files) ∈ folders → deleteSlice w g (folderMarks rules w g files) = []) →
  folderLoop rules dryRun w folders st b = (evalFolders rules w folders st, None, b).
Proof.
  revert st. induction folders as [|[g files] rest IH]; intros st Hnone; [done|].
  cbn [folderLoop].
  rewrite (Hnone g files) by apply list_elem_of_here.
  cbn [deleteFiles].
  change (evalFolders rules w ((g, files) :: rest) st)
    with (evalFolders rules w rest (folderStep rules w st g files)).
  destruct dryRun; apply IH; intros; by apply Hnone, list_elem_of_further.
Qed.

Lemma bind_all_nil {A B} (f : A → list B) (l : list A) :
  (∀ a, a ∈ l → f a = []) → l ≫= f = [].
Proof.
  induction l as [|a l IH]; intros H; [done|].
  rewrite bind_cons, (H a) by apply list_elem_of_here.
  apply IH. intros. by apply H, list_elem_of_further.
Qed.

(** In the bucket a successful live run left behind, no folder has anything
    to delete: with the count rule on each folder is down to at most
    [max_count] files, and with the age rule alone every file left was not
    older than the cutoff of the first run, which the cutoff of the second
    run does not exceed. *)
Lemma rerun_marks rules w w2 listing g files2 :
  WorldOK w → WorldOK w2 → (∀ k, Dir w2 k = Dir w k) →
  NoDup (keys listing) →
  (0 < MaxCount rules ∨ MaxAgeDays rules ≤ 0 ∨
   ∀ g, AddDate w2 (Now w2 g) (- MaxAgeDays rules)
          ≤ AddDate w (Now w g) (- MaxAgeDays rules)) →
  groupByFolder w2
    (removeKeys (plan rules w (rangeFolders w (groupByFolder w listing))) listing) !! g
    = Some files2 →
  filesToDelete (folderMarks rules w2 g files2) = ∅.
Proof.
  intros Hw Hw2 Hdir Hkeys Hcase Hg2.
  set (left := removeKeys _ listing) in Hg2.
  assert (NoDup (keys left)) as Hkeys2.
  { eapply keys_nodup_sublist; [apply removeKeys_sublist|done]. }
  pose proof (folder_sorted_nodup w2 Hw2 left Hkeys2 g files2 Hg2) as Hsorted2.
  pose proof (folder_keys_nodup w2 left Hkeys2 g files2 Hg2) as Hfiles2.
  destruct (decide (0 < MaxCount rules)) as [Hn|Hn];
    [|destruct (decide (0 < MaxAgeDays rules)) as [Ha|Ha]].
  3:{ unfold folderMarks. by rewrite classify_none by lia. }
  all: assert (∀ f, f ∈ files2 →
         f ∈ inFolder w g listing ∧
         groupByFolder w listing !! g = Some (inFolder w g listing) ∧
         markedKeep (folderMarks rules w g (inFolder w g listing)) f) as Hkept.
  1,3: intros f Hf; apply groupByFolder_lookup in Hg2 as [-> _];
       apply elem_of_inFolder in Hf as [Hf Hd]; rewrite Hdir in Hd;
       apply list_elem_of_filter in Hf as [Hplan Hf];
       destruct (unplanned_is_kept rules w listing f Hw Hkeys ltac:(lia) Hf Hplan)
         as [Hg1 Hk]; simpl in Hg1, Hk; rewrite Hd in Hg1, Hk;
       split; [by apply elem_of_inFolder|done].
  - rewrite (folderMarks_count w2 Hw2 left Hkeys2 g files2 Hg2) by done. simpl.
    rewrite drop_ge; [done|].
    rewrite (sort_perm w2 Hw2).
    set (kept := take (Z.to_nat (MaxCount rules)) (sortNewestFirst w (inFolder w g listing))).
    assert (length files2 ≤ length kept)%nat as Hle.
    { apply submseteq_length, NoDup_submseteq.
      - eapply NoDup_fmap_1, Hfiles2.
      - intros f Hf. destruct (Hkept f Hf) as (_ & Hg1 & Hk).
        unfold markedKeep in Hk.
        rewrite (folderMarks_count w Hw listing Hkeys g _ Hg1) in Hk by done.
        simpl in Hk. by apply toMap_lookup_Some in Hk as [? _]. }
    subst kept. rewrite length_take in Hle. lia.
  - unfold folderMarks. rewrite classify_age by (done || lia). simpl.
    unfold olderThan. rewrite (filter_none _ _); [done|].
    apply Forall_forall. intros f Hf. rewrite (sort_perm w2 Hw2) in Hf.
    destruct (Hkept f Hf) as (Hfin & Hg1 & Hk).
    unfold markedKeep, folderMarks in Hk.
    rewrite classify_age in Hk; [|by apply (folder_sorted_nodup w Hw listing Hkeys g _ Hg1)|done|lia].
    simpl in Hk. apply toMap_lookup_Some in Hk as [Hk _].
    apply list_elem_of_filter in Hk as [Hnew _].
    destruct Hcase as [?|[?|Hnow]]; [lia..|]. specialize (Hnow g).
    lia.
Qed.

(** X2. A second run of the command on the bucket that a live
    run without error left behind deletes nothing: it makes no call of
    [Delete], dry run or not, and reports [DeletedFiles = 0]. With the count
    rule enabled this holds whenever the second run takes place; with the
    age rule alone it holds when in no folder the cutoff of the second run
    ([time.Now().AddDate(0, 0, -D)] as that run computes it) is later than
    the cutoff of the first. Between the runs the order in which maps are
    visited, the order [sort.Slice] gives to files of equal time and the
    failures of the bucket may all change. *)
Theorem second_run_deletes_nothing rules w w2 dryRun2 b st b' st2 err2 b2 :
  WorldOK w → WorldOK w2 → (∀ k, Dir w2 k = Dir w k) →
  NoDup (keys (objects b)) →
  (0 < MaxCount rules ∨ MaxAgeDays rules ≤ 0 ∨
   ∀ g, AddDate w2 (Now w2 g) (- MaxAgeDays rules)
          ≤ AddDate w (Now w g) (- MaxAgeDays rules)) →
  Execute rules false w b = (Some st, None, b') →
  Execute rules dryRun2 w2 b' = (st2, err2, b2) →
  b2 = b' ∧
  (err2 = None ∨ ∃ e, listFails w2 b' = Some e ∧ err2 = Some (FailedToListFiles e)) ∧
  ∀ s, st2 = Some s →
    DeleteStats.DeletedFiles s = 0 ∧ DeleteStats.DeletedSize s = 0.
Proof.
  intros Hw Hw2 Hdir Hkeys Hcase Hrun1.
  destruct (Enabled rules) eqn:Hen.
  2:{ unfold Execute in *. rewrite Hen in *. simpl in *.
      injection Hrun1 as <- <-. intros [= <- <- <-]. split; [done|]. split; [by left|].
      intros s [= <-]. done. }
  destruct (Execute_live_ok rules w b st b' Hw Hen Hrun1) as (_ & _ & Hobj & _).
  simpl in Hobj.
  unfold Execute. rewrite Hen. simpl. unfold S3_List.
  destruct (listFails w2 b') as [e|] eqn:Hlist.
  { intros [= <- <- <-]. split; [done|]. split; [right; eauto|]. by intros s [=]. }
  destruct (len (objects b') =? 0) eqn:Hlen.
  { intros [= <- <- <-]. split; [done|]. split; [by left|]. intros s [= <-].
    done. }
  set (F2 := rangeFolders w2 (groupByFolder w2 (objects b'))).
  assert (∀ g files, (g, files) ∈ F2 →
            filesToDelete (folderMarks rules w2 g files) = ∅) as Hnone.
  { intros g files Hin. subst F2. rewrite (rangeFolders_perm w2 Hw2) in Hin.
    apply elem_of_map_to_list in Hin. rewrite Hobj in Hin.
    by apply (rerun_marks rules w w2 (objects b) g files). }
  rewrite folderLoop_nothing.
  2:{ intros g files Hin. apply Permutation_nil_r.
      by rewrite (deleteSlice_perm w2 Hw2), (Hnone g files Hin), filesOf_empty. }
  intros [= <- <- <-]. split; [done|]. split; [by left|]. intros s [= <-].
  destruct (evalFolders_counts rules w2 F2 Hw2) as (_ & _ & Hd & _ & Hds).
  assert (deletedFiles rules w2 F2 = []) as Hdel.
  { unfold deletedFiles. apply bind_all_nil. intros [g files] Hin. simpl.
    rewrite (Hnone g files Hin). apply filesOf_empty. }
  by rewrite Hd, Hds, Hdel.
Qed.

Lemma second_run_deletes_nothing_witness :
  let rules := mkRules 30 2 true in
  let w := plainWorld (100 * day) false [] in
  let w2 := plainWorld (200 * day) true [] in
  let r := Execute rules false w twoFolders in
  let r2 := Execute rules false w2 r.2 in
  keys (objects r.2) = ["db/2024-01-02"; "db/2024-02-05"; "pg/2024-01-01"; "pg/2024-02-05"] ∧
  r2.2 = r.2 ∧
  (r2.1.2 = None ∨ ∃ e, listFails w2 r.2 = Some e ∧ r2.1.2 = Some (FailedToListFiles e)) ∧
  ∀ s, r2.1.1 = Some s →
    DeleteStats.DeletedFiles s = 0 ∧ DeleteStats.DeletedSize s = 0.
Proof.
  split; [by vm_compute|].
  apply (second_run_deletes_nothing (mkRules 30 2 true)
           (plainWorld (100 * day) false []) (plainWorld (200 * day) true []) false
           twoFolders (evaluate (mkRules 30 2 true) (plainWorld (100 * day) false [])
                         (objects twoFolders))).
  - apply plainWorld_ok.
  - apply plainWorld_ok.
  - reflexivity.
  - by vm_compute; compute_done.
  - left. simpl. lia.
  - by vm_compute.
  - by destruct (Execute _ _ _ _) as [[? ?] ?].
Defined.

Lemma unitLoop_spec bytes (fuel : nat) (exp : Z) :
  0 ≤ exp → 1024 ^ (exp + 1) ≤ bytes < 2 ^ 63 →
  bytes ÷ 1024 ^ (exp + 1) < 1024 ^ Z.of_nat fuel →
  ∃ exp', cmd.unitLoop fuel (bytes ÷ 1024 ^ (exp + 1)) (1024 ^ (exp + 1)) exp
            = Some (1024 ^ (exp' + 1), exp') ∧
          exp ≤ exp' ∧ 1024 ^ (exp' + 1) ≤ bytes < 1024 ^ (exp' + 2).
Proof.
  revert exp. induction fuel as [|fuel IH]; intros exp Hexp Hb Hn.
  - exfalso. simpl in Hn.
    assert (0 < 1024 ^ (exp + 1)) by (apply Z.pow_pos_nonneg; lia).
    assert (1 ≤ bytes ÷ 1024 ^ (exp + 1)); [|lia].
    rewrite Z.quot_div_nonneg by lia. apply Z.div_le_lower_bound; lia.
  - assert (0 < 1024 ^ (exp + 1)) as Hpos by (apply Z.pow_pos_nonneg; lia).
    assert (1024 ^ (exp + 2) = 1024 ^ (exp + 1) * 1024) as Hpow.
    { replace (exp + 2) with (exp + 1 + 1) by lia. rewrite Z.pow_add_r by lia. lia. }
    cbn [cmd.unitLoop]. unfold cmd.unit.
    rewrite Z.quot_div_nonneg in * by lia.
    destruct (1024 <=? bytes / 1024 ^ (exp + 1)) eqn:Hge.
    + apply Z.leb_le in Hge.
      assert (1024 ^ (exp + 2) ≤ bytes) as Hnext.
      { rewrite Hpow. etrans; [|apply (Z.mul_div_le bytes (1024 ^ (exp + 1))); lia].
        nia. }
      assert (0 < 1024 ^ (exp + 1 + 1)) as Hpos2 by (apply Z.pow_pos_nonneg; lia).
      assert (quot64 (bytes / 1024 ^ (exp + 1)) 1024 = bytes ÷ 1024 ^ (exp + 1 + 1)) as ->.
      { unfold quot64. rewrite (Z.quot_div_nonneg bytes) by lia.
        rewrite Z.quot_div_nonneg by lia.
        replace (exp + 1 + 1) with (exp + 2) by lia.
        rewrite Hpow, Z.div_div by lia.
        apply wrap64_small.
        assert (0 ≤ bytes / (1024 ^ (exp + 1) * 1024) ≤ bytes); [|lia].
        split; [apply Z.div_pos; lia|]. apply Z.div_le_upper_bound; nia. }
      assert (mul64 (1024 ^ (exp + 1)) 1024 = 1024 ^ (exp + 1 + 1)) as ->.
      { unfold mul64. replace (exp + 1 + 1) with (exp + 2) by lia. rewrite Hpow.
        apply wrap64_small. lia. }
      assert (add64 exp 1 = exp + 1) as ->.
      { unfold add64. apply wrap64_small.
        assert (exp + 2 < 7); [|lia].
        destruct (decide (exp + 2 < 7)) as [|Hbig]; [done|]. exfalso.
        assert (1024 ^ 7 ≤ 1024 ^ (exp + 2)) by (apply Z.pow_le_mono_r; lia).
        lia. }
      destruct (IH (exp + 1)) as (exp' & Heq & Hle & Hbr).
      * lia.
      * replace (exp + 1 + 1) with (exp + 2) by lia. lia.
      * rewrite Z.quot_div_nonneg;
          [|lia|apply Z.pow_pos_nonneg; lia].
        replace (exp + 1 + 1) with (exp + 2) by lia.
        rewrite Hpow, <- Z.div_div by lia.
        apply Z.div_lt_upper_bound; [lia|].
        rewrite Nat2Z.inj_succ, Z.pow_succ_r in Hn by lia. lia.
      * exists exp'. split; [done|]. split; [lia|done].
    + apply Z.leb_gt in Hge. exists exp. split; [done|]. split; [lia|].
      split; [lia|]. rewrite Hpow.
      pose proof (Z.div_mod bytes (1024 ^ (exp + 1)) ltac:(lia)).
      pose proof (Z.mod_pos_bound bytes (1024 ^ (exp + 1)) ltac:(lia)).
      nia.
Qed.

(** X6. For every [int64] the function returns a string: the
    loop is left after at most six rounds, [div] never overflows and the
    index into ["KMGTPE"] is never out of range. Below 1024, negative values
    included, the string is the number itself followed by [" B"]. From 1024
    on the unit is the largest power of 1024 that does not exceed the
    number: the letter is taken at the index [exp] with
    [1024 ^ (exp + 1) ≤ bytes < 1024 ^ (exp + 2)], and the number shown is
    [bytes] divided by [1024 ^ (exp + 1)] in [float64] arithmetic, to one
    decimal place. *)
Theorem formatBytes_picks_largest_unit bytes :
  - 2 ^ 63 ≤ bytes < 2 ^ 63 →
  ∃ s, cmd.formatBytes bytes = Some s ∧
    (bytes < 1024 → s = pretty bytes +:+ " B") ∧
    (1024 ≤ bytes →
       ∃ exp c, 0 ≤ exp ≤ 5 ∧ 1024 ^ (exp + 1) ≤ bytes < 1024 ^ (exp + 2) ∧
         String.get (Z.to_nat exp) "KMGTPE" = Some c ∧
         s = float64.fmtFixed1
               (float64.div (float64.ofInt bytes) (float64.ofInt (1024 ^ (exp + 1))))
             +:+ " " +:+ String c "B").
Proof.
  intros Hrange. unfold cmd.formatBytes, cmd.unit.
  destruct (bytes <? 1024) eqn:Hsmall.
  { apply Z.ltb_lt in Hsmall. eexists. split; [done|]. split; [done|lia]. }
  apply Z.ltb_ge in Hsmall.
  assert (quot64 bytes 1024 = bytes ÷ 1024 ^ (0 + 1)) as ->.
  { unfold quot64. change (1024 ^ (0 + 1)) with 1024. apply wrap64_small.
    rewrite Z.quot_div_nonneg by lia.
    assert (0 ≤ bytes / 1024 ≤ bytes); [|lia].
    split; [apply Z.div_pos; lia|]. apply Z.div_le_upper_bound; lia. }
  change 1024 with (1024 ^ (0 + 1)) at 2.
  destruct (unitLoop_spec bytes 64 0) as (exp & -> & Hexp & Hbr).
  - lia.
  - change (1024 ^ (0 + 1)) with 1024. lia.
  - change (1024 ^ (0 + 1)) with 1024. rewrite Z.quot_div_nonneg by lia.
    apply Z.div_lt_upper_bound; [lia|].
    assert (2 ^ 63 ≤ 1024 * 1024 ^ Z.of_nat 64) by (by vm_compute). lia.
  - assert (exp ≤ 5) as Hmax.
    { destruct (decide (exp ≤ 5)) as [|Hbig]; [done|]. exfalso.
      assert (1024 ^ 7 ≤ 1024 ^ (exp + 1)) by (apply Z.pow_le_mono_r; lia).
      lia. }
    assert (∃ c, cmd.unitLetter exp = Some c ∧
                 String.get (Z.to_nat exp) "KMGTPE" = Some c) as (c & -> & Hc).
    { unfold cmd.unitLetter.
      assert ((exp <? 0) = false) as -> by (apply Z.ltb_ge; lia).
      assert (exp = 0 ∨ exp = 1 ∨ exp = 2 ∨ exp = 3 ∨ exp = 4 ∨ exp = 5) as Hcase by lia.
      destruct Hcase as [->|[->|[->|[->|[->| ->]]]]]; eexists; split; reflexivity. }
    eexists. split; [done|]. split; [lia|]. intros _.
    exists exp, c. split; [lia|]. split; [done|]. split; done.
Qed.

Lemma formatBytes_picks_largest_unit_witness :
  ∃ s, cmd.formatBytes 1572864 = Some s ∧
    (1572864 < 1024 → s = pretty 1572864 +:+ " B") ∧
    (1024 ≤ 1572864 →
       ∃ exp c, 0 ≤ exp ≤ 5 ∧ 1024 ^ (exp + 1) ≤ 1572864 < 1024 ^ (exp + 2) ∧
         String.get (Z.to_nat exp) "KMGTPE" = Some c ∧
         s = float64.fmtFixed1
               (float64.div (float64.ofInt 1572864) (float64.ofInt (1024 ^ (exp + 1))))
             +:+ " " +:+ String c "B").
Proof. apply (formatBytes_picks_largest_unit 1572864). lia. Defined.

(** The strings for some byte counts: just below one MiB the number shown is
    1024.0 with the unit KB. *)
Example formatBytes_examples :
  cmd.formatBytes 0 = Some "0 B" ∧
  cmd.formatBytes (-5) = Some "-5 B" ∧
  cmd.formatBytes 1023 = Some "1023 B" ∧
  cmd.formatBytes 1024 = Some "1.0 KB" ∧
  cmd.formatBytes 1536 = Some "1.5 KB" ∧
  cmd.formatBytes 1572864 = Some "1.5 MB" ∧
  cmd.formatBytes 1048575 = Some "1024.0 KB" ∧
  cmd.formatBytes (2 ^ 63 - 1) = Some "8.0 EB".
Proof. by vm_compute. Qed.

(** ** The order of [sort.Strings] *)

Lemma ascii_compare_lt_trans a b c :
  Ascii.compare a b = Lt → Ascii.compare b c = Lt → Ascii.compare a c = Lt.
Proof. unfold Ascii.compare. rewrite !N.compare_lt_iff. lia. Qed.

Lemma string_compare_lt_trans a b c :
  String.compare a b = Lt → String.compare b c = Lt → String.compare a c = Lt.
Proof.
  revert b c. induction a as [|x a IH]; intros [|y b] [|z c]; simpl; try done.
  destruct (Ascii.compare x y) eqn:Hxy; try done;
    destruct (Ascii.compare y z) eqn:Hyz; try done.
  - apply Ascii.compare_eq_iff in Hxy as ->. apply Ascii.compare_eq_iff in Hyz as ->.
    unfold Ascii.compare. rewrite N.compare_refl. apply IH.
  - apply Ascii.compare_eq_iff in Hxy as ->. by rewrite Hyz.
  - apply Ascii.compare_eq_iff in Hyz as <-. by rewrite Hxy.
  - by rewrite (ascii_compare_lt_trans x y z).
Qed.

Global Instance stringLe_total : Total stringLe.
Proof. intros a b. apply String.leb_total. Qed.

Global Instance stringLe_antisym : AntiSymm (=) stringLe.
Proof. intros a b. apply String.leb_antisym. Qed.

Global Instance stringLe_trans : Transitive stringLe.
Proof.
  intros a b c. unfold stringLe, String.leb.
  destruct (String.compare a b) eqn:Hab; [|intros _|done].
  - by apply String.compare_eq_iff in Hab as ->.
  - destruct (String.compare b c) eqn:Hbc; [|intros _|done].
    + apply String.compare_eq_iff in Hbc as <-. by rewrite Hab.
    + by rewrite (string_compare_lt_trans a b c).
Qed.

Lemma sortStrings_sorted l : StronglySorted stringLe (sortStrings l).
Proof. apply StronglySorted_merge_sort; apply _. Qed.

Lemma sortStrings_perm l : sortStrings l ≡ₚ l.
Proof. apply merge_sort_Permutation. Qed.

(** The result of [sort.Strings] depends on the strings only, not on the
    order they came in. *)
Lemma sortStrings_order l1 l2 : l1 ≡ₚ l2 → sortStrings l1 = sortStrings l2.
Proof.
  intros H. apply (StronglySorted_unique stringLe); [apply sortStrings_sorted..|].
  by rewrite !sortStrings_perm.
Qed.

(** ** Printing *)










Lemma databaseBlock_eq p1 p2 stats name :
  (∀ t, cmd.formatRFC3339 p1 t = cmd.formatRFC3339 p2 t) →
  cmd.databaseBlock p1 stats name = cmd.databaseBlock p2 stats name.
Proof.
  intros Hf. unfold cmd.databaseBlock, cmd.retainedLines.
  destruct (_ !! name); [|done]. by rewrite !Hf.
Qed.


Lemma plainProcess_ok rules reversed : cmd.ProcessOK (plainProcess rules reversed).
Proof.
  split. intros m. simpl. destruct reversed; [apply reverse_Permutation|done].
Qed.

(** X7. The per-database part of the summary has one block for
    each entry of [stats.DatabaseStats], in ascending order of the database
    names, whatever the order in which [range] yields the map: two runs of
    the printing code on the same statistics print the same. *)
Theorem summary_lists_databases_by_name p1 p2 stats dryRun :
  cmd.ProcessOK p1 → cmd.ProcessOK p2 →
  (∀ t, cmd.formatRFC3339 p1 t = cmd.formatRFC3339 p2 t) →
  let names := cmd.dbNames p1 stats in
  StronglySorted stringLe names ∧ NoDup names ∧
  (∀ g, g ∈ names ↔ is_Some (DeleteStats.DatabaseStats stats !! g)) ∧
  cmd.dbNames p2 stats = names ∧
  cmd.summary p1 stats dryRun = cmd.summary p2 stats dryRun.
Proof.
  intros Hp1 Hp2 Hf. simpl.
  assert (cmd.dbNames p1 stats ≡ₚ (map_to_list (DeleteStats.DatabaseStats stats)).*1) as Hperm.
  { unfold cmd.dbNames. by rewrite sortStrings_perm, (cmd.rangeStats_perm p1 Hp1). }
  assert (cmd.dbNames p2 stats = cmd.dbNames p1 stats) as Hnames.
  { unfold cmd.dbNames. apply sortStrings_order.
    by rewrite (cmd.rangeStats_perm p1 Hp1), (cmd.rangeStats_perm p2 Hp2). }
  split; [apply sortStrings_sorted|]. split; [|split; [|split; [done|]]].
  - rewrite Hperm. apply NoDup_fst_map_to_list.
  - intros g. rewrite Hperm, list_elem_of_fmap. split.
    + intros ([g' ds] & -> & Hin%elem_of_map_to_list). by exists ds.
    + intros [ds Hds]. exists (g, ds). split; [done|]. by apply elem_of_map_to_list.
  - unfold cmd.summary. rewrite Hnames. unfold cmd.retainedLines. rewrite !Hf.
    assert (cmd.dbNames p1 stats ≫= cmd.databaseBlock p1 stats
            = cmd.dbNames p1 stats ≫= cmd.databaseBlock p2 stats) as ->; [|done].
    clear Hperm Hnames. generalize (cmd.dbNames p1 stats). intros names.
    induction names as [|n names IH]; [done|].
    by rewrite !bind_cons, IH, (databaseBlock_eq p1 p2 stats n Hf).
Qed.

Lemma summary_lists_databases_by_name_witness :
  let rules := mkRules 30 0 true in
  let stats := evaluate rules (plainWorld (100 * day) false []) (objects twoFolders) in
  let p1 := plainProcess rules false in
  let p2 := plainProcess rules true in
  cmd.rangeStats p2 (DeleteStats.DatabaseStats stats) = ["pg"; "db"] ∧
  cmd.dbNames p2 stats = ["db"; "pg"] ∧
  (let names := cmd.dbNames p1 stats in
   StronglySorted stringLe names ∧ NoDup names ∧
   (∀ g, g ∈ names ↔ is_Some (DeleteStats.DatabaseStats stats !! g)) ∧
   cmd.dbNames p2 stats = names ∧
   cmd.summary p1 stats false = cmd.summary p2 stats false).
Proof.
  split; [by vm_compute|]. split; [by vm_compute|].
  apply (summary_lists_databases_by_name
           (plainProcess (mkRules 30 0 true) false) (plainProcess (mkRules 30 0 true) true)).
  - apply plainProcess_ok.
  - apply plainProcess_ok.
  - reflexivity.
Defined.






(** ** The first version *)

Lemma timeLoop_closed c fs del ret :
  V1.timeLoop c fs del ret = (del ++ olderThan c fs, ret ++ notOlderThan c fs).
Proof.
  revert del ret. induction fs as [|f fs IH]; intros del ret.
  - simpl. by rewrite !app_nil_r.
  - cbn [V1.timeLoop]. unfold Time.Before, olderThan, notOlderThan.
    rewrite !filter_cons. case_bool_decide as Hlt.
    + rewrite IH, decide_True, decide_False, <- app_assoc by tauto. done.
    + rewrite IH, decide_False, decide_True, <- app_assoc by tauto. done.
Qed.

Lemma deleteMap_lookup l k :
  default false (V1.deleteMap l !! k) = bool_decide (k ∈ keys l).
Proof.
  unfold V1.deleteMap.
  assert (∀ m : gmap string bool,
            default false (foldl (λ m f, <[Key f := true]> m) m l !! k)
            = bool_decide (k ∈ keys l) || default false (m !! k)) as H.
  { induction l as [|f l IH]; intros m; [done|].
    cbn [foldl]. rewrite IH. unfold keys. rewrite fmap_cons.
    destruct (decide (k = Key f)) as [->|Hne].
    - rewrite lookup_insert_eq. simpl.
      rewrite (bool_decide_eq_true_2 (Key f ∈ Key f :: _)) by apply list_elem_of_here.
      by rewrite orb_true_r.
    - rewrite lookup_insert_ne by done.
      f_equal. apply bool_decide_ext. rewrite elem_of_cons.
      split; [by right|]. by intros [?|?]. }
  rewrite H, lookup_empty. simpl. by rewrite orb_false_r.
Qed.

Lemma intersectLoop_closed c checked fs del ret :
  NoDup (keys checked) → fs `sublist_of` checked →
  V1.intersectLoop (V1.deleteMap (olderThan c checked)) fs del ret
  = (del ++ olderThan c fs, ret ++ notOlderThan c fs).
Proof.
  intros Hnd. revert del ret. induction fs as [|f fs IH]; intros del ret Hsub.
  - simpl. by rewrite !app_nil_r.
  - cbn [V1.intersectLoop]. rewrite deleteMap_lookup.
    assert (f ∈ checked) as Hf.
    { eapply elem_of_sublist; [|done]. apply list_elem_of_here. }
    assert (fs `sublist_of` checked) as Hsub'.
    { etrans; [|done]. by apply sublist_cons. }
    unfold olderThan, notOlderThan. rewrite !filter_cons.
    case_bool_decide as Hin.
    + apply keys_elem in Hin as (f' & [Hlt Hf']%list_elem_of_filter & Hk).
      assert (f' = f) as -> by (by eapply keys_inj).
      rewrite (IH _ _ Hsub'), decide_True, decide_False, <- app_assoc by tauto. done.
    + assert (¬ CreatedAt f < c) as Hge.
      { intros Hlt. apply Hin, keys_elem. exists f. split; [|done].
        by apply list_elem_of_filter. }
      rewrite (IH _ _ Hsub'), decide_False, decide_True, <- app_assoc by tauto. done.
Qed.

Lemma StronglySorted_sublist {A} (R : relation A) (l1 l2 : list A) :
  l1 `sublist_of` l2 → StronglySorted R l2 → StronglySorted R l1.
Proof.
  induction 1 as [|x l1 l2 Hsub IH|x l1 l2 Hsub IH]; intros Hs.
  - constructor.
  - apply StronglySorted_inv in Hs as [Hs Hall]. constructor; [by apply IH|].
    rewrite Forall_forall in Hall. apply Forall_forall. intros y Hy.
    apply Hall. by eapply elem_of_sublist.
  - apply StronglySorted_inv in Hs as [Hs _]. by apply IH.
Qed.

Lemma ltb_decide a b : bool_decide (a < b) = (a <? b).
Proof.
  destruct (a <? b) eqn:H.
  - apply bool_decide_eq_true_2. by apply Z.ltb_lt.
  - apply bool_decide_eq_false_2. apply Z.ltb_ge in H. lia.
Qed.

(** The two slices in closed form. *)
Lemma selectFiles_closed rules w now fs :
  NoDup (keys fs) →
  let c := AddDate w now (- MaxAgeDays rules) in
  let n := Z.to_nat (MaxCount rules) in
  V1.selectFiles rules w now fs =
    if bool_decide (0 < MaxCount rules)
    then if bool_decide (MaxCount rules < len fs)
         then if bool_decide (0 < MaxAgeDays rules)
              then (olderThan c (drop n fs), take n fs ++ notOlderThan c (drop n fs))
              else (drop n fs, take n fs)
         else if bool_decide (0 < MaxAgeDays rules)
              then (olderThan c fs, notOlderThan c fs)
              else ([], fs)
    else if bool_decide (0 < MaxAgeDays rules)
         then (olderThan c fs, notOlderThan c fs)
         else ([], []).
Proof.
  intros Hnd. simpl. rewrite !ltb_decide.
  unfold V1.selectFiles, V1.countRule, V1.timeRule.
  destruct (0 <? MaxCount rules) eqn:Hn.
  - destruct (MaxCount rules <? len fs) eqn:Hlen.
    + apply Z.ltb_lt in Hlen, Hn.
      destruct (0 <? MaxAgeDays rules) eqn:Ha; [|done].
      assert ((len (drop (Z.to_nat (MaxCount rules)) fs) =? 0) = false) as ->.
      { apply Z.eqb_neq. unfold len in *. rewrite length_drop. lia. }
      rewrite timeLoop_closed. simpl.
      rewrite (intersectLoop_closed _ (drop (Z.to_nat (MaxCount rules)) fs)); [done| |done].
      eapply keys_nodup_sublist; [apply sublist_drop|done].
    + destruct (0 <? MaxAgeDays rules) eqn:Ha; [|done].
      simpl. by rewrite timeLoop_closed.
  - destruct (0 <? MaxAgeDays rules) eqn:Ha; [|done].
    simpl. by rewrite timeLoop_closed.
Qed.

(** X4. In the first version of the command,
    with both rules enabled and more than [max_count] files in the bucket, a
    file is deleted only if both rules would delete it: the deleted files are
    those beyond the newest [max_count] that are also older than the
    cutoff, and everything else is retained. When the bucket holds at most
    [max_count] files the count rule protects nothing: the age rule alone
    decides, and every file older than the cutoff is deleted. *)
Theorem first_version_intersects_the_rules rules w now listing :
  WorldOK w → NoDup (keys listing) → 0 < MaxAgeDays rules → 0 < MaxCount rules →
  let fs := sortNewestFirst w listing in
  let c := AddDate w now (- MaxAgeDays rules) in
  let n := Z.to_nat (MaxCount rules) in
  fs ≡ₚ listing ∧ StronglySorted newestFirst fs ∧
  (MaxCount rules < len listing →
     V1.selectFiles rules w now fs
     = (olderThan c (drop n fs), take n fs ++ notOlderThan c (drop n fs)) ∧
     ∀ (i : nat) f, fs !! i = Some f →
       f ∈ (V1.selectFiles rules w now fs).1 ↔ MaxCount rules ≤ Z.of_nat i ∧ CreatedAt f < c) ∧
  (len listing ≤ MaxCount rules →
     V1.selectFiles rules w now fs = (olderThan c fs, notOlderThan c fs) ∧
     ∀ f, f ∈ listing → f ∈ (V1.selectFiles rules w now fs).1 ↔ CreatedAt f < c).
Proof.
  intros Hw Hkeys Ha Hn. simpl.
  pose proof (sort_perm w Hw listing) as Hp.
  pose proof (sorted_keys_nodup w Hw listing Hkeys) as Hnd.
  split; [done|]. split; [apply (sort_sorted w Hw)|].
  rewrite (selectFiles_closed rules w now _ Hnd). simpl.
  rewrite !ltb_decide, (len_perm _ _ Hp).
  assert ((0 <? MaxCount rules) = true) as -> by (by apply Z.ltb_lt).
  assert ((0 <? MaxAgeDays rules) = true) as -> by (by apply Z.ltb_lt).
  split; intros Hlen.
  - assert ((MaxCount rules <? len listing) = true) as -> by (by apply Z.ltb_lt).
    split; [done|]. simpl.
    intros i f Hi. unfold olderThan. rewrite list_elem_of_filter. split.
    + intros [Hlt (j & Hj)%list_elem_of_lookup_1]. split; [|done].
      rewrite lookup_drop in Hj.
      assert (i = (Z.to_nat (MaxCount rules) + j)%nat); [|lia].
      eapply NoDup_lookup; [|done..].
      eapply NoDup_fmap_1, Hnd.
    + intros [Hle Hlt]. split; [done|].
      apply list_elem_of_lookup. exists (i - Z.to_nat (MaxCount rules))%nat.
      rewrite lookup_drop, <- Hi. f_equal. lia.
  - assert ((MaxCount rules <? len listing) = false) as -> by (by apply Z.ltb_ge).
    split; [done|]. simpl.
    intros f Hf. unfold olderThan. rewrite list_elem_of_filter, Hp. tauto.
Qed.

Lemma first_version_intersects_the_rules_witness :
  let rules := mkRules 30 1 true in
  let w := plainWorld (100 * day) false [] in
  let now := 100 * day in
  let seven := fiveOld ++ [mkFile "db/f" (80 * day) 600; mkFile "db/g" (90 * day) 700] in
  keys (V1.selectFiles rules w now (sortNewestFirst w seven)).2 = ["db/g"; "db/f"] ∧
  keys (V1.selectFiles (mkRules 30 4 true) w now (sortNewestFirst w fiveOld)).1 = ["db/a"] ∧
  keys (V1.selectFiles (mkRules 30 5 true) w now (sortNewestFirst w fiveOld)).1
    = ["db/e"; "db/d"; "db/c"; "db/b"; "db/a"] ∧
  (let fs := sortNewestFirst w seven in
   let c := AddDate w now (- MaxAgeDays rules) in
   let n := Z.to_nat (MaxCount rules) in
   fs ≡ₚ seven ∧ StronglySorted newestFirst fs ∧
   (MaxCount rules < len seven →
      V1.selectFiles rules w now fs
      = (olderThan c (drop n fs), take n fs ++ notOlderThan c (drop n fs)) ∧
      ∀ (i : nat) f, fs !! i = Some f →
        f ∈ (V1.selectFiles rules w now fs).1 ↔ MaxCount rules ≤ Z.of_nat i ∧ CreatedAt f < c) ∧
   (len seven ≤ MaxCount rules →
      V1.selectFiles rules w now fs = (olderThan c fs, notOlderThan c fs) ∧
      ∀ f, f ∈ seven → f ∈ (V1.selectFiles rules w now fs).1 ↔ CreatedAt f < c)).
Proof.
  split; [by vm_compute|]. split; [by vm_compute|]. split; [by vm_compute|].
  apply (first_version_intersects_the_rules (mkRules 30 1 true)
           (plainWorld (100 * day) false []) (100 * day)
           (fiveOld ++ [mkFile "db/f" (80 * day) 600; mkFile "db/g" (90 * day) 700])).
  - apply plainWorld_ok.
  - by vm_compute; compute_done.
  - simpl; lia.
  - simpl; lia.
Defined.

Lemma selectFiles_sublist rules w now fs :
  NoDup (keys fs) →
  (V1.selectFiles rules w now fs).1 `sublist_of` fs ∧
  (V1.selectFiles rules w now fs).2 `sublist_of` fs.
Proof.
  intros Hnd. rewrite (selectFiles_closed rules w now fs Hnd). simpl.
  assert (∀ n c, take n fs ++ notOlderThan c (drop n fs) `sublist_of` fs) as Hmix.
  { intros n c. rewrite <- (take_drop n fs) at 3.
    apply sublist_app; [done|apply sublist_filter]. }
  assert (∀ c l, l `sublist_of` fs → olderThan c l `sublist_of` fs) as Hold.
  { intros c l Hl. etrans; [apply sublist_filter|done]. }
  assert (∀ c, notOlderThan c fs `sublist_of` fs) as Hnew.
  { intros c. apply sublist_filter. }
  repeat case_bool_decide; simpl; split;
    auto using sublist_take, sublist_drop, sublist_nil_l.
Qed.

Lemma selectFiles_partition rules w now fs :
  NoDup (keys fs) → 0 < MaxAgeDays rules ∨ 0 < MaxCount rules →
  (V1.selectFiles rules w now fs).2 ++ (V1.selectFiles rules w now fs).1 ≡ₚ fs.
Proof.
  intros Hnd Hrule. rewrite (selectFiles_closed rules w now fs Hnd). simpl.
  assert (∀ c l, notOlderThan c l ++ olderThan c l ≡ₚ l) as Hsplit.
  { intros c l. rewrite (comm (++)). apply filter_app_complement. }
  repeat case_bool_decide; simpl; try lia.
  - rewrite <- app_assoc, Hsplit. by rewrite take_drop.
  - by rewrite take_drop.
  - apply Hsplit.
  - by rewrite app_nil_r.
  - apply Hsplit.
Qed.

(** X5. A run of the first version on a listing with
    distinct keys: with a rule enabled the two slices hold the listing, each
    file once, so [RetainedFiles + DeletedFiles = TotalFiles]; with no rule
    enabled both are empty; the retained slice is in the order newest first,
    so the oldest and newest retained times are exactly the earliest and
    latest creation time of a retained file; a dry run leaves the bucket
    alone; a live run calls [Delete] on the files to delete, newest first,
    stops at the first failure and returns the statistics with the
    error. *)
Theorem first_version_run rules dryRun w now b st err b' listing :
  WorldOK w → NoDup (keys listing) → Enabled rules = true →
  S3_List w b = inr listing → listing ≠ [] →
  V1.Execute rules dryRun w now b = (st, err, b') →
  let sets := V1.selectFiles rules w now (sortNewestFirst w listing) in
  ∃ s, st = Some s ∧
  V1.DeleteStats.TotalFiles s = len listing ∧
  V1.DeleteStats.DeletedFiles s = len sets.1 ∧
  V1.DeleteStats.RetainedFiles s = len sets.2 ∧
  (0 < MaxAgeDays rules ∨ 0 < MaxCount rules →
     sets.2 ++ sets.1 ≡ₚ listing ∧
     V1.DeleteStats.RetainedFiles s + V1.DeleteStats.DeletedFiles s
       = V1.DeleteStats.TotalFiles s) ∧
  (MaxAgeDays rules ≤ 0 → MaxCount rules ≤ 0 → sets = ([], [])) ∧
  StronglySorted newestFirst sets.2 ∧
  oldestOf (V1.DeleteStats.OldestRetained s) sets.2 ∧
  newestOf (V1.DeleteStats.NewestRetained s) sets.2 ∧
  (dryRun = true → b' = b ∧ err = None) ∧
  (dryRun = false →
     ∃ calls, deleteCalls b' = deleteCalls b ++ calls ∧
       objects b' = removeKeys (succeeded calls) (objects b) ∧
       failFast calls err ∧
       calls.*1 `prefix_of` keys sets.1 ∧
       (err = None → calls.*1 = keys sets.1)).
Proof.
  intros Hw Hkeys Hen Hlist Hne. unfold V1.Execute. rewrite Hen, Hlist. simpl.
  assert ((len listing =? 0) = false) as ->.
  { apply Z.eqb_neq. unfold len. destruct listing; [done|]. simpl. lia. }
  pose proof (sort_perm w Hw listing) as Hp.
  pose proof (sorted_keys_nodup w Hw listing Hkeys) as Hnd.
  pose proof (selectFiles_sublist rules w now _ Hnd) as [Hsub1 Hsub2].
  pose proof (selectFiles_partition rules w now _ Hnd) as Hpart.
  pose proof (selectFiles_closed rules w now _ Hnd) as Hclosed. simpl in Hclosed.
  destruct (V1.selectFiles rules w now (sortNewestFirst w listing)) as [del ret].
  simpl in *.
  assert (StronglySorted newestFirst ret) as Hsorted.
  { eapply StronglySorted_sublist; [done|]. apply (sort_sorted w Hw). }
  set (s := V1.statistics (len listing) del ret).
  assert (∀ e b1, (dryRun = true → b1 = b ∧ e = None) →
            (dryRun = false → deleteFiles w b del = (b1, e)) →
            (Some s, e, b1) = (st, err, b') →
            ∃ s0, st = Some s0 ∧
              V1.DeleteStats.TotalFiles s0 = len listing ∧
              V1.DeleteStats.DeletedFiles s0 = len del ∧
              V1.DeleteStats.RetainedFiles s0 = len ret ∧
              (0 < MaxAgeDays rules ∨ 0 < MaxCount rules →
                 ret ++ del ≡ₚ listing ∧
                 V1.DeleteStats.RetainedFiles s0 + V1.DeleteStats.DeletedFiles s0
                   = V1.DeleteStats.TotalFiles s0) ∧
              (MaxAgeDays rules ≤ 0 → MaxCount rules ≤ 0 → (del, ret) = ([], [])) ∧
              StronglySorted newestFirst ret ∧
              oldestOf (V1.DeleteStats.OldestRetained s0) ret ∧
              newestOf (V1.DeleteStats.NewestRetained s0) ret ∧
              (dryRun = true → b' = b ∧ err = None) ∧
              (dryRun = false →
                 ∃ calls, deleteCalls b' = deleteCalls b ++ calls ∧
                   objects b' = removeKeys (succeeded calls) (objects b) ∧
                   failFast calls err ∧
                   calls.*1 `prefix_of` keys del ∧
                   (err = None → calls.*1 = keys del))) as Hall.
  { intros e b1 Hdry Hlive [= <- <- <-]. exists s. split; [done|].
    split; [done|]. split; [done|]. split; [done|]. split.
    { intros Hrule. specialize (Hpart Hrule). split; [by rewrite Hpart|].
      subst s. simpl. rewrite <- (len_perm _ _ Hp), <- (len_perm _ _ Hpart).
      apply eq_sym, len_app. }
    split.
    { intros Ha Hn. rewrite Hclosed, !ltb_decide.
      assert ((0 <? MaxCount rules) = false) as -> by (by apply Z.ltb_ge).
      by assert ((0 <? MaxAgeDays rules) = false) as -> by (by apply Z.ltb_ge). }
    split; [done|]. split; [by apply newestFirst_last|].
    split; [by apply newestFirst_head|]. split; [done|].
    intros Hd. apply (deleteFiles_log w del b). by apply Hlive. }
  destruct dryRun.
  - apply Hall; [done|done].
  - destruct (deleteFiles w b del) as [b1 [e|]] eqn:Hdel; by apply Hall.
Qed.

Lemma first_version_run_witness :
  let rules := mkRules 30 3 true in
  let w := plainWorld (100 * day) false ["db/2024-01-01"] in
  let now := 100 * day in
  let listing := objects twoFolders in
  let r := V1.Execute rules false w now twoFolders in
  let sets := V1.selectFiles rules w now (sortNewestFirst w listing) in
  keys sets.1 = ["db/2024-01-01"; "pg/2024-01-01"] ∧
  deleteCalls r.2 = [("db/2024-01-01", Some (S3Error "access denied"))] ∧
  ∃ s, r.1.1 = Some s ∧
  V1.DeleteStats.TotalFiles s = len listing ∧
  V1.DeleteStats.DeletedFiles s = len sets.1 ∧
  V1.DeleteStats.RetainedFiles s = len sets.2 ∧
  (0 < MaxAgeDays rules ∨ 0 < MaxCount rules →
     sets.2 ++ sets.1 ≡ₚ listing ∧
     V1.DeleteStats.RetainedFiles s + V1.DeleteStats.DeletedFiles s
       = V1.DeleteStats.TotalFiles s) ∧
  (MaxAgeDays rules ≤ 0 → MaxCount rules ≤ 0 → sets = ([], [])) ∧
  StronglySorted newestFirst sets.2 ∧
  oldestOf (V1.DeleteStats.OldestRetained s) sets.2 ∧
  newestOf (V1.DeleteStats.NewestRetained s) sets.2 ∧
  (false = true → r.2 = twoFolders ∧ r.1.2 = None) ∧
  (false = false →
     ∃ calls, deleteCalls r.2 = deleteCalls twoFolders ++ calls ∧
       objects r.2 = removeKeys (succeeded calls) (objects twoFolders) ∧
       failFast calls r.1.2 ∧
       calls.*1 `prefix_of` keys sets.1 ∧
       (r.1.2 = None → calls.*1 = keys sets.1)).
Proof.
  split; [by vm_compute|]. split; [by vm_compute|].
  apply (first_version_run (mkRules 30 3 true) false
           (plainWorld (100 * day) false ["db/2024-01-01"]) (100 * day) twoFolders).
  - apply plainWorld_ok.
  - by vm_compute; compute_done.
  - reflexivity.
  - reflexivity.
  - done.
  - by destruct (V1.Execute _ _ _ _ _) as [[? ?] ?].
Defined.

(** ** Strings *)

Lemma append_cons c s x : String c s +:+ x = String c (s +:+ x).
Proof. reflexivity. Qed.

Lemma append_nil x : EmptyString +:+ x = x.
Proof. reflexivity. Qed.

Lemma string_length_app s x :
  String.length (s +:+ x) = (String.length s + String.length x)%nat.
Proof.
  induction s as [|c s IH]; [done|]. rewrite append_cons. simpl. by rewrite IH.
Qed.

Lemma substring_all x : String.substring 0 (String.length x) x = x.
Proof. induction x as [|c x IH]; [done|]. simpl. by rewrite IH. Qed.

Lemma substring_app_prefix s x : String.substring 0 (String.length s) (s +:+ x) = s.
Proof.
  induction s as [|c s IH].
  - rewrite append_nil. by destruct x.
  - rewrite append_cons. simpl. by rewrite IH.
Qed.

Lemma substring_app_suffix s x :
  String.substring (String.length s) (String.length x) (s +:+ x) = x.
Proof.
  induction s as [|c s IH].
  - rewrite append_nil. apply substring_all.
  - rewrite append_cons. simpl. apply IH.
Qed.

Lemma substring_split s (n : nat) :
  (n ≤ String.length s)%nat →
  String.substring 0 n s +:+ String.substring n (String.length s - n) s = s.
Proof.
  revert n. induction s as [|c s IH]; intros [|n] Hn; simpl in *; try done; try lia.
  - rewrite append_nil. by rewrite substring_all.
  - rewrite append_cons. f_equal. apply IH. lia.
Qed.

Lemma HasSuffix_app s x : HasSuffix (s +:+ x) x = true.
Proof.
  unfold HasSuffix. rewrite string_length_app.
  rewrite bool_decide_eq_true_2 by lia. simpl.
  replace (String.length s + String.length x - String.length x)%nat
    with (String.length s) by lia.
  rewrite substring_app_suffix. apply String.eqb_refl.
Qed.

Lemma TrimSuffix_app s x : TrimSuffix (s +:+ x) x = s.
Proof.
  unfold TrimSuffix. rewrite HasSuffix_app, string_length_app.
  replace (String.length s + String.length x - String.length x)%nat
    with (String.length s) by lia.
  apply substring_app_prefix.
Qed.

Lemma TrimSuffix_spec s x :
  if HasSuffix s x then TrimSuffix s x +:+ x = s else TrimSuffix s x = s.
Proof.
  unfold TrimSuffix. destruct (HasSuffix s x) eqn:H; [|done].
  unfold HasSuffix in H. apply andb_true_iff in H as [Hlen Heq].
  apply bool_decide_eq_true in Hlen. apply String.eqb_eq in Heq.
  set (n := (String.length s - String.length x)%nat) in *.
  rewrite <- (substring_split s n) at 2 by lia. f_equal.
  rewrite <- Heq at 1. f_equal. lia.
Qed.

(** ** The encryptor *)

Lemma NewCipher_32 key : length key = 32%nat → encryption.NewCipher key = inr key.
Proof.
  intros H. unfold encryption.NewCipher. rewrite bool_decide_eq_true_2; [done|]. tauto.
Qed.

(** X9. [NewEncryptor] panics exactly when it is given a [nil]
    configuration. Given a configuration, it fails exactly when encryption
    is enabled and the configured key does not decode or does not decode to
    32 bytes. An encryptor it returns either has encryption disabled, and
    then [EncryptFile] and [DecryptFile] return the path they were given
    and touch no file, or holds the 32 decoded bytes, and then neither of
    them ever fails to create the cipher or the GCM mode. *)
Theorem NewEncryptor_validates_the_key sys config :
  match encryption.NewEncryptor sys config with
  | None => config = None
  | Some result =>
      ∃ cfg, config = Some cfg ∧
      match result with
      | inl err =>
          encryption.Enabled cfg = true ∧
          match encryption.DecodeString sys (encryption.Key cfg) with
          | inl cause => err = encryption.ErrorDecodingEncryptionKey cause
          | inr key => len key ≠ 32 ∧ err = encryption.InvalidKeyLength (len key)
          end
      | inr e =>
          encryption.config e = cfg ∧
          (encryption.Enabled cfg = false →
             ∀ path fs, encryption.EncryptFile sys e path fs = (inr path, fs) ∧
                        encryption.DecryptFile sys e path fs = (inr path, fs)) ∧
          (encryption.Enabled cfg = true →
             encryption.DecodeString sys (encryption.Key cfg) = inr (encryption.key e) ∧
             length (encryption.key e) = 32%nat ∧
             ∀ path fs cause,
               (encryption.EncryptFile sys e path fs).1
                 ≠ inl (encryption.ErrorCreatingCipher cause) ∧
               (encryption.EncryptFile sys e path fs).1
                 ≠ inl (encryption.ErrorCreatingGCM cause) ∧
               (encryption.DecryptFile sys e path fs).1
                 ≠ inl (encryption.ErrorCreatingCipher cause) ∧
               (encryption.DecryptFile sys e path fs).1
                 ≠ inl (encryption.ErrorCreatingGCM cause))
      end
  end.
Proof.
  unfold encryption.NewEncryptor.
  destruct config as [cfg|]; [|done]. exists cfg. split; [done|].
  destruct (encryption.Enabled cfg) eqn:Hen; simpl.
  2:{ split; [done|]. split; [|done]. intros _ path fs.
      unfold encryption.EncryptFile, encryption.DecryptFile. simpl. by rewrite Hen. }
  destruct (encryption.DecodeString sys (encryption.Key cfg)) as [cause|key] eqn:Hdec.
  { done. }
  case_bool_decide as Hlen.
  { done. }
  assert (length key = 32%nat) as Hkey.
  { unfold len in Hlen. destruct (decide (length key = 32%nat)); [done|]. lia. }
  split; [done|]. split; [done|]. intros _. split; [done|]. split; [done|].
  intros path fs cause.
  unfold encryption.EncryptFile, encryption.DecryptFile, encryption.NewGCM,
    encryption.WriteFile. simpl.
  rewrite Hen, (NewCipher_32 key Hkey). simpl.
  repeat split; repeat (case_match; simpl; try done).
Qed.

Lemma string_app_ne s x : x ≠ EmptyString → s +:+ x ≠ s.
Proof.
  intros Hx Heq. apply (f_equal String.length) in Heq.
  rewrite string_length_app in Heq. destruct x; [done|]. simpl in Heq. lia.
Qed.


Lemma plainSystem_ok : encryption.SystemOK plainSystem.
Proof.
  split.
  - intros n buf [= <-]. apply length_replicate.
  - intros key nonce plaintext.
    unfold plainSystem. cbn [encryption.gcmOpen encryption.gcmSeal]. f_equal.
    rewrite length_app, length_replicate.
    replace (length (reverse plaintext) + 16 - 16)%nat with (length (reverse plaintext)) by lia.
    by rewrite take_app_length, reverse_involutive.
Qed.

(** X10. An encryptor with encryption enabled and a 32-byte key
    writes, for a file [p] holding [plaintext], the file [p.enc] holding a
    12-byte nonce followed by the sealed plaintext, and leaves [p] as it
    is. [DecryptFile] on [p.enc], on any disk that still holds that
    content, finds the nonce, opens the rest and writes the plaintext back
    to [p]: when the disk lets it read and write, it returns [p] and [p]
    holds the plaintext again. *)
Theorem decrypt_restores_what_encrypt_wrote sys e p fs out fs1 :
  encryption.SystemOK sys →
  encryption.Enabled (encryption.config e) = true →
  length (encryption.key e) = 32%nat →
  encryption.EncryptFile sys e p fs = (inr out, fs1) →
  ∃ plaintext nonce,
    fs !! p = Some plaintext ∧ length nonce = 12%nat ∧
    out = p +:+ ".enc" ∧
    fs1 = <[out := nonce ++ encryption.gcmSeal sys (encryption.key e) nonce plaintext]> fs ∧
    fs1 !! p = Some plaintext ∧
    ∀ fs2, fs2 !! out = fs1 !! out →
      encryption.readFails sys out = None →
      encryption.writeFails sys fs2 p plaintext = None →
      encryption.DecryptFile sys e out fs2 = (inr p, <[p := plaintext]> fs2).
Proof.
  intros Hsys Hen Hkey. unfold encryption.EncryptFile. rewrite Hen. simpl.
  unfold encryption.ReadFile.
  destruct (fs !! p) as [plaintext|] eqn:Hp; [|done].
  destruct (encryption.readFails sys p); [done|].
  destruct (encryption.randRead sys 12) as [|nonce] eqn:Hrand; [done|].
  rewrite (NewCipher_32 _ Hkey). simpl.
  unfold encryption.WriteFile.
  destruct (encryption.writeFails sys fs _ _) as [[err fs']|]; [done|].
  intros [= <- <-].
  pose proof (encryption.randRead_length sys Hsys 12 nonce Hrand) as Hnonce.
  exists plaintext, nonce. split; [done|]. split; [done|]. split; [done|].
  split; [done|]. split.
  { rewrite lookup_insert_ne; [done|]. by apply string_app_ne. }
  intros fs2 Hout Hread Hwrite.
  unfold encryption.DecryptFile. rewrite Hen. simpl.
  unfold encryption.ReadFile. rewrite Hout, lookup_insert_eq, Hread.
  assert ((len (nonce ++ encryption.gcmSeal sys (encryption.key e) nonce plaintext) <? 12)
          = false) as ->.
  { apply Z.ltb_ge. unfold len. rewrite length_app. lia. }
  rewrite (NewCipher_32 _ Hkey). simpl.
  rewrite <- Hnonce. rewrite take_app_length, drop_app_length.
  rewrite (encryption.gcmOpen_gcmSeal sys Hsys).
  rewrite TrimSuffix_app. unfold encryption.WriteFile. by rewrite Hwrite.
Qed.

Lemma decrypt_restores_what_encrypt_wrote_witness :
  let r := encryption.EncryptFile plainSystem plainEncryptor "db/dump.sql" oneDump in
  let out := "db/dump.sql.enc" in
  encryption.DecryptFile plainSystem plainEncryptor out (delete "db/dump.sql" r.2)
    = (inr "db/dump.sql", r.2) ∧
  ∃ plaintext nonce,
    oneDump !! "db/dump.sql" = Some plaintext ∧ length nonce = 12%nat ∧
    out = "db/dump.sql" +:+ ".enc" ∧
    r.2 = <[out := nonce ++ encryption.gcmSeal plainSystem (encryption.key plainEncryptor)
                              nonce plaintext]> oneDump ∧
    r.2 !! "db/dump.sql" = Some plaintext ∧
    ∀ fs2, fs2 !! out = r.2 !! out →
      encryption.readFails plainSystem out = None →
      encryption.writeFails plainSystem fs2 "db/dump.sql" plaintext = None →
      encryption.DecryptFile plainSystem plainEncryptor out fs2
      = (inr "db/dump.sql", <["db/dump.sql" := plaintext]> fs2).
Proof.
  split; [reflexivity|].
  apply (decrypt_restores_what_encrypt_wrote plainSystem plainEncryptor "db/dump.sql" oneDump).
  - apply plainSystem_ok.
  - reflexivity.
  - reflexivity.
  - reflexivity.
Defined.

(** X11. When [DecryptFile] succeeds with
    encryption enabled, the path it returns is the input path without its
    [.enc] suffix, and it has written the plaintext there. For an input
    path that does not end in [.enc] this is the input path itself: the
    encrypted file is replaced by its plaintext. For one that ends in
    [.enc] the encrypted file is left as it was. *)
Theorem DecryptFile_output_path sys e inputPath fs out fs' :
  encryption.Enabled (encryption.config e) = true →
  encryption.DecryptFile sys e inputPath fs = (inr out, fs') →
  ∃ sealed plaintext,
    fs !! inputPath = Some sealed ∧ 12 ≤ len sealed ∧
    encryption.gcmOpen sys (encryption.key e) (take 12 sealed) (drop 12 sealed)
      = inr plaintext ∧
    out = TrimSuffix inputPath ".enc" ∧
    fs' = <[out := plaintext]> fs ∧
    (HasSuffix inputPath ".enc" = false →
       out = inputPath ∧ fs' !! inputPath = Some plaintext) ∧
    (HasSuffix inputPath ".enc" = true →
       out +:+ ".enc" = inputPath ∧ fs' !! inputPath = Some sealed).
Proof.
  intros Hen. unfold encryption.DecryptFile. rewrite Hen. simpl.
  unfold encryption.ReadFile.
  destruct (fs !! inputPath) as [sealed|] eqn:Hin; [|done].
  destruct (encryption.readFails sys inputPath); [done|].
  destruct (len sealed <? 12) eqn:Hlen; [done|]. apply Z.ltb_ge in Hlen.
  unfold encryption.NewCipher. case_bool_decide; [|done]. simpl.
  destruct (encryption.gcmOpen sys _ _ _) as [|plaintext] eqn:Hopen; [done|].
  unfold encryption.WriteFile.
  destruct (encryption.writeFails sys fs _ _) as [[err fs1]|]; [done|].
  intros [= <- <-]. exists sealed, plaintext.
  split; [done|]. split; [done|]. split; [done|]. split; [done|]. split; [done|].
  pose proof (TrimSuffix_spec inputPath ".enc") as Hspec.
  split; intros Hsuf; rewrite Hsuf in Hspec.
  - split; [done|]. by rewrite Hspec, lookup_insert_eq.
  - split; [done|]. rewrite lookup_insert_ne; [done|].
    intros Heq. rewrite Heq in Hspec. by apply string_app_ne in Hspec.
Qed.

Lemma DecryptFile_output_path_witness :
  let sealed := replicate 12 Byte.x00 ++ reverse dumpBytes ++ replicate 16 Byte.x00 in
  let fs : gmap string (list Byte.byte) := {[ "db/dump.bin" := sealed ]} in
  let r := encryption.DecryptFile plainSystem plainEncryptor "db/dump.bin" fs in
  r = (inr "db/dump.bin", {[ "db/dump.bin" := dumpBytes ]}) ∧
  ∃ sealed plaintext,
    fs !! "db/dump.bin" = Some sealed ∧ 12 ≤ len sealed ∧
    encryption.gcmOpen plainSystem (encryption.key plainEncryptor)
      (take 12 sealed) (drop 12 sealed) = inr plaintext ∧
    "db/dump.bin" = TrimSuffix "db/dump.bin" ".enc" ∧
    r.2 = <["db/dump.bin" := plaintext]> fs ∧
    (HasSuffix "db/dump.bin" ".enc" = false →
       "db/dump.bin" = "db/dump.bin" ∧ r.2 !! "db/dump.bin" = Some plaintext) ∧
    (HasSuffix "db/dump.bin" ".enc" = true →
       "db/dump.bin" +:+ ".enc" = "db/dump.bin" ∧ r.2 !! "db/dump.bin" = Some sealed).
Proof.
  split; [reflexivity|].
  apply (DecryptFile_output_path plainSystem plainEncryptor "db/dump.bin"
           {[ "db/dump.bin" := replicate 12 Byte.x00 ++ reverse dumpBytes
                                ++ replicate 16 Byte.x00 ]}).
  - reflexivity.
  - reflexivity.
Defined.

(** ** The names of environment variables *)

Lemma bytesOf_cons c s : bytesOf (String c s) = c :: bytesOf s.
Proof. reflexivity. Qed.

Lemma bytesOf_app s x : bytesOf (s +:+ x) = bytesOf s ++ bytesOf x.
Proof.
  induction s as [|c s IH]; [done|].
  rewrite append_cons, !bytesOf_cons, IH. done.
Qed.

Lemma prefix_single c s :
  String.prefix (String c EmptyString) s = true ↔ ∃ r, s = String c r.
Proof.
  destruct s as [|d r]; simpl.
  - split; [done|]. by intros [? ?].
  - destruct (Ascii.ascii_dec c d) as [->|Hne].
    + split; [eauto|]. intros _. by destruct r.
    + split; [done|]. intros [r' [= -> _]]. done.
Qed.

(** Replacing one byte by another leaves none of the first. *)
Lemma replace_byte_gone (c d : Ascii.ascii) s :
  c ≠ d →
  c ∉ bytesOf (ReplaceAll s (String c EmptyString) (String d EmptyString)).
Proof.
  intros Hne. unfold ReplaceAll. induction s as [|x s IH].
  - simpl. apply not_elem_of_nil.
  - cbn [replaceFrom].
    destruct (String.prefix (String c EmptyString) (String x s)) eqn:Hp.
    + simpl String.length. rewrite append_cons, append_nil, bytesOf_cons.
      apply not_elem_of_cons. by split.
    + rewrite bytesOf_cons. apply not_elem_of_cons. split; [|done].
      intros <-. assert (String.prefix (String c EmptyString) (String c s) = true) as Ht.
      { apply prefix_single. eauto. }
      congruence.
Qed.

(** X12. The key that [Load] derives from the name of an
    environment variable never holds an underscore, whatever the name: the
    last step replaces every underscore by a dot. So no variable can set a
    configuration key whose name holds an underscore, among them
    [log_level], [db_configs], [s3.access_key], [s3.secret_key] and the
    three keys of [deletion_rules]. *)
Theorem env_keys_have_no_underscore s :
  (underscore ∉ bytesOf (envKey s)) ∧
  (∀ key, underscore ∈ bytesOf key → envKey s ≠ key) ∧
  Forall (λ key, envKey s ≠ key) underscoredKeys.
Proof.
  assert (underscore ∉ bytesOf (envKey s)) as Hno.
  { unfold envKey. by apply (replace_byte_gone underscore dot). }
  split; [done|]. split.
  - intros key Hkey Heq. by rewrite Heq in Hno.
  - apply Forall_forall. intros key Hkey Heq. rewrite Heq in Hno. apply Hno.
    unfold underscoredKeys in Hkey. clear -Hkey.
    repeat (apply elem_of_cons in Hkey as [->|Hkey]; [by vm_compute; set_solver|]).
    by apply elem_of_nil in Hkey.
Qed.

Lemma replace_byte_map (c d : Ascii.ascii) s :
  ReplaceAll s (String c EmptyString) (String d EmptyString)
  = mapBytes (λ x, if Ascii.eqb x c then d else x) s.
Proof.
  unfold ReplaceAll. induction s as [|x s IH]; [done|].
  cbn [replaceFrom mapBytes].
  destruct (String.prefix (String c EmptyString) (String x s)) eqn:Hp.
  - apply prefix_single in Hp as [r [= -> ->]].
    simpl String.length. rewrite append_cons, append_nil, Ascii.eqb_refl.
    by rewrite <- IH.
  - destruct (Ascii.eqb x c) eqn:Hx.
    + apply Ascii.eqb_eq in Hx as ->.
      assert (String.prefix (String c EmptyString) (String c s) = true) as Ht.
      { apply prefix_single. eauto. }
      congruence.
    + by rewrite <- IH.
Qed.

Lemma mapBytes_compose f g s : mapBytes f (mapBytes g s) = mapBytes (f ∘ g) s.
Proof. induction s as [|c s IH]; [done|]. simpl. by rewrite IH. Qed.

Lemma mapBytes_id f s : Forall (λ c, f c = c) (bytesOf s) → mapBytes f s = s.
Proof.
  induction s as [|c s IH]; [done|]. rewrite bytesOf_cons.
  intros [Hc Hs]%Forall_cons. simpl. by rewrite Hc, IH.
Qed.

Lemma TrimPrefix_app p x : TrimPrefix (p +:+ x) p = x.
Proof.
  unfold TrimPrefix, HasPrefix.
  assert (String.prefix p (p +:+ x) = true) as ->.
  { apply String.prefix_correct, substring_app_prefix. }
  rewrite string_length_app.
  replace (String.length p + String.length x - String.length p)%nat
    with (String.length x) by lia.
  apply substring_app_suffix.
Qed.

(** The bytes, one by one. *)
Lemma plainByte_back c :
  plainByte c →
  (if Ascii.eqb
        (lowerByte (upperByte (if Ascii.eqb c dot then underscore else c))) underscore
   then dot
   else lowerByte (upperByte (if Ascii.eqb c dot then underscore else c))) = c.
Proof.
  intros Hc.
  assert (((97 <=? Ascii.nat_of_ascii c) && (Ascii.nat_of_ascii c <=? 122)
           || (48 <=? Ascii.nat_of_ascii c) && (Ascii.nat_of_ascii c <=? 57)
           || (Ascii.nat_of_ascii c =? 46))%nat = true) as Hb.
  { unfold plainByte in Hc. revert Hc. generalize (Ascii.nat_of_ascii c). intros n Hn.
    destruct (Nat.leb_spec 97 n), (Nat.leb_spec n 122), (Nat.leb_spec 48 n),
      (Nat.leb_spec n 57), (Nat.eqb_spec n 46); simpl; try done; lia. }
  clear Hc.
  destruct c as [[] [] [] [] [] [] [] []]; try reflexivity; by vm_compute in Hb.
Qed.

(** X13. A configuration path made of lower-case
    letters, digits and dots can be set from the environment: the variable
    named [BACKUP_] followed by the path in upper case, with an underscore
    for each dot, is turned into that path. *)
Theorem env_name_reaches_plain_path path :
  Forall plainByte (bytesOf path) → envKey (envName path) = path.
Proof.
  intros Hplain. unfold envKey, envName.
  rewrite TrimPrefix_app. unfold ToLower, ToUpper.
  change "_" with (String underscore EmptyString).
  change "." with (String dot EmptyString).
  rewrite !replace_byte_map, !mapBytes_compose.
  apply mapBytes_id. eapply Forall_impl; [done|].
  intros c Hc. by apply plainByte_back.
Qed.

Lemma env_name_reaches_plain_path_witness :
  Forall plainByte (bytesOf "s3.bucket") ∧
  envName "s3.bucket" = "BACKUP_S3_BUCKET" ∧
  envKey (envName "s3.bucket") = "s3.bucket".
Proof.
  assert (Forall plainByte (bytesOf "s3.bucket")) as H.
  { apply Forall_forall. intros c Hc. unfold plainByte.
    repeat (apply elem_of_cons in Hc as [->|Hc]; [vm_compute; lia|]).
    by apply elem_of_nil in Hc. }
  split; [done|]. split; [by vm_compute|].
  by apply (env_name_reaches_plain_path "s3.bucket").
Defined.

(** The keys for some variables. *)
Example envKey_examples :
  envKey "BACKUP_S3_BUCKET" = "s3.bucket" ∧
  envKey "BACKUP_UPLOAD_ENABLED" = "upload.enabled" ∧
  envKey "BACKUP_DELETION_RULES_MAX_COUNT" = "deletion.rules.max.count" ∧
  envKey "BACKUP_LOG_LEVEL" = "log.level" ∧
  envKey "BACKUP_BACKUP_X" = "backup.x".
Proof. by vm_compute. Qed.

(** ** Uploads *)

(** X14. [UploadMultiple] uploads the requests in the order
    given, each under the key [FolderName/FileName], and stops at the first
    upload that fails: the requests before it stay uploaded, those after it
    are not attempted, and the error names the file of the failed request.
    Without a failure every request is uploaded. A key that no uploaded
    request names is left as it was. *)
Theorem UploadMultiple_stops_at_first_failure u bucket requests bucket' err :
  s3.UploadMultiple u bucket requests = (bucket', err) →
  ∃ done rest,
    requests = done ++ rest ∧
    bucket' = s3.uploaded bucket done ∧
    (∀ key, key ∉ s3.objectKey <$> done → bucket' !! key = bucket !! key) ∧
    match err with
    | None => rest = []
    | Some e =>
        ∃ req rest' cause,
          rest = req :: rest' ∧
          s3.uploadFails u bucket' (s3.objectKey req) = Some cause ∧
          e = s3.ErrorUploading (s3.FileName req) cause
    end.
Proof.
  revert bucket. induction requests as [|req requests IH]; intros bucket.
  - intros [= <- <-]. exists [], []. by repeat split.
  - cbn [s3.UploadMultiple]. unfold s3.uploadFile.
    destruct (s3.uploadFails u bucket (s3.objectKey req)) as [cause|] eqn:Hfail.
    + intros [= <- <-]. exists [], (req :: requests).
      split; [done|]. split; [done|]. split; [done|]. by exists req, requests, cause.
    + intros Hrun. apply IH in Hrun as (done & rest & -> & -> & Hother & Herr).
      exists (req :: done), rest. split; [done|]. split; [done|]. split; [|done].
      intros key Hkey. rewrite fmap_cons in Hkey.
      apply not_elem_of_cons in Hkey as [Hne Hkey].
      rewrite (Hother key Hkey). by rewrite lookup_insert_ne.
Qed.

Lemma UploadMultiple_stops_at_first_failure_witness :
  let u := plainUploader ["pg/b.sql"] in
  let r := s3.UploadMultiple u ∅ threeRequests in
  r = ({[ "db/a.sql" := dumpBytes ]}, Some (s3.ErrorUploading "b.sql" "access denied")) ∧
  ∃ done rest,
    threeRequests = done ++ rest ∧
    r.1 = s3.uploaded ∅ done ∧
    (∀ key, key ∉ s3.objectKey <$> done → r.1 !! key = (∅ : gmap string (list Byte.byte)) !! key) ∧
    match r.2 with
    | None => rest = []
    | Some e =>
        ∃ req rest' cause,
          rest = req :: rest' ∧
          s3.uploadFails u r.1 (s3.objectKey req) = Some cause ∧
          e = s3.ErrorUploading (s3.FileName req) cause
    end.
Proof.
  split; [reflexivity|].
  apply (UploadMultiple_stops_at_first_failure (plainUploader ["pg/b.sql"]) ∅ threeRequests).
  by destruct (s3.UploadMultiple _ _ _) as [? ?].
Defined.

(** ** The loop over the databases *)





